(** * pstree: compact mode, ordering, option handling and process collection

    A shallow embedding of the parts of bananazon/pstree that its design
    document makes promises about, with those promises stated and proved
    (or refuted) as theorems.

    Conventions.
    - Go's fixed-width integers are [Z]; where an operation can leave the
      type's range the wrap-around is written out ([wrap_int32],
      [wrap_int64], [wrap_uint64]).  Go's [int] is only used for slice
      positions and lengths, which never leave its range: positions are [nat]
      and the member count is a [Z] that is incremented without wrapping.
    - [float64] is the kernel's binary64 ([PrimFloat.float]).
    - A Go map is a [gmap]; reading a missing key yields the zero value.
    - A nil pointer is [None]; dereferencing it makes the function panic,
      which the embedding renders as the result [None]. *)

From Stdlib Require Import ZArith List PrimFloat Lia.
From stdpp Require Import gmap strings list pretty.

Local Open Scope Z_scope.

(** ** Machine integers *)

Definition wrap_uint64 (z : Z) : Z := z mod 2 ^ 64.
Definition wrap_int32 (z : Z) : Z := (z + 2 ^ 31) mod 2 ^ 32 - 2 ^ 31.
Definition wrap_int64 (z : Z) : Z := (z + 2 ^ 63) mod 2 ^ 64 - 2 ^ 63.

(** ** Data model *)

(** gopsutil's [process.MemoryInfoStat] (all fields [uint64]); the program
    reads [RSS] only. *)
Module MemoryInfoStat.
Record t := mk {
  RSS : Z;
  VMS : Z;
  HWM : Z;
  Data : Z;
  Stack : Z;
  Locked : Z;
  Swap : Z;
}.
Definition zero : t := mk 0 0 0 0 0 0 0.
End MemoryInfoStat.

Abbreviation MemoryInfoStat := MemoryInfoStat.t.

(** gopsutil's [process.MemoryInfoExStat] as it is on Linux (all fields
    [uint64]); the program only stores it. *)
Module MemoryInfoExStat.
Record t := mk {
  RSS : Z;
  VMS : Z;
  Shared : Z;
  Text : Z;
  Lib : Z;
  Data : Z;
  Dirty : Z;
}.
Definition zero : t := mk 0 0 0 0 0 0 0.
End MemoryInfoExStat.

Abbreviation MemoryInfoExStat := MemoryInfoExStat.t.

(** gopsutil's [process.NumCtxSwitchesStat] (both fields [int64]). *)
Module NumCtxSwitchesStat.
Record t := mk {
  Voluntary : Z;
  Involuntary : Z;
}.
Definition zero : t := mk 0 0.
End NumCtxSwitchesStat.

Abbreviation NumCtxSwitchesStat := NumCtxSwitchesStat.t.

(** [pstree.DisplayOptions], with the fields [pstreeRunCmd] fills in. *)
Record DisplayOptions := mkDisplayOptions {
  ColorAttr : string;
  ColorCount : Z;
  ColorizeOutput : bool;
  ColorScheme : string;
  ColorSupport : bool;
  CompactMode : bool;
  Contains : string;
  ExcludeRoot : bool;
  IBM850Graphics : bool;
  InstalledMemory : Z;
  MaxDepth : Z;
  OrderBy : string;
  RainbowOutput : bool;
  RootPID : Z;
  ScreenWidth : Z;
  ShowArguments : bool;
  ShowCpuPercent : bool;
  ShowMemoryUsage : bool;
  ShowNumThreads : bool;
  ShowOwner : bool;
  ShowPGIDs : bool;
  ShowPGLs : bool;
  ShowPIDs : bool;
  ShowPPIDs : bool;
  ShowProcessAge : bool;
  ShowUIDTransitions : bool;
  ShowUserTransitions : bool;
  Usernames : list string;
  UTF8Graphics : bool;
  VT100Graphics : bool;
  WideDisplay : bool;
}.

(** [pstree.Process]: the fields that [GenerateProcess] assigns from a fetch
    or that the grouping and ordering code reads.  The remaining fields of
    the Go struct (Background, Children, Connections, ...) are never assigned
    anything but their zero value and are left out. *)
Module Process.
Record t := mk {
  Age : Z;                             (* int64 *)
  Args : list string;
  Child : Z;
  Command : string;
  CPUPercent : float;                  (* float64 *)
  CreateTime : Z;                      (* int64 *)
  GIDs : list Z;                       (* []uint32 *)
  Groups : list Z;                     (* []uint32 *)
  MemoryInfo : option MemoryInfoStat;  (* *process.MemoryInfoStat *)
  MemoryInfoEx : option MemoryInfoExStat;
  MemoryPercent : float;               (* float32, held as the same real *)
  NumContextSwitches : option NumCtxSwitchesStat;
  NumThreads : Z;                      (* int32 *)
  Parent : Z;
  PGID : Z;                            (* int32 *)
  PID : Z;                             (* int32 *)
  PPID : Z;                            (* int32 *)
  Signature : string;
  Sister : Z;
  UIDs : list Z;                       (* []uint32 *)
  Username : string;
}.
End Process.

Abbreviation Process := Process.t.

(** [pstree.ProcessGroup]. *)
Module ProcessGroup.
Record t := mk {
  Count : Z;                 (* int *)
  FirstIndex : nat;          (* int *)
  FullPath : string;
  Indices : list nat;        (* []int *)
  Owner : string;
  Age : Z;                   (* int64 *)
  CPUPercent : float;        (* float64 *)
  MemoryUsage : Z;           (* uint64 *)
  NumThreads : Z;            (* int32 *)
}.

Definition set_Age (v : Z) (g : t) : t :=
  mk (Count g) (FirstIndex g) (FullPath g) (Indices g) (Owner g)
     v (CPUPercent g) (MemoryUsage g) (NumThreads g).
Definition set_CPUPercent (v : float) (g : t) : t :=
  mk (Count g) (FirstIndex g) (FullPath g) (Indices g) (Owner g)
     (Age g) v (MemoryUsage g) (NumThreads g).
Definition set_MemoryUsage (v : Z) (g : t) : t :=
  mk (Count g) (FirstIndex g) (FullPath g) (Indices g) (Owner g)
     (Age g) (CPUPercent g) v (NumThreads g).
Definition set_NumThreads (v : Z) (g : t) : t :=
  mk (Count g) (FirstIndex g) (FullPath g) (Indices g) (Owner g)
     (Age g) (CPUPercent g) (MemoryUsage g) v.
End ProcessGroup.

Abbreviation ProcessGroup := ProcessGroup.t.

(** [map[int32]map[string]map[string]ProcessGroup]: parent PID, then
    signature, then owner. *)
Abbreviation GroupMap := (gmap Z (gmap string (gmap string ProcessGroup))).

(** [map[int]bool], read with Go's default [false]. *)
Abbreviation SkipMap := (gmap nat bool).

Definition skipped (skip : SkipMap) (i : nat) : bool := default false (skip !! i).

(** The group stored for a (parent, signature, owner) key, if any. *)
Definition group_at (pg : GroupMap) (parent : Z) (sig owner : string)
  : option ProcessGroup :=
  bySig ← pg !! parent;
  byOwner ← (bySig : gmap string (gmap string ProcessGroup)) !! sig;
  (byOwner : gmap string ProcessGroup) !! owner.

(** Every group stored under one parent, with its (signature, owner) key. *)
Definition groups_under (pg : GroupMap) (parent : Z)
  : list ((string * string) * ProcessGroup) :=
  '(sig, byOwner) ← map_to_list (default ∅ (pg !! parent));
  '(owner, g) ← map_to_list (byOwner : gmap string ProcessGroup);
  [((sig, owner), g)].

(** [pstree.ProcessTree]: the parts compact mode touches. *)
Record ProcessTree := mkProcessTree {
  Nodes : list Process;
  TreeOptions : DisplayOptions;    (* the field DisplayOptions *)
  ProcessGroups : GroupMap;
}.

(** ** Compact mode, as a method of the process tree (compact.go) *)

Module TreeCompact.

(** Lines 519-530: the metric updates, each behind its display option.
    [MemoryInfo] is a pointer: reading [RSS] through nil panics. *)
Definition aggregate (opts : DisplayOptions) (node : Process) (group : ProcessGroup)
  : option ProcessGroup :=
  let group :=
    if ShowProcessAge opts
    then ProcessGroup.set_Age (Z.max (ProcessGroup.Age group) (Process.Age node)) group
    else group in
  let group :=
    if ShowCpuPercent opts
    then ProcessGroup.set_CPUPercent
           (PrimFloat.add (ProcessGroup.CPUPercent group) (Process.CPUPercent node)) group
    else group in
  group ←
    (if ShowMemoryUsage opts
     then mi ← Process.MemoryInfo node;
          Some (ProcessGroup.set_MemoryUsage
                  (wrap_uint64 (ProcessGroup.MemoryUsage group + MemoryInfoStat.RSS mi))
                  group)
     else Some group);
  let group :=
    if ShowNumThreads opts
    then ProcessGroup.set_NumThreads
           (wrap_int32 (ProcessGroup.NumThreads group + Process.NumThreads node)) group
    else group in
  Some group.

(** One iteration of the loop at lines 475-534, for the node at [pidIndex]. *)
Definition step (opts : DisplayOptions) (pidIndex : nat) (node : Process)
    (st : GroupMap * SkipMap) : option (GroupMap * SkipMap) :=
  let '(pg, skip) := st in
  if skipped skip pidIndex then Some st else
  let parentPID := Process.PPID node in
  let processOwner := Process.Username node in
  let compositeKey := Process.Signature node in
  let pg := match pg !! parentPID with
            | Some _ => pg
            | None => <[parentPID := ∅]> pg
            end in
  let bySig := default ∅ (pg !! parentPID) in
  let pg := match bySig !! compositeKey with
            | Some _ => pg
            | None => <[parentPID := <[compositeKey := ∅]> bySig]> pg
            end in
  let bySig := default ∅ (pg !! parentPID) in
  let byOwner := default ∅ (bySig !! compositeKey) in
  let '(group, skip) :=
    match byOwner !! processOwner with
    | None =>
        (ProcessGroup.mk 1 pidIndex EmptyString [pidIndex] processOwner
           0 0%float 0 0, skip)
    | Some group =>
        (ProcessGroup.mk (ProcessGroup.Count group + 1)
           (ProcessGroup.FirstIndex group) (ProcessGroup.FullPath group)
           (ProcessGroup.Indices group ++ [pidIndex]) (ProcessGroup.Owner group)
           (ProcessGroup.Age group) (ProcessGroup.CPUPercent group)
           (ProcessGroup.MemoryUsage group) (ProcessGroup.NumThreads group),
         <[pidIndex := true]> skip)
    end in
  group ← aggregate opts node group;
  Some (<[parentPID := <[compositeKey := <[processOwner := group]> byOwner]> bySig]> pg,
        skip).

(** [for pidIndex := range processTree.Nodes]. *)
Fixpoint loop (opts : DisplayOptions) (pidIndex : nat) (nodes : list Process)
    (st : GroupMap * SkipMap) : option (GroupMap * SkipMap) :=
  match nodes with
  | [] => Some st
  | node :: rest => st ← step opts pidIndex node st; loop opts (S pidIndex) rest st
  end.

(** [func (processTree *ProcessTree) InitCompactMode()]: [skipProcesses] is
    made afresh, [processTree.ProcessGroups] is used as it stands.  The
    result is the tree's new group map and the global skip map. *)
Definition InitCompactMode (processTree : ProcessTree) : option (GroupMap * SkipMap) :=
  loop (TreeOptions processTree) 0%nat (Nodes processTree)
       (ProcessGroups processTree, ∅).

(** [GetProcessCount], lines 577-604. *)
Definition GetProcessCount (nodes : list Process) (pg : GroupMap) (pidIndex : nat)
  : option (Z * list Z * Z * float * Z * Z) :=
  node ← nodes !! pidIndex;
  let parentPID := Process.PPID node in
  let processOwner := Process.Username node in
  let compositeKey := Process.Signature node in
  let none := Some (1, [], 0, 0%float, 0, 0) in
  match pg !! parentPID with
  | Some groups =>
      match default ∅ (groups !! compositeKey) !! processOwner with
      | Some group =>
          if decide (ProcessGroup.FirstIndex group = pidIndex) then
            groupPIDs ← mapM (λ i, Process.PID <$> nodes !! i) (ProcessGroup.Indices group);
            Some (ProcessGroup.Count group, groupPIDs, ProcessGroup.Age group,
                  ProcessGroup.CPUPercent group, ProcessGroup.MemoryUsage group,
                  ProcessGroup.NumThreads group)
          else none
      | None => none
      end
  | None => none
  end.

End TreeCompact.

(** ** Compact mode, as a function over a slice of process pointers *)

Module SliceCompact.

(** One iteration of the loop at lines 55-100; [None] when the pointer at
    [pidIndex] is nil. *)
Definition step (pidIndex : nat) (ptr : option Process)
    (st : GroupMap * SkipMap) : option (GroupMap * SkipMap) :=
  let '(pg, skip) := st in
  if skipped skip pidIndex then Some st else
  node ← ptr;
  let parentPID := Process.PPID node in
  let processOwner := Process.Username node in
  let compositeKey := Process.Signature node in
  let pg := match pg !! parentPID with
            | Some _ => pg
            | None => <[parentPID := ∅]> pg
            end in
  let bySig := default ∅ (pg !! parentPID) in
  let pg := match bySig !! compositeKey with
            | Some _ => pg
            | None => <[parentPID := <[compositeKey := ∅]> bySig]> pg
            end in
  let bySig := default ∅ (pg !! parentPID) in
  let byOwner := default ∅ (bySig !! compositeKey) in
  let '(group, skip) :=
    match byOwner !! processOwner with
    | None =>
        (ProcessGroup.mk 1 pidIndex EmptyString [pidIndex] processOwner
           0 0%float 0 0, skip)
    | Some group =>
        (ProcessGroup.mk (ProcessGroup.Count group + 1)
           (ProcessGroup.FirstIndex group) (ProcessGroup.FullPath group)
           (ProcessGroup.Indices group ++ [pidIndex]) (ProcessGroup.Owner group)
           (ProcessGroup.Age group) (ProcessGroup.CPUPercent group)
           (ProcessGroup.MemoryUsage group) (ProcessGroup.NumThreads group),
         <[pidIndex := true]> skip)
    end in
  Some (<[parentPID := <[compositeKey := <[processOwner := group]> byOwner]> bySig]> pg,
        skip).

Fixpoint loop (pidIndex : nat) (processes : list (option Process))
    (st : GroupMap * SkipMap) : option (GroupMap * SkipMap) :=
  match processes with
  | [] => Some st
  | ptr :: rest => st ← step pidIndex ptr st; loop (S pidIndex) rest st
  end.

(** [func InitCompactMode(processes []*Process)]: both global maps are made
    afresh. *)
Definition InitCompactMode (processes : list (option Process))
  : option (GroupMap * SkipMap) :=
  loop 0%nat processes (∅, ∅).

End SliceCompact.

(** ** What the grouping computes, stated over the node list *)

(** The grouping key of a node: parent PID, signature, owner. *)
Definition key_of (n : Process) : Z * string * string :=
  (Process.PPID n, Process.Signature n, Process.Username n).

(** The positions of the nodes that carry the key [k], ascending. *)
Definition members (nodes : list Process) (k : Z * string * string) : list nat :=
  filter (λ i, key_of <$> nodes !! i = Some k) (seq 0 (length nodes)).

(** The nodes that carry the key [k], in list order. *)
Definition matching (nodes : list Process) (k : Z * string * string) : list Process :=
  filter (λ n, key_of n = k) nodes.

(** The nodes a group's index list points at. *)
Definition member_nodes (nodes : list Process) (g : ProcessGroup) : list Process :=
  omap (λ i, nodes !! i) (ProcessGroup.Indices g).

(** A position whose node is not the first one with its key. *)
Definition is_duplicate (nodes : list Process) (i : nat) : bool :=
  match nodes !! i with
  | Some n => bool_decide (head (members nodes (key_of n)) ≠ Some i)
  | None => false
  end.

(** The resident set size read through the [MemoryInfo] pointer. *)
Definition rss_of (n : Process) : Z :=
  from_option MemoryInfoStat.RSS 0 (Process.MemoryInfo n).

(** The method can read every [MemoryInfo] it is going to dereference. *)
Definition memory_readable (opts : DisplayOptions) (nodes : list Process) : Prop :=
  ShowMemoryUsage opts = true → Forall (λ n, is_Some (Process.MemoryInfo n)) nodes.

Definition sumZ (l : list Z) : Z := foldr Z.add 0 l.

(** The sum of [Count] over the groups stored under [parent]. *)
Definition count_under (pg : GroupMap) (parent : Z) : Z :=
  sumZ ((λ kg, ProcessGroup.Count kg.2) <$> groups_under pg parent).

(** The metrics of a group over the nodes [ms], as the loop accumulates them
    from the zero group. *)
Definition metric_age (opts : DisplayOptions) (ms : list Process) : Z :=
  if ShowProcessAge opts then fold_left Z.max (Process.Age <$> ms) 0 else 0.
Definition metric_cpu (opts : DisplayOptions) (ms : list Process) : float :=
  if ShowCpuPercent opts
  then fold_left PrimFloat.add (Process.CPUPercent <$> ms) 0%float else 0%float.
Definition metric_memory (opts : DisplayOptions) (ms : list Process) : Z :=
  if ShowMemoryUsage opts then wrap_uint64 (sumZ (rss_of <$> ms)) else 0.
Definition metric_threads (opts : DisplayOptions) (ms : list Process) : Z :=
  if ShowNumThreads opts then wrap_int32 (sumZ (Process.NumThreads <$> ms)) else 0.

(** The group the method stores for key [k] once it has seen [nodes]. *)
Definition expected_group (opts : DisplayOptions) (nodes : list Process)
    (k : Z * string * string) : option ProcessGroup :=
  match members nodes k with
  | [] => None
  | first :: _ =>
      Some (ProcessGroup.mk (Z.of_nat (length (members nodes k))) first EmptyString
              (members nodes k) k.2
              (metric_age opts (matching nodes k)) (metric_cpu opts (matching nodes k))
              (metric_memory opts (matching nodes k))
              (metric_threads opts (matching nodes k)))
  end.

(** ** Sample process lists *)

(** A process record with the fields compact mode and ordering read; the
    rest as [GenerateProcess] leaves them when nothing is fetched. *)
Definition sample_process (pid ppid : Z) (sig owner : string) (age : Z) (cpu : float)
    (rss threads : Z) : Process :=
  Process.mk age [] (-1) sig cpu 0 [] [] (Some (MemoryInfoStat.mk rss 0 0 0 0 0 0))
    None 0%float None threads (-1) 0 pid ppid sig (-1) [] owner.

(** No annotation is shown. *)
Definition plain_options : DisplayOptions :=
  mkDisplayOptions EmptyString 0 false EmptyString false true EmptyString false false
    0 999 EmptyString false 0 80 false false false false false false false false false
    false false false [] false false false.

(** Age, CPU, memory and thread annotations are shown. *)
Definition metric_options : DisplayOptions :=
  mkDisplayOptions EmptyString 0 false EmptyString false true EmptyString false false
    0 999 EmptyString false 0 80 false true true true false false false false false
    true false false [] false false false.

(** init, sshd under it, and three children of sshd: bash, sleep, bash. *)
Definition sample_nodes : list Process :=
  [ sample_process 1 0 "init" "root" 900 0.5 4096 1;
    sample_process 50 1 "sshd" "root" 800 0.25 8192 2;
    sample_process 51 50 "bash" "alice" 30 1.5 1024 1;
    sample_process 52 50 "sleep" "alice" 25 0 512 1;
    sample_process 53 50 "bash" "alice" 20 2.25 2048 3 ].

Definition sample_tree (opts : DisplayOptions) : ProcessTree :=
  mkProcessTree sample_nodes opts ∅.

(** ** Go's [sort.Slice]

    The ordering functions of pstree.go hand the process slice to
    [sort.Slice] of Go's standard library.  The library is not part of the
    repository; what follows renders its pattern-defeating quicksort
    ([pdqsort_func] of package sort, with [insertionSort_func],
    [heapSort_func], [partition_func], ...) function by function, on a list
    with positions, so that the ordering functions can be run and reasoned
    about.  [data.Less(i, j)] and [data.Swap(i, j)] read and exchange the
    elements at two positions; a loop whose number of rounds is known when it
    starts recurses on that number, and the others carry fuel and return
    [None] when it runs out (which [sort_Slice_returns] shows never happens). *)

Section SortSlice.
Context {A : Type} (less : A → A → bool).

Local Open Scope nat_scope.

Definition Less (data : list A) (i j : nat) : bool :=
  match data !! i, data !! j with
  | Some x, Some y => less x y
  | _, _ => false
  end.

Definition Swap (data : list A) (i j : nat) : list A :=
  match data !! i, data !! j with
  | Some x, Some y => <[j := x]> (<[i := y]> data)
  | _, _ => data
  end.

(** [for j := i; j > a && data.Less(j, j-1); j-- { data.Swap(j, j-1) }],
    with [n = j - a]. *)
Fixpoint insertion_inner (n : nat) (data : list A) (j : nat) : list A :=
  match n with
  | 0 => data
  | S n =>
      if Less data j (j - 1)
      then insertion_inner n (Swap data j (j - 1)) (j - 1)
      else data
  end.

(** [for i := a + 1; i < b; i++ { ... }], with [n = b - i]. *)
Fixpoint insertion_outer (n : nat) (data : list A) (a i : nat) : list A :=
  match n with
  | 0 => data
  | S n => insertion_outer n (insertion_inner (i - a) data i) a (S i)
  end.

Definition insertionSort_func (data : list A) (a b : nat) : list A :=
  insertion_outer (b - (a + 1)) data a (a + 1).

(** [siftDown_func(data, lo, hi, first)]; [root] starts at [lo] and grows in
    every round. *)
Fixpoint siftDown_func (fuel : nat) (data : list A) (root hi first : nat)
  : option (list A) :=
  match fuel with
  | 0 => None
  | S fuel =>
      let child := 2 * root + 1 in
      if hi <=? child then Some data else
      let child :=
        if (child + 1 <? hi) && Less data (first + child) (first + child + 1)
        then child + 1 else child in
      if negb (Less data (first + root) (first + child)) then Some data else
      siftDown_func fuel (Swap data (first + root) (first + child)) child hi first
  end.

(** [for i := (hi - 1) / 2; i >= 0; i-- { siftDown_func(data, i, hi, first) }],
    with [n = i + 1]. *)
Fixpoint heap_build (n : nat) (data : list A) (hi first : nat) : option (list A) :=
  match n with
  | 0 => Some data
  | S i =>
      data ← siftDown_func (S hi) data i hi first;
      heap_build i data hi first
  end.

(** [for i := hi - 1; i >= 0; i-- { data.Swap(first, first+i);
    siftDown_func(data, lo, i, first) }], with [n = i + 1] and [lo = 0]. *)
Fixpoint heap_pop (n : nat) (data : list A) (first : nat) : option (list A) :=
  match n with
  | 0 => Some data
  | S i =>
      let data := Swap data first (first + i) in
      data ← siftDown_func (S i) data 0 i first;
      heap_pop i data first
  end.

Definition heapSort_func (data : list A) (a b : nat) : option (list A) :=
  let first := a in
  let hi := b - a in
  data ← heap_build ((hi - 1) / 2 + 1) data hi first;
  heap_pop hi data first.

(** [for i <= j && test(i) { i++ }], with [n = j + 1 - i]; also
    [for i < b && test(i) { i++ }], with [n = b - i]. *)
Fixpoint scan_up (n : nat) (test : nat → bool) (i : nat) : nat :=
  match n with
  | 0 => i
  | S n => if test i then scan_up n test (S i) else i
  end.

(** [for i <= j && test(j) { j-- }], with [n = j + 1 - i]. *)
Fixpoint scan_down (n : nat) (test : nat → bool) (j : nat) : nat :=
  match n with
  | 0 => j
  | S n => if test j then scan_down n test (j - 1) else j
  end.

(** The [for { ... }] loop of [partition_func]. *)
Fixpoint partition_loop (fuel : nat) (data : list A) (a i j : nat)
  : option (nat * nat * list A) :=
  match fuel with
  | 0 => None
  | S fuel =>
      let i := scan_up (j + 1 - i) (λ i, Less data i a) i in
      let j := scan_down (j + 1 - i) (λ j, negb (Less data j a)) j in
      if j <? i then Some (i, j, data) else
      partition_loop fuel (Swap data i j) a (S i) (j - 1)
  end.

(** [partition_func(data, a, b, pivot)]: the new pivot position, whether
    the range was partitioned already, and the data. *)
Definition partition_func (data : list A) (a b pivot : nat)
  : option (nat * bool * list A) :=
  let data := Swap data a pivot in
  let i := a + 1 in
  let j := b - 1 in
  let i := scan_up (j + 1 - i) (λ i, Less data i a) i in
  let j := scan_down (j + 1 - i) (λ j, negb (Less data j a)) j in
  if j <? i then Some (j, true, Swap data j a) else
  let data := Swap data i j in
  let i := S i in
  let j := j - 1 in
  '(i, j, data) ← partition_loop (b - a) data a i j;
  Some (j, false, Swap data j a).

(** The [for { ... }] loop of [partitionEqual_func]. *)
Fixpoint partitionEqual_loop (fuel : nat) (data : list A) (a i j : nat)
  : option (nat * list A) :=
  match fuel with
  | 0 => None
  | S fuel =>
      let i := scan_up (j + 1 - i) (λ i, negb (Less data a i)) i in
      let j := scan_down (j + 1 - i) (λ j, Less data a j) j in
      if j <? i then Some (i, data) else
      partitionEqual_loop fuel (Swap data i j) a (S i) (j - 1)
  end.

Definition partitionEqual_func (data : list A) (a b pivot : nat)
  : option (nat * list A) :=
  let data := Swap data a pivot in
  partitionEqual_loop (b - a) data a (a + 1) (b - 1).

(** [for j := i - 1; j >= 1; j-- { if !data.Less(j, j-1) { break };
    data.Swap(j, j-1) }]. *)
Fixpoint shift_smaller (j : nat) (data : list A) : list A :=
  match j with
  | 0 => data
  | S j' =>
      if negb (Less data j (j - 1)) then data
      else shift_smaller j' (Swap data j (j - 1))
  end.

(** [for j := i + 1; j < b; j++ { if !data.Less(j, j-1) { break };
    data.Swap(j, j-1) }], with [n = b - j]. *)
Fixpoint shift_greater (n : nat) (data : list A) (j : nat) : list A :=
  match n with
  | 0 => data
  | S n =>
      if negb (Less data j (j - 1)) then data
      else shift_greater n (Swap data j (j - 1)) (S j)
  end.

Definition maxSteps : nat := 5.
Definition shortestShifting : nat := 50.

(** [for j := 0; j < maxSteps; j++ { ... }], with [steps = maxSteps - j]. *)
Fixpoint partialInsertionSort_loop (steps : nat) (data : list A) (a b i : nat)
  : bool * list A :=
  match steps with
  | 0 => (false, data)
  | S steps =>
      let i := scan_up (b - i) (λ i, negb (Less data i (i - 1))) i in
      if i =? b then (true, data) else
      if b - a <? shortestShifting then (false, data) else
      let data := Swap data i (i - 1) in
      let data := if 2 <=? i - a then shift_smaller (i - 1) data else data in
      let data := if 2 <=? b - i then shift_greater (b - (i + 1)) data (i + 1) else data in
      partialInsertionSort_loop steps data a b i
  end.

Definition partialInsertionSort_func (data : list A) (a b : nat) : bool * list A :=
  partialInsertionSort_loop maxSteps data a b (a + 1).

(** [xorshift.Next] on a [uint64]. *)
Definition xorshift_Next (r : Z) : Z :=
  let r := Z.lxor r (Z.shiftl r 13 mod 2 ^ 64) in
  let r := Z.lxor r (Z.shiftr r 7) in
  let r := Z.lxor r (Z.shiftl r 17 mod 2 ^ 64) in
  r.

(** [bits.Len]: the number of bits needed to write [x]. *)
Definition bits_Len (x : nat) : nat :=
  match x with
  | 0 => 0
  | _ => S (Nat.log2 x)
  end.

Definition nextPowerOfTwo (length : nat) : Z := 2 ^ Z.of_nat (bits_Len length).

(** [for i := 0; i < 3; i++ { ... }], with [n = 3 - i]. *)
Fixpoint breakPatterns_loop (n : nat) (data : list A) (a length idx i : nat)
    (random modulus : Z) : list A :=
  match n with
  | 0 => data
  | S n =>
      let random := xorshift_Next random in
      let other := Z.to_nat (Z.land random (modulus - 1)) in
      let other := if length <=? other then other - length else other in
      breakPatterns_loop n (Swap data (idx - 1 + i) (a + other)) a length idx (S i)
        random modulus
  end.

Definition breakPatterns_func (data : list A) (a b : nat) : list A :=
  let length := b - a in
  if 8 <=? length then
    let random := Z.of_nat length in
    let modulus := nextPowerOfTwo length in
    let idx := a + (length / 4) * 2 - 1 in
    breakPatterns_loop 3 data a length idx 0 random modulus
  else data.

Inductive sortedHint := unknownHint | increasingHint | decreasingHint.

(** [order2_func]: the two positions in order, and the swap counter. *)
Definition order2_func (data : list A) (a b swaps : nat) : nat * nat * nat :=
  if Less data b a then (b, a, S swaps) else (a, b, swaps).

Definition median_func (data : list A) (a b c swaps : nat) : nat * nat :=
  let '(a, b, swaps) := order2_func data a b swaps in
  let '(b, c, swaps) := order2_func data b c swaps in
  let '(a, b, swaps) := order2_func data a b swaps in
  (b, swaps).

Definition medianAdjacent_func (data : list A) (a swaps : nat) : nat * nat :=
  median_func data (a - 1) a (a + 1) swaps.

Definition shortestNinther : nat := 50.
Definition maxSwaps : nat := 4 * 3.

Definition choosePivot_func (data : list A) (a b : nat) : nat * sortedHint :=
  let l := b - a in
  let swaps := 0 in
  let i := a + l / 4 * 1 in
  let j := a + l / 4 * 2 in
  let k := a + l / 4 * 3 in
  let '(j, swaps) :=
    if 8 <=? l then
      let '(i, j, k, swaps) :=
        if shortestNinther <=? l then
          let '(i, swaps) := medianAdjacent_func data i swaps in
          let '(j, swaps) := medianAdjacent_func data j swaps in
          let '(k, swaps) := medianAdjacent_func data k swaps in
          (i, j, k, swaps)
        else (i, j, k, swaps) in
      median_func data i j k swaps
    else (j, swaps) in
  if swaps =? 0 then (j, increasingHint)
  else if swaps =? maxSwaps then (j, decreasingHint)
  else (j, unknownHint).

(** [for i < j { data.Swap(i, j); i++; j-- }], with [n] the number of
    rounds. *)
Fixpoint reverseRange_loop (n : nat) (data : list A) (i j : nat) : list A :=
  match n with
  | 0 => data
  | S n => reverseRange_loop n (Swap data i j) (S i) (j - 1)
  end.

Definition reverseRange_func (data : list A) (a b : nat) : list A :=
  reverseRange_loop ((b - a) / 2) data a (b - 1).

Definition maxInsertion : nat := 12.

(** [pdqsort_func(data, a, b, limit)].  One unit of fuel is spent per round
    of its [for] loop and per recursive call; [wasBalanced] and
    [wasPartitioned] are the loop's two flags, [true] when a call starts. *)
Fixpoint pdqsort_func (fuel : nat) (data : list A) (a b limit : nat)
    (wasBalanced wasPartitioned : bool) : option (list A) :=
  match fuel with
  | 0 => None
  | S fuel =>
      let length := b - a in
      if length <=? maxInsertion then Some (insertionSort_func data a b) else
      if limit =? 0 then heapSort_func data a b else
      let '(data, limit) :=
        if negb wasBalanced then (breakPatterns_func data a b, limit - 1)
        else (data, limit) in
      let '(pivot, hint) := choosePivot_func data a b in
      let '(data, pivot, hint) :=
        match hint with
        | decreasingHint =>
            (reverseRange_func data a b, (b - 1) - (pivot - a), increasingHint)
        | _ => (data, pivot, hint)
        end in
      let '(sorted, data) :=
        match hint with
        | increasingHint =>
            if wasBalanced && wasPartitioned
            then partialInsertionSort_func data a b else (false, data)
        | _ => (false, data)
        end in
      if sorted then Some data else
      if (0 <? a) && negb (Less data (a - 1) pivot) then
        '(mid, data) ← partitionEqual_func data a b pivot;
        pdqsort_func fuel data mid b limit wasBalanced wasPartitioned
      else
        '(mid, alreadyPartitioned, data) ← partition_func data a b pivot;
        let wasPartitioned := alreadyPartitioned in
        let leftLen := mid - a in
        let rightLen := b - mid in
        let balanceThreshold := length / 8 in
        if leftLen <? rightLen then
          let wasBalanced := balanceThreshold <=? leftLen in
          data ← pdqsort_func fuel data a mid limit true true;
          pdqsort_func fuel data (mid + 1) b limit wasBalanced wasPartitioned
        else
          let wasBalanced := balanceThreshold <=? rightLen in
          data ← pdqsort_func fuel data (mid + 1) b limit true true;
          pdqsort_func fuel data a mid limit wasBalanced wasPartitioned
  end.

(** [sort.Slice(x, less)] as a run that may in principle give out. *)
Definition sort_Slice_run (x : list A) : option (list A) :=
  let length := length x in
  let limit := bits_Len length in
  pdqsort_func (S length) x 0 length limit true true.

(** [sort.Slice(x, less)]: the slice's contents afterwards. *)
Definition sort_Slice (x : list A) : list A := default x (sort_Slice_run x).

End SortSlice.

(** A first look: thirteen (key, tag) pairs ordered by key. *)
Definition tagged_less (x y : Z * Z) : bool := (x.1 <? y.1)%Z.

(** ** Collecting one process (pstree.go, process_functions.go) *)

(** What a call that returns [(value, err)] gave: the value when [err] is
    nil, and nothing else otherwise (the program never reads the value then). *)
Inductive result (A : Type) : Type :=
| Ok (value : A)
| Err.
Arguments Ok {A} value.
Arguments Err {A}.

Definition failed {A} (r : result A) : bool :=
  match r with
  | Ok _ => false
  | Err => true
  end.

(** [if err != nil { x = sentinel } else { x = out }]. *)
Definition or_sentinel {A} (sentinel : A) (r : result A) : A :=
  match r with
  | Ok out => out
  | Err => sentinel
  end.

(** A gopsutil process handle, as the answers the operating system gives to
    the calls made on it while one [Process] record is built, with the
    reading of the clock taken for that record. *)
Module OSProcess.
Record t := mk {
  Pid : Z;                                   (* int32 *)
  CmdlineSlice : result (list string);
  Exe : result string;
  Name : result string;
  Ppid : result Z;                           (* int32 *)
  CPUPercent : result float;
  CreateTime : result Z;                     (* int64, milliseconds *)
  Gids : result (list Z);
  Groups : result (list Z);
  MemoryInfo : result MemoryInfoStat;
  MemoryInfoEx : result MemoryInfoExStat;
  MemoryPercent : result float;
  NumCtxSwitches : result NumCtxSwitchesStat;
  NumThreads : result Z;                     (* int32 *)
  Getpgid : result Z;                        (* syscall.Getpgid, int *)
  Username : result string;
  Uids : result (list Z);
  UnixTimestamp : Z;                         (* util.GetUnixTimestamp() *)
}.
End OSProcess.

Abbreviation OSProcess := OSProcess.t.

(** The fetch functions of process_functions.go. *)
Module ProcessFunctions.

Definition ProcessArgs (proc : OSProcess) : result (list string) :=
  OSProcess.CmdlineSlice proc.

(** The executable path, else the first word of the command line, else the
    process name, else ["[PID n]"]: it never reports an error. *)
Definition ProcessCommandName (proc : OSProcess) : result string :=
  match OSProcess.Exe proc with
  | Ok (String c exe) => Ok (String c exe)
  | _ =>
      match OSProcess.CmdlineSlice proc with
      | Ok (first :: _) => Ok first
      | _ =>
          match OSProcess.Name proc with
          | Ok (String c name) => Ok (String c name)
          | _ => Ok ("[PID " +:+ pretty (OSProcess.Pid proc) +:+ "]")
          end
      end
  end.

Definition ProcessCpuPercent (proc : OSProcess) : result float :=
  OSProcess.CPUPercent proc.

(** [return createTime / 1000, err]: milliseconds to seconds, rounding
    towards zero. *)
Definition ProcessCreateTime (proc : OSProcess) : result Z :=
  match OSProcess.CreateTime proc with
  | Ok createTime => Ok (createTime ÷ 1000)
  | Err => Err
  end.

Definition ProcessGIDs (proc : OSProcess) : result (list Z) := OSProcess.Gids proc.
Definition ProcessGroups (proc : OSProcess) : result (list Z) := OSProcess.Groups proc.
Definition ProcessMemoryInfo (proc : OSProcess) : result MemoryInfoStat :=
  OSProcess.MemoryInfo proc.
Definition ProcessMemoryInfoEx (proc : OSProcess) : result MemoryInfoExStat :=
  OSProcess.MemoryInfoEx proc.
Definition ProcessMemoryPercent (proc : OSProcess) : result float :=
  OSProcess.MemoryPercent proc.
Definition ProcessNumCtxSwitches (proc : OSProcess) : result NumCtxSwitchesStat :=
  OSProcess.NumCtxSwitches proc.
Definition ProcessNumThreads (proc : OSProcess) : result Z := OSProcess.NumThreads proc.
Definition ProcessPGID (proc : OSProcess) : result Z := OSProcess.Getpgid proc.
Definition ProcessPPID (proc : OSProcess) : result Z := OSProcess.Ppid proc.
Definition ProcessUsername (proc : OSProcess) : result string := OSProcess.Username proc.
Definition ProcessUIDs (proc : OSProcess) : result (list Z) := OSProcess.Uids proc.

End ProcessFunctions.

Definition eqb_string (s1 s2 : string) : bool := bool_decide (s1 = s2).

(** Lines 481-489: drop the first argument when it repeats the command. *)
Definition strip_command (args : list string) (command : string) : list string :=
  match args with
  | [] => args
  | first :: rest => if eqb_string first command then rest else args
  end.

Section Collect.

(** [util.RoundFloat] is not among the repository files at hand; it is
    taken as given. *)
Variable RoundFloat : float → Z → float.

(** [GenerateProcess(proc, miniOptions)].  Every fetch is started and
    awaited before the next one begins, so the goroutines run one after the
    other. *)
Definition GenerateProcess (proc : OSProcess) (miniOptions : DisplayOptions) : Process :=
  let pid := OSProcess.Pid proc in
  let args := or_sentinel [] (ProcessFunctions.ProcessArgs proc) in
  let command := or_sentinel "?"%string (ProcessFunctions.ProcessCommandName proc) in
  let ppid := or_sentinel (-1) (ProcessFunctions.ProcessPPID proc) in
  let cpuPercent :=
    if ShowCpuPercent miniOptions || eqb_string (OrderBy miniOptions) "cpu"
       || eqb_string (ColorAttr miniOptions) "cpu"
    then or_sentinel (-1)%float (ProcessFunctions.ProcessCpuPercent proc) else 0%float in
  let createTime :=
    if ShowProcessAge miniOptions || eqb_string (OrderBy miniOptions) "age"
       || eqb_string (ColorAttr miniOptions) "age"
    then or_sentinel (-1) (ProcessFunctions.ProcessCreateTime proc) else 0 in
  let gids := or_sentinel [] (ProcessFunctions.ProcessGIDs proc) in
  let groups := or_sentinel [] (ProcessFunctions.ProcessGroups proc) in
  let '(memoryInfo, memoryInfoEx, memoryPercent) :=
    if ShowMemoryUsage miniOptions || eqb_string (OrderBy miniOptions) "mem"
       || eqb_string (ColorAttr miniOptions) "mem"
    then (Some (or_sentinel MemoryInfoStat.zero (ProcessFunctions.ProcessMemoryInfo proc)),
          Some (or_sentinel MemoryInfoExStat.zero (ProcessFunctions.ProcessMemoryInfoEx proc)),
          or_sentinel (-1)%float (ProcessFunctions.ProcessMemoryPercent proc))
    else (None, None, 0%float) in
  let numContextSwitches :=
    Some (or_sentinel NumCtxSwitchesStat.zero (ProcessFunctions.ProcessNumCtxSwitches proc)) in
  let numThreads :=
    if ShowNumThreads miniOptions || eqb_string (OrderBy miniOptions) "threads"
    then or_sentinel (-1) (ProcessFunctions.ProcessNumThreads proc) else 0 in
  let pgid :=
    if ShowPGIDs miniOptions || ShowPGLs miniOptions
    then or_sentinel (-1) (ProcessFunctions.ProcessPGID proc) else 0 in
  let username :=
    if ShowOwner miniOptions || ShowUserTransitions miniOptions
       || eqb_string (OrderBy miniOptions) "user"
    then or_sentinel "?"%string (ProcessFunctions.ProcessUsername proc) else EmptyString in
  let uids :=
    if ShowUIDTransitions miniOptions || ShowUserTransitions miniOptions
    then or_sentinel [] (ProcessFunctions.ProcessUIDs proc) else [] in
  let args := strip_command args command in
  {| Process.Age := wrap_int64 (OSProcess.UnixTimestamp proc - createTime);
     Process.Args := args;
     Process.Child := -1;
     Process.Command := command;
     Process.CPUPercent := RoundFloat cpuPercent 2;
     Process.CreateTime := createTime;
     Process.GIDs := gids;
     Process.Groups := groups;
     Process.MemoryInfo := memoryInfo;
     Process.MemoryInfoEx := memoryInfoEx;
     Process.MemoryPercent := memoryPercent;
     Process.NumContextSwitches := numContextSwitches;
     Process.NumThreads := numThreads;
     Process.Parent := -1;
     Process.PGID := wrap_int32 pgid;
     Process.PID := pid;
     Process.PPID := ppid;
     Process.Signature := EmptyString;
     Process.Sister := -1;
     Process.UIDs := uids;
     Process.Username := username |}.

(** [SortByPid] on the process handles. *)
Definition SortByPid (procs : list OSProcess) : list OSProcess :=
  sort_Slice (λ pi pj, OSProcess.Pid pi <? OSProcess.Pid pj) procs.

(** [GetProcesses(&processes, miniOptions)] on an empty slice; [None] when
    [process.Processes()] fails and [log.Fatalf] ends the program. *)
Definition GetProcesses (unsorted : result (list OSProcess)) (miniOptions : DisplayOptions)
  : option (list Process) :=
  match unsorted with
  | Err => None
  | Ok unsorted =>
      Some ((λ p, GenerateProcess p miniOptions) <$> SortByPid unsorted)
  end.

End Collect.

(** The attributes [GenerateProcess] fetches. *)
Inductive Attribute :=
| AttrArgs | AttrCommand | AttrPPID | AttrCpuPercent | AttrCreateTime | AttrGIDs
| AttrGroups | AttrMemoryInfo | AttrMemoryInfoEx | AttrMemoryPercent
| AttrNumContextSwitches | AttrNumThreads | AttrPGID | AttrUsername | AttrUIDs.

(** Whether [GenerateProcess] fetches the attribute under these options. *)
Definition fetched (miniOptions : DisplayOptions) (a : Attribute) : bool :=
  match a with
  | AttrCpuPercent =>
      ShowCpuPercent miniOptions || eqb_string (OrderBy miniOptions) "cpu"
      || eqb_string (ColorAttr miniOptions) "cpu"
  | AttrCreateTime =>
      ShowProcessAge miniOptions || eqb_string (OrderBy miniOptions) "age"
      || eqb_string (ColorAttr miniOptions) "age"
  | AttrMemoryInfo | AttrMemoryInfoEx | AttrMemoryPercent =>
      ShowMemoryUsage miniOptions || eqb_string (OrderBy miniOptions) "mem"
      || eqb_string (ColorAttr miniOptions) "mem"
  | AttrNumThreads =>
      ShowNumThreads miniOptions || eqb_string (OrderBy miniOptions) "threads"
  | AttrPGID => ShowPGIDs miniOptions || ShowPGLs miniOptions
  | AttrUsername =>
      ShowOwner miniOptions || ShowUserTransitions miniOptions
      || eqb_string (OrderBy miniOptions) "user"
  | AttrUIDs => ShowUIDTransitions miniOptions || ShowUserTransitions miniOptions
  | _ => true
  end.

(** Whether the attribute's fetch reports an error on this process. *)
Definition fetch_failed (proc : OSProcess) (a : Attribute) : bool :=
  match a with
  | AttrArgs => failed (ProcessFunctions.ProcessArgs proc)
  | AttrCommand => failed (ProcessFunctions.ProcessCommandName proc)
  | AttrPPID => failed (ProcessFunctions.ProcessPPID proc)
  | AttrCpuPercent => failed (ProcessFunctions.ProcessCpuPercent proc)
  | AttrCreateTime => failed (ProcessFunctions.ProcessCreateTime proc)
  | AttrGIDs => failed (ProcessFunctions.ProcessGIDs proc)
  | AttrGroups => failed (ProcessFunctions.ProcessGroups proc)
  | AttrMemoryInfo => failed (ProcessFunctions.ProcessMemoryInfo proc)
  | AttrMemoryInfoEx => failed (ProcessFunctions.ProcessMemoryInfoEx proc)
  | AttrMemoryPercent => failed (ProcessFunctions.ProcessMemoryPercent proc)
  | AttrNumContextSwitches => failed (ProcessFunctions.ProcessNumCtxSwitches proc)
  | AttrNumThreads => failed (ProcessFunctions.ProcessNumThreads proc)
  | AttrPGID => failed (ProcessFunctions.ProcessPGID proc)
  | AttrUsername => failed (ProcessFunctions.ProcessUsername proc)
  | AttrUIDs => failed (ProcessFunctions.ProcessUIDs proc)
  end.

(** The record holds the attribute's sentinel. *)
Definition holds_sentinel (RoundFloat : float → Z → float) (p : Process) (a : Attribute)
  : Prop :=
  match a with
  | AttrArgs => Process.Args p = []
  | AttrCommand => Process.Command p = "?"%string
  | AttrPPID => Process.PPID p = -1
  | AttrCpuPercent => Process.CPUPercent p = RoundFloat (-1)%float 2
  | AttrCreateTime => Process.CreateTime p = -1
  | AttrGIDs => Process.GIDs p = []
  | AttrGroups => Process.Groups p = []
  | AttrMemoryInfo => Process.MemoryInfo p = Some MemoryInfoStat.zero
  | AttrMemoryInfoEx => Process.MemoryInfoEx p = Some MemoryInfoExStat.zero
  | AttrMemoryPercent => Process.MemoryPercent p = (-1)%float
  | AttrNumContextSwitches => Process.NumContextSwitches p = Some NumCtxSwitchesStat.zero
  | AttrNumThreads => Process.NumThreads p = -1
  | AttrPGID => Process.PGID p = -1
  | AttrUsername => Process.Username p = "?"%string
  | AttrUIDs => Process.UIDs p = []
  end.

(** The record holds what the attribute's own fetch returned. *)
Definition holds_fetched (RoundFloat : float → Z → float) (proc : OSProcess)
    (p : Process) (a : Attribute) : Prop :=
  match a with
  | AttrArgs =>
      ∃ out, ProcessFunctions.ProcessArgs proc = Ok out
             ∧ Process.Args p = strip_command out (Process.Command p)
  | AttrCommand => ProcessFunctions.ProcessCommandName proc = Ok (Process.Command p)
  | AttrPPID => ProcessFunctions.ProcessPPID proc = Ok (Process.PPID p)
  | AttrCpuPercent =>
      ∃ out, ProcessFunctions.ProcessCpuPercent proc = Ok out ∧ Process.CPUPercent p = RoundFloat out 2
  | AttrCreateTime => ProcessFunctions.ProcessCreateTime proc = Ok (Process.CreateTime p)
  | AttrGIDs => ProcessFunctions.ProcessGIDs proc = Ok (Process.GIDs p)
  | AttrGroups => ProcessFunctions.ProcessGroups proc = Ok (Process.Groups p)
  | AttrMemoryInfo => Ok <$> Process.MemoryInfo p = Some (ProcessFunctions.ProcessMemoryInfo proc)
  | AttrMemoryInfoEx => Ok <$> Process.MemoryInfoEx p = Some (ProcessFunctions.ProcessMemoryInfoEx proc)
  | AttrMemoryPercent => ProcessFunctions.ProcessMemoryPercent proc = Ok (Process.MemoryPercent p)
  | AttrNumContextSwitches =>
      Ok <$> Process.NumContextSwitches p = Some (ProcessFunctions.ProcessNumCtxSwitches proc)
  | AttrNumThreads => ProcessFunctions.ProcessNumThreads proc = Ok (Process.NumThreads p)
  | AttrPGID =>
      ∃ out, ProcessFunctions.ProcessPGID proc = Ok out ∧ Process.PGID p = wrap_int32 out
  | AttrUsername => ProcessFunctions.ProcessUsername proc = Ok (Process.Username p)
  | AttrUIDs => ProcessFunctions.ProcessUIDs proc = Ok (Process.UIDs p)
  end.

(** The record holds the zero value of the attribute's field. *)
Definition holds_zero (RoundFloat : float → Z → float) (p : Process) (a : Attribute)
  : Prop :=
  match a with
  | AttrCpuPercent => Process.CPUPercent p = RoundFloat 0%float 2
  | AttrCreateTime => Process.CreateTime p = 0
  | AttrMemoryInfo => Process.MemoryInfo p = None
  | AttrMemoryInfoEx => Process.MemoryInfoEx p = None
  | AttrMemoryPercent => Process.MemoryPercent p = 0%float
  | AttrNumThreads => Process.NumThreads p = 0
  | AttrPGID => Process.PGID p = 0
  | AttrUsername => Process.Username p = EmptyString
  | AttrUIDs => Process.UIDs p = []
  | _ => True
  end.

(** ** Ordering the process list (pstree.go) *)

(** [GetProcessByPid(&processes, pid)]: the first process with that PID. *)
Fixpoint GetProcessByPid (processes : list Process) (pid : Z) : result Process :=
  match processes with
  | [] => Err
  | proc :: rest =>
      if Process.PID proc =? pid then Ok proc else GetProcessByPid rest pid
  end.

Definition less_Age (pi pj : Process) : bool := Process.Age pi <? Process.Age pj.
Definition less_Cpu (pi pj : Process) : bool :=
  PrimFloat.ltb (Process.CPUPercent pi) (Process.CPUPercent pj).
Definition less_Username (pi pj : Process) : bool :=
  String.ltb (Process.Username pi) (Process.Username pj).
Definition less_Pid (pi pj : Process) : bool := Process.PID pi <? Process.PID pj.
Definition less_NumThreads (pi pj : Process) : bool :=
  Process.NumThreads pi <? Process.NumThreads pj.

(** [float64(x)] for a [uint64] [x], as the integer the resulting float
    stands for: [x] itself below 2^53, and above that [x] rounded to 53
    significant bits, ties to even. *)
Definition float64_of_uint64 (x : Z) : Z :=
  if x <? 2 ^ 53 then x else
  let e := Z.log2 x - 52 in
  let q := Z.shiftr x e in
  let r := Z.land x (Z.ones e) in
  let half := 2 ^ (e - 1) in
  let q := if (half <? r) || ((r =? half) && Z.odd q) then q + 1 else q in
  Z.shiftl q e.

Definition less_Memory (pi pj : Process) : bool :=
  float64_of_uint64 (rss_of pi) <? float64_of_uint64 (rss_of pj).

Definition SortProcsByAge (processes : list Process) : list Process :=
  sort_Slice less_Age processes.
Definition SortProcsByCpu (processes : list Process) : list Process :=
  sort_Slice less_Cpu processes.
Definition SortProcsByUsername (processes : list Process) : list Process :=
  sort_Slice less_Username processes.
Definition SortProcsByPid (processes : list Process) : list Process :=
  sort_Slice less_Pid processes.
Definition SortProcsByNumThreads (processes : list Process) : list Process :=
  sort_Slice less_NumThreads processes.

(** [SortProcsByMemory] reads [RSS] through the [MemoryInfo] pointer of both
    processes it compares.  A slice of two or more has every element
    compared, so the call panics ([None]) as soon as one pointer is nil. *)
Definition SortProcsByMemory (processes : list Process) : option (list Process) :=
  if decide (length processes ≤ 1)%nat then Some processes
  else if forallb (λ p, bool_decide (is_Some (Process.MemoryInfo p))) processes
       then Some (sort_Slice less_Memory processes)
       else None.

(** ** The run command (root.go) *)

(** The flag variables as the command line parser leaves them, with what
    [cmd.Flags().Changed] answers for the two flags it is asked about. *)
Record Flags := mkFlags {
  flagAge : bool;
  flagArguments : bool;
  flagColor : bool;
  flagColorAttr : string;
  flagColorScheme : string;
  flagCompactNot : bool;
  flagContains : string;
  flagCpu : bool;
  flagExcludeRoot : bool;
  flagIBM850 : bool;
  flagLevel : Z;
  flagMemory : bool;
  flagOrderBy : string;
  flagPid : Z;
  flagRainbow : bool;
  flagShowAll : bool;
  flagShowOwner : bool;
  flagShowPGIDs : bool;
  flagShowPGLs : bool;
  flagShowPIDs : bool;
  flagShowPPIDs : bool;
  flagShowUIDTransitions : bool;
  flagShowUserTransitions : bool;
  flagThreads : bool;
  flagUsername : list string;
  flagUTF8 : bool;
  flagVersion : bool;
  flagVT100 : bool;
  flagWide : bool;
  changedUser : bool;
  changedLevel : bool;
}.

(** What the run command obtains from outside the files at hand. *)
Record Env := mkEnv {
  colorCount : Z;                     (* util.HasColorSupport() *)
  colorSupport : bool;
  totalMemory : option Z;             (* util.GetTotalMemory(); nil when it failed *)
  (* Lines 206-218 rewrite flagUsername with util.UserExists and
     util.DeleteSliceElement; [None] when that panics. *)
  existingUsers : list string → option (list string);
  screenWidth : Z;                    (* util.GetScreenWidth() *)
  RoundFloat : float → Z → float;     (* util.RoundFloat *)
  systemProcesses : result (list OSProcess);   (* process.Processes() *)
}.

(** How a run of the command ends, up to the point where it hands the
    process list and the display options to [pstree.NewProcessTree]. *)
Inductive Outcome :=
| ReturnError (message : string)
| ExitProgram (status : Z)
| Panic
| BuildTree (processes : list Process) (displayOptions : DisplayOptions).

Definition validAttributes : list string := ["age"; "cpu"; "mem"]%string.
Definition validColorSchemes : list string :=
  ["darwin"; "linux"; "powershell"; "windows10"; "xterm"]%string.
Definition validOrderBy : list string :=
  ["age"; "cpu"; "mem"; "pid"; "threads"; "user"]%string.

(** [util.BtoI] and [util.StoI] are not among the files at hand; rule 2's
    comment ("only one of ... can be used") fixes what they count: a set
    flag and a non-empty string count 1, the others 0. *)
Definition BtoI (b : bool) : Z := if b then 1 else 0.
Definition StoI (s : string) : Z := if eqb_string s EmptyString then 0 else 1.

Definition slices_Contains (l : list string) (s : string) : bool :=
  bool_decide (s ∈ l).

Definition strings_Join (l : list string) (sep : string) : string := String.concat sep l.

(** Lines 252-291 of [pstreeRunCmd]: the order-by block.  The result is the
    new process list with the flags the block sets. *)
Inductive Ordered :=
| OrderError (message : string)
| OrderPanic
| OrderDone (processes : list Process) (age cpu memory pids threads owner : bool).

Definition order_block (orderBy : string) (processes : list Process)
    (flagAge flagCpu flagMemory flagShowPIDs flagThreads flagShowOwner : bool) : Ordered :=
  if eqb_string orderBy EmptyString
  then OrderDone processes flagAge flagCpu flagMemory flagShowPIDs flagThreads flagShowOwner
  else
  if negb (slices_Contains validOrderBy orderBy)
  then OrderError ("valid options for --order-by are: "
                   +:+ strings_Join validOrderBy ", ")
  else
  match GetProcessByPid processes 1 with
  | Err => OrderPanic
  | Ok proc =>
      let sorted := [proc] in
      let after (processes : list Process) (sorted : list Process) : list Process :=
        sorted ++ filter (λ proc, Process.PID proc ≠ 1) processes in
      if eqb_string orderBy "age" then
        let processes := SortProcsByAge processes in
        OrderDone (after processes sorted) true flagCpu flagMemory flagShowPIDs
          flagThreads flagShowOwner
      else if eqb_string orderBy "cpu" then
        let processes := SortProcsByCpu processes in
        OrderDone (after processes sorted) flagAge true flagMemory flagShowPIDs
          flagThreads flagShowOwner
      else if eqb_string orderBy "mem" then
        match SortProcsByMemory processes with
        | None => OrderPanic
        | Some processes =>
            OrderDone (after processes sorted) flagAge flagCpu true flagShowPIDs
              flagThreads flagShowOwner
        end
      else if eqb_string orderBy "pid" then
        let processes := SortProcsByPid processes in
        OrderDone (after processes sorted) flagAge flagCpu flagMemory true
          flagThreads flagShowOwner
      else if eqb_string orderBy "threads" then
        let processes := SortProcsByNumThreads processes in
        OrderDone (after processes sorted) flagAge flagCpu flagMemory flagShowPIDs
          true flagShowOwner
      else if eqb_string orderBy "user" then
        let processes := SortProcsByUsername processes in
        OrderDone (after processes sorted) flagAge flagCpu flagMemory flagShowPIDs
          flagThreads true
      else
        let sorted := processes in
        OrderDone (after processes sorted) flagAge flagCpu flagMemory flagShowPIDs
          flagThreads flagShowOwner
  end.

(** [pstreeRunCmd], from the flag rules to the call of
    [pstree.NewProcessTree]. *)
Definition pstreeRunCmd (env : Env) (f : Flags) : Outcome :=
  (* Rule 1 *)
  if changedUser f && flagExcludeRoot f
  then ReturnError "--user and --exclude-root cannot be used together" else
  (* Rule 2 *)
  if 1 <? BtoI (flagColor f) + BtoI (flagRainbow f) + StoI (flagColorAttr f)
  then ReturnError "only one of --color-attr, --color, and --rainbow can be used" else
  (* Rule 3 *)
  if 1 <? BtoI (flagIBM850 f) + BtoI (flagUTF8 f) + BtoI (flagVT100 f)
  then ReturnError "only one of --ibm-850, --utf-8, and --vt-100 can be used" else
  (* Rule 4 *)
  if negb (eqb_string (flagColorAttr f) EmptyString)
     && negb (slices_Contains validAttributes (flagColorAttr f))
  then ReturnError ("valid options for --color-attr are: "
                    +:+ strings_Join validAttributes ", ") else
  (* Rule 5 *)
  if 1 <? BtoI (flagShowUIDTransitions f) + BtoI (flagShowUserTransitions f)
  then ReturnError "only one of --uid-transitions and --user-transitions can be used" else
  (* Rule 6 *)
  if changedLevel f && (flagLevel f <? 1)
  then ReturnError "--level cannot be set to less than 1" else
  (* Rule 7 *)
  if negb (eqb_string (flagColorScheme f) EmptyString)
     && negb (slices_Contains validColorSchemes (flagColorScheme f))
  then ReturnError ("valid options for --color-scheme are: "
                    +:+ strings_Join validColorSchemes ", ") else
  (* Rule 8 *)
  if negb (eqb_string (flagColorScheme f) EmptyString)
     && (negb (eqb_string (flagColorAttr f) EmptyString) || flagRainbow f)
  then ReturnError "--color-scheme cannot be used with --color-attr or --rainbow" else
  if flagVersion f then ExitProgram 0 else
  match existingUsers env (flagUsername f) with
  | None => Panic
  | Some flagUsername =>
  let all := flagShowAll f in
  let flagAge := flagAge f || all in
  let flagArguments := flagArguments f || all in
  let flagCpu := flagCpu f || all in
  let flagMemory := flagMemory f || all in
  let flagShowOwner := flagShowOwner f || all in
  let flagShowPGLs := flagShowPGLs f || all in
  let flagShowPIDs := flagShowPIDs f || all in
  let flagShowPPIDs := flagShowPPIDs f || all in
  let flagThreads := flagThreads f || all in
  let miniOptions :=
    {| ColorAttr := flagColorAttr f; ColorCount := 0; ColorizeOutput := false;
       ColorScheme := EmptyString; ColorSupport := false; CompactMode := false;
       Contains := EmptyString; ExcludeRoot := false; IBM850Graphics := false;
       InstalledMemory := 0; MaxDepth := 0; OrderBy := flagOrderBy f;
       RainbowOutput := false; RootPID := 0; ScreenWidth := 0;
       ShowArguments := flagArguments; ShowCpuPercent := flagCpu;
       ShowMemoryUsage := flagMemory; ShowNumThreads := flagThreads;
       ShowOwner := flagShowOwner; ShowPGIDs := flagShowPGIDs f;
       ShowPGLs := flagShowPGLs; ShowPIDs := false; ShowPPIDs := false;
       ShowProcessAge := flagAge; ShowUIDTransitions := flagShowUIDTransitions f;
       ShowUserTransitions := flagShowUserTransitions f; Usernames := flagUsername;
       UTF8Graphics := false; VT100Graphics := false; WideDisplay := false |} in
  match GetProcesses (RoundFloat env) (systemProcesses env) miniOptions with
  | None => ExitProgram 1
  | Some processes =>
  match order_block (flagOrderBy f) processes flagAge flagCpu flagMemory flagShowPIDs
          flagThreads flagShowOwner with
  | OrderError message => ReturnError message
  | OrderPanic => Panic
  | OrderDone processes flagAge flagCpu flagMemory flagShowPIDs flagThreads flagShowOwner =>
  let flagColor :=
    if negb (eqb_string (flagColorScheme f) EmptyString) then true else flagColor f in
  let flagLevel := if flagLevel f =? 0 then 999 else flagLevel f in
  let flagCompactNot :=
    if negb (eqb_string (flagColorAttr f) EmptyString)
       || negb (eqb_string (flagContains f) EmptyString)
    then true else flagCompactNot f in
  match totalMemory env with
  | None => Panic
  | Some total =>
  BuildTree processes
    {| ColorAttr := flagColorAttr f; ColorCount := colorCount env;
       ColorizeOutput := flagColor; ColorScheme := flagColorScheme f;
       ColorSupport := colorSupport env; CompactMode := negb flagCompactNot;
       Contains := flagContains f; ExcludeRoot := flagExcludeRoot f;
       IBM850Graphics := flagIBM850 f; InstalledMemory := total;
       MaxDepth := flagLevel; OrderBy := flagOrderBy f;
       RainbowOutput := flagRainbow f; RootPID := flagPid f;
       ScreenWidth := screenWidth env; ShowArguments := flagArguments;
       ShowCpuPercent := flagCpu; ShowMemoryUsage := flagMemory;
       ShowNumThreads := flagThreads; ShowOwner := flagShowOwner;
       ShowPGIDs := flagShowPGIDs f; ShowPGLs := flagShowPGLs;
       ShowPIDs := flagShowPIDs; ShowPPIDs := flagShowPPIDs;
       ShowProcessAge := flagAge; ShowUIDTransitions := flagShowUIDTransitions f;
       ShowUserTransitions := flagShowUserTransitions f; Usernames := flagUsername;
       UTF8Graphics := flagUTF8 f; VT100Graphics := flagVT100 f;
       WideDisplay := flagWide f |}
  end end end end.

(** ** A sample system *)

Definition sample_os_process (pid ppid : Z) (exe : string) (user : string) : OSProcess :=
  OSProcess.mk pid (Ok [exe]) (Ok exe) (Ok exe) (Ok ppid) (Ok 1.5%float)
    (Ok 1700000000000) (Ok [0]) (Ok [0]) (Ok (MemoryInfoStat.mk 4096 0 0 0 0 0 0))
    (Ok MemoryInfoExStat.zero) (Ok 0.5%float) (Ok NumCtxSwitchesStat.zero) (Ok 2)
    (Ok pid) (Ok user) (Ok [0; 0; 0; 0]) 1700000100.

(** A process whose every fetch fails. *)
Definition unreadable_os_process (pid : Z) : OSProcess :=
  OSProcess.mk pid Err Err Err Err Err Err Err Err Err Err Err Err Err Err Err Err
    1700000100.

Definition sample_env : Env :=
  mkEnv 256 true (Some 17179869184) Some 80 (λ x _, x)
    (Ok [sample_os_process 50 1 "/usr/sbin/sshd" "root";
         sample_os_process 1 0 "/sbin/init" "root";
         sample_os_process 51 50 "/bin/bash" "alice"]).

(** No flag given. *)
Definition no_flags : Flags :=
  mkFlags false false false EmptyString EmptyString false EmptyString false false false
    0 false EmptyString 0 false false false false false false false false false false
    [] false false false false false false.

Definition with_contains (s : string) (f : Flags) : Flags :=
  mkFlags (flagAge f) (flagArguments f) (flagColor f) (flagColorAttr f)
    (flagColorScheme f) (flagCompactNot f) s (flagCpu f) (flagExcludeRoot f)
    (flagIBM850 f) (flagLevel f) (flagMemory f) (flagOrderBy f) (flagPid f)
    (flagRainbow f) (flagShowAll f) (flagShowOwner f) (flagShowPGIDs f)
    (flagShowPGLs f) (flagShowPIDs f) (flagShowPPIDs f) (flagShowUIDTransitions f)
    (flagShowUserTransitions f) (flagThreads f) (flagUsername f) (flagUTF8 f)
    (flagVersion f) (flagVT100 f) (flagWide f) (changedUser f) (changedLevel f).

Definition with_order_by (s : string) (f : Flags) : Flags :=
  mkFlags (flagAge f) (flagArguments f) (flagColor f) (flagColorAttr f)
    (flagColorScheme f) (flagCompactNot f) (flagContains f) (flagCpu f)
    (flagExcludeRoot f) (flagIBM850 f) (flagLevel f) (flagMemory f) s (flagPid f)
    (flagRainbow f) (flagShowAll f) (flagShowOwner f) (flagShowPGIDs f)
    (flagShowPGLs f) (flagShowPIDs f) (flagShowPPIDs f) (flagShowUIDTransitions f)
    (flagShowUserTransitions f) (flagThreads f) (flagUsername f) (flagUTF8 f)
    (flagVersion f) (flagVT100 f) (flagWide f) (changedUser f) (changedLevel f).

Definition with_version (f : Flags) : Flags :=
  mkFlags (flagAge f) (flagArguments f) (flagColor f) (flagColorAttr f)
    (flagColorScheme f) (flagCompactNot f) (flagContains f) (flagCpu f)
    (flagExcludeRoot f) (flagIBM850 f) (flagLevel f) (flagMemory f) (flagOrderBy f)
    (flagPid f) (flagRainbow f) (flagShowAll f) (flagShowOwner f) (flagShowPGIDs f)
    (flagShowPGLs f) (flagShowPIDs f) (flagShowPPIDs f) (flagShowUIDTransitions f)
    (flagShowUserTransitions f) (flagThreads f) (flagUsername f) (flagUTF8 f)
    true (flagVT100 f) (flagWide f) (changedUser f) (changedLevel f).

(** ** Reading the groups back *)

(** [GetProcessCount(processes, pidIndex)] of the earlier compact.go, lines
    139-166: the count and the PIDs of the group the process at [pidIndex]
    is the first member of, and [1] with no PID for every other process.
    [None] when an index is out of range or a pointer is nil. *)
Module SliceCompactRead.

Definition GetProcessCount (processes : list (option Process)) (pg : GroupMap)
    (pidIndex : nat) : option (Z * list Z) :=
  ptr ← processes !! pidIndex;
  node ← ptr;
  let parentPID := Process.PPID node in
  let processOwner := Process.Username node in
  let compositeKey := Process.Signature node in
  let none := Some (1, []) in
  match pg !! parentPID with
  | Some groups =>
      match default ∅ (groups !! compositeKey) !! processOwner with
      | Some group =>
          if decide (ProcessGroup.FirstIndex group = pidIndex) then
            groupPIDs ← mapM (λ i, ptr ← processes !! i; Process.PID <$> ptr)
                             (ProcessGroup.Indices group);
            Some (ProcessGroup.Count group, groupPIDs)
          else none
      | None => none
      end
  | None => none
  end.

End SliceCompactRead.

(** [ShouldSkipProcess(processIndex)] reads the global skip map. *)
Definition ShouldSkipProcess (skipProcesses : SkipMap) (processIndex : nat) : bool :=
  skipped skipProcesses processIndex.

(** The tree as the method [InitCompactMode] leaves it: the method writes
    the groups into [processTree.ProcessGroups]. *)
Definition with_groups (processTree : ProcessTree) (pg : GroupMap) : ProcessTree :=
  mkProcessTree (Nodes processTree) (TreeOptions processTree) pg.

(** ** More sample systems *)

(** A system where no process has PID 1 (a container whose first process
    has another PID, a PID namespace seen from outside). *)
Definition orphan_env : Env :=
  mkEnv 256 true (Some 17179869184) Some 80 (λ x _, x)
    (Ok [sample_os_process 50 7 "/usr/sbin/sshd" "root";
         sample_os_process 51 50 "/bin/bash" "alice"]).

(** [--utf-8] together with, when [b] is set, [--ibm-850]. *)
Definition with_utf8 (f : Flags) (b : bool) : Flags :=
  mkFlags (flagAge f) (flagArguments f) (flagColor f) (flagColorAttr f)
    (flagColorScheme f) (flagCompactNot f) (flagContains f) (flagCpu f)
    (flagExcludeRoot f) b (flagLevel f) (flagMemory f) (flagOrderBy f) (flagPid f)
    (flagRainbow f) (flagShowAll f) (flagShowOwner f) (flagShowPGIDs f)
    (flagShowPGLs f) (flagShowPIDs f) (flagShowPPIDs f) (flagShowUIDTransitions f)
    (flagShowUserTransitions f) (flagThreads f) (flagUsername f) true
    (flagVersion f) (flagVT100 f) (flagWide f) (changedUser f) (changedLevel f).

(** * Compact mode: proofs *)

(** ** Sums over lists and maps *)

Lemma sumZ_app (l1 l2 : list Z) : sumZ (l1 ++ l2) = sumZ l1 + sumZ l2.
Proof. unfold sumZ. induction l1 as [|x l1 IH]; simpl; lia. Qed.

Lemma sumZ_perm (l1 l2 : list Z) : l1 ≡ₚ l2 → sumZ l1 = sumZ l2.
Proof. unfold sumZ. induction 1; simpl; lia. Qed.

Lemma sumZ_bind {A B} (f : A → list B) (g : B → Z) (l : list A) :
  sumZ (g <$> (l ≫= f)) = sumZ ((λ x, sumZ (g <$> f x)) <$> l).
Proof.
  induction l as [|x l IH]; [done|].
  rewrite bind_cons, fmap_app, sumZ_app, IH. done.
Qed.

(** The sum of [f] over the values of a finite map. *)
Definition map_sum `{Countable K} {V} (f : V → Z) (m : gmap K V) : Z :=
  sumZ ((λ kv, f kv.2) <$> map_to_list m).

Lemma map_sum_empty `{Countable K} {V} (f : V → Z) : map_sum f (∅ : gmap K V) = 0.
Proof. unfold map_sum. by rewrite map_to_list_empty. Qed.

Lemma map_sum_insert_fresh `{Countable K} {V} (f : V → Z) (m : gmap K V) k v :
  m !! k = None → map_sum f (<[k:=v]> m) = f v + map_sum f m.
Proof.
  intros Hk. unfold map_sum.
  rewrite (sumZ_perm _ ((λ kv, f kv.2) <$> ((k, v) :: map_to_list m))).
  - done.
  - apply fmap_Permutation. by apply map_to_list_insert.
Qed.

Lemma map_sum_insert `{Countable K} {V} (f : V → Z) (m : gmap K V) k v :
  map_sum f (<[k:=v]> m) = map_sum f m - from_option f 0 (m !! k) + f v.
Proof.
  destruct (m !! k) as [w|] eqn:Hk; simpl.
  - rewrite <- (insert_delete_eq m k v).
    rewrite <- (insert_delete_id m k w Hk) at 2.
    rewrite !map_sum_insert_fresh by apply lookup_delete_eq. lia.
  - rewrite map_sum_insert_fresh by done. lia.
Qed.

Lemma count_under_map_sum (pg : GroupMap) (parent : Z) :
  count_under pg parent
  = map_sum (map_sum ProcessGroup.Count) (default ∅ (pg !! parent)).
Proof.
  unfold count_under, groups_under, map_sum at 1.
  rewrite sumZ_bind. f_equal. apply list_fmap_ext. intros _ [sig byOwner] _.
  simpl. rewrite sumZ_bind. unfold map_sum. f_equal.
  apply list_fmap_ext. intros _ [owner g] _. simpl. unfold sumZ. simpl. lia.
Qed.

(** ** The nested-map update of one loop iteration *)

(** Lines 489-495 and 533 (70-75 and 99 in the slice version): make sure
    the two inner maps exist, then store [g] under (parent, sig, owner). *)
Definition upsert (pg : GroupMap) (p : Z) (s o : string) (g : ProcessGroup) : GroupMap :=
  let pg := match pg !! p with
            | Some _ => pg
            | None => <[p := ∅]> pg
            end in
  let bySig := default ∅ (pg !! p) in
  let pg := match bySig !! s with
            | Some _ => pg
            | None => <[p := <[s := ∅]> bySig]> pg
            end in
  let bySig := default ∅ (pg !! p) in
  let byOwner := default ∅ (bySig !! s) in
  <[p := <[s := <[o := g]> byOwner]> bySig]> pg.

Lemma upsert_found (pg : GroupMap) (p : Z) (s o : string) :
  let pg1 := match pg !! p with
             | Some _ => pg
             | None => <[p := ∅]> pg
             end in
  let bySig1 := default ∅ (pg1 !! p) in
  let pg2 := match bySig1 !! s with
             | Some _ => pg1
             | None => <[p := <[s := ∅]> bySig1]> pg1
             end in
  let bySig2 := default ∅ (pg2 !! p) in
  let byOwner := default ∅ (bySig2 !! s) in
  byOwner !! o = group_at pg p s o.
Proof.
  unfold group_at. destruct (pg !! p) as [bySig|] eqn:Hp; simpl.
  - rewrite Hp. simpl. destruct (bySig !! s) as [byOwner|] eqn:Hs; simpl.
    + rewrite Hp. simpl. by rewrite Hs.
    + rewrite lookup_insert_eq. simpl. rewrite lookup_insert_eq. simpl.
      by rewrite lookup_empty.
  - rewrite lookup_insert_eq. simpl. rewrite lookup_empty.
    rewrite lookup_insert_eq. simpl. rewrite lookup_insert_eq. simpl.
    by rewrite lookup_empty.
Qed.

Lemma group_at_upsert (pg : GroupMap) p s o g p' s' o' :
  group_at (upsert pg p s o g) p' s' o'
  = if decide ((p', s', o') = (p, s, o)) then Some g else group_at pg p' s' o'.
Proof.
  unfold upsert, group_at.
  destruct (decide (p' = p)) as [->|Hp].
  2:{ rewrite decide_False by congruence.
      rewrite lookup_insert_ne by done.
      destruct (pg !! p) as [bySig|] eqn:Ep; simpl; rewrite ?Ep; simpl.
      - destruct (bySig !! s); simpl; by rewrite ?lookup_insert_ne by done.
      - rewrite lookup_insert_eq. simpl. rewrite lookup_empty.
        by rewrite !lookup_insert_ne by done. }
  rewrite lookup_insert_eq. simpl.
  destruct (decide (s' = s)) as [->|Hs].
  2:{ rewrite decide_False by congruence.
      rewrite lookup_insert_ne by done.
      destruct (pg !! p) as [bySig|] eqn:Ep; simpl; rewrite ?Ep; simpl.
      - destruct (bySig !! s) eqn:Es; simpl; rewrite ?Ep; simpl; [done|].
        rewrite lookup_insert_eq. simpl. by rewrite lookup_insert_ne by done.
      - rewrite lookup_insert_eq. simpl. rewrite lookup_empty.
        rewrite lookup_insert_eq. simpl. rewrite lookup_insert_ne by done.
        by rewrite lookup_empty. }
  rewrite lookup_insert_eq. simpl.
  destruct (decide (o' = o)) as [->|Ho].
  { rewrite decide_True by done. by rewrite lookup_insert_eq. }
  rewrite decide_False by congruence.
  rewrite lookup_insert_ne by done.
  apply (upsert_found pg p s o').
Qed.

Lemma count_under_upsert (pg : GroupMap) p s o g p' :
  count_under (upsert pg p s o g) p'
  = count_under pg p'
    + (if decide (p' = p)
       then ProcessGroup.Count g - from_option ProcessGroup.Count 0 (group_at pg p s o)
       else 0).
Proof.
  rewrite !count_under_map_sum.
  rewrite <- (upsert_found pg p s o). unfold upsert.
  destruct (decide (p' = p)) as [->|Hp].
  2:{ rewrite lookup_insert_ne by done.
      destruct (pg !! p) as [bySig|] eqn:Ep; simpl; rewrite ?Ep; simpl.
      - destruct (bySig !! s); simpl; rewrite ?lookup_insert_ne by done; lia.
      - rewrite lookup_insert_eq. simpl. rewrite lookup_empty.
        rewrite !lookup_insert_ne by done. lia. }
  rewrite lookup_insert_eq. simpl.
  rewrite map_sum_insert, map_sum_insert.
  destruct (pg !! p) as [bySig|] eqn:Ep; simpl; rewrite ?Ep; simpl.
  - destruct (bySig !! s) as [byOwner|] eqn:Es; simpl; rewrite ?Ep; simpl.
    + rewrite Es. simpl. lia.
    + rewrite lookup_insert_eq. simpl. rewrite lookup_insert_eq. simpl.
      rewrite map_sum_insert, Es. simpl. rewrite !map_sum_empty, lookup_empty.
      simpl. lia.
  - rewrite lookup_insert_eq. simpl. rewrite lookup_empty.
    rewrite lookup_insert_eq. simpl. rewrite lookup_insert_eq. simpl.
    rewrite map_sum_insert, lookup_empty. simpl.
    rewrite !map_sum_empty, lookup_empty. simpl. lia.
Qed.

(** Keys are unique among the groups stored under one parent, whatever the
    map holds: it is a map. *)
Lemma groups_under_keys_NoDup (pg : GroupMap) (parent : Z) :
  NoDup (groups_under pg parent).*1.
Proof.
  unfold groups_under.
  generalize (default ∅ (pg !! parent)). intros bySig.
  assert (Hnd := NoDup_fst_map_to_list bySig).
  induction (map_to_list bySig) as [|[sig byOwner] l IH]; simpl; [constructor|].
  apply NoDup_cons in Hnd as [Hsig Hnd].
  rewrite fmap_app. apply NoDup_app. split; [|split].
  - assert (Hnd' := NoDup_fst_map_to_list byOwner).
    induction (map_to_list byOwner) as [|[owner g] l' IH']; simpl; [constructor|].
    apply NoDup_cons in Hnd' as [Ho Hnd'].
    apply NoDup_cons. split; [|by apply IH'].
    intros Hin. apply Ho.
    apply list_elem_of_fmap in Hin as [[[s1 o1] g1] [Heq Hin]]. simpl in Heq.
    apply list_elem_of_bind in Hin as [[o2 g2] [Hin Hin2]].
    apply list_elem_of_singleton in Hin. injection Heq as -> ->. injection Hin as -> -> .
    apply list_elem_of_fmap. by exists (o2, g2).
  - intros [s1 o1] Hin1 Hin2. apply Hsig.
    apply list_elem_of_fmap in Hin1 as [[[s2 o2] g2] [Heq Hin1]]. simpl in Heq.
    injection Heq as -> ->.
    apply list_elem_of_bind in Hin1 as [[o3 g3] [Hin1 _]].
    apply list_elem_of_singleton in Hin1. injection Hin1 as -> -> ->.
    apply list_elem_of_fmap in Hin2 as [[[s4 o4] g4] [Heq Hin2]]. simpl in Heq.
    injection Heq as -> ->.
    apply list_elem_of_bind in Hin2 as [[s5 bo5] [Hin2 Hin5]].
    apply list_elem_of_bind in Hin2 as [[o6 g6] [Hin2 _]].
    apply list_elem_of_singleton in Hin2. injection Hin2 as -> -> ->.
    apply list_elem_of_fmap. by exists (s5, bo5).
  - by apply IH.
Qed.

(** The groups listed under a parent are those the map holds under it. *)
Lemma elem_of_groups_under (pg : GroupMap) (parent : Z) sig owner g :
  ((sig, owner), g) ∈ groups_under pg parent ↔ group_at pg parent sig owner = Some g.
Proof.
  unfold groups_under, group_at. split.
  - intros Hin. apply list_elem_of_bind in Hin as ([s byOwner] & Hin & Hs).
    apply list_elem_of_bind in Hin as ([o g'] & Hin & Ho).
    apply list_elem_of_singleton in Hin. injection Hin as -> -> ->.
    apply elem_of_map_to_list in Hs, Ho.
    destruct (pg !! parent) as [bySig|]; simpl in *; [|by rewrite lookup_empty in Hs].
    by rewrite Hs.
  - intros Hg. destruct (pg !! parent) as [bySig|] eqn:Hp; simpl in *; [|done].
    destruct (bySig !! sig) as [byOwner|] eqn:Hs; simpl in Hg; [|done].
    apply list_elem_of_bind. exists (sig, byOwner).
    split; [|by apply elem_of_map_to_list].
    apply list_elem_of_bind. exists (owner, g).
    split; [by apply list_elem_of_singleton|by apply elem_of_map_to_list].
Qed.

(** ** Members of a key *)

Lemma filter_ext_elem {A} (P Q : A → Prop) `{∀ x, Decision (P x)} `{∀ x, Decision (Q x)}
    (l : list A) :
  (∀ x, x ∈ l → P x ↔ Q x) → filter P l = filter Q l.
Proof.
  induction l as [|x l IH]; intros Hext; [done|].
  rewrite !filter_cons.
  destruct (decide (P x)) as [HP|HP], (decide (Q x)) as [HQ|HQ].
  - f_equal. apply IH. intros y Hy. apply Hext. by right.
  - exfalso. apply HQ, Hext; [by left|done].
  - exfalso. apply HP, Hext; [by left|done].
  - apply IH. intros y Hy. apply Hext. by right.
Qed.

Lemma omap_ext_elem {A B} (f g : A → option B) (l : list A) :
  (∀ x, x ∈ l → f x = g x) → omap f l = omap g l.
Proof.
  induction l as [|x l IH]; intros Hext; [done|]. csimpl.
  rewrite (Hext x) by (by left).
  assert (Hl : omap f l = omap g l).
  { apply IH. intros y Hy. apply Hext. by right. }
  by rewrite Hl.
Qed.

Lemma members_snoc (pre : list Process) (n : Process) k :
  members (pre ++ [n]) k
  = members pre k ++ (if decide (key_of n = k) then [length pre] else []).
Proof.
  unfold members. rewrite length_app. simpl.
  rewrite Nat.add_1_r, seq_S, filter_app. simpl. f_equal.
  - apply filter_ext_elem. intros i Hi. apply elem_of_seq in Hi.
    rewrite lookup_app_l by lia. done.
  - rewrite (filter_singleton _ _ []).
    rewrite list_lookup_middle by done. simpl.
    destruct (decide (key_of n = k)) as [->|Hne].
    + by rewrite decide_True.
    + rewrite decide_False; [done|congruence].
Qed.

Lemma matching_snoc (pre : list Process) (n : Process) k :
  matching (pre ++ [n]) k
  = matching pre k ++ (if decide (key_of n = k) then [n] else []).
Proof. unfold matching. by rewrite filter_app. Qed.

Lemma elem_of_members (nodes : list Process) k (i : nat) :
  i ∈ members nodes k ↔ key_of <$> nodes !! i = Some k.
Proof.
  unfold members. rewrite list_elem_of_filter, elem_of_seq.
  split; [tauto|]. intros Hk. split; [done|].
  destruct (nodes !! i) eqn:Hi; [|done].
  apply lookup_lt_Some in Hi. lia.
Qed.

Lemma members_lt (nodes : list Process) k (i : nat) :
  i ∈ members nodes k → (i < length nodes)%nat.
Proof.
  unfold members. rewrite list_elem_of_filter, elem_of_seq. lia.
Qed.

Lemma members_nil k : members [] k = [].
Proof. done. Qed.

(** The index list of a key points at exactly the nodes that carry it. *)
Lemma omap_members (nodes : list Process) k :
  omap (λ i, nodes !! i) (members nodes k) = matching nodes k.
Proof.
  induction nodes as [|n pre IH] using rev_ind; [done|].
  rewrite members_snoc, matching_snoc, omap_app. f_equal.
  - rewrite <- IH. apply omap_ext_elem. intros i Hi.
    apply members_lt in Hi. by rewrite lookup_app_l.
  - destruct (decide (key_of n = k)); [|done]. simpl.
    by rewrite list_lookup_middle.
Qed.

Lemma length_members (nodes : list Process) k :
  length (members nodes k) = length (matching nodes k).
Proof.
  induction nodes as [|n pre IH] using rev_ind; [done|].
  rewrite members_snoc, matching_snoc, !length_app, IH.
  by destruct (decide (key_of n = k)).
Qed.

Lemma is_duplicate_snoc (pre : list Process) (n : Process) (i : nat) :
  is_duplicate (pre ++ [n]) i
  = if decide (i < length pre)%nat then is_duplicate pre i
    else if decide (i = length pre) then bool_decide (members pre (key_of n) ≠ [])
    else false.
Proof.
  unfold is_duplicate.
  destruct (decide (i < length pre)%nat) as [Hlt|Hge].
  - rewrite lookup_app_l by done.
    destruct (pre !! i) as [m|] eqn:Hi; [|done].
    rewrite members_snoc.
    assert (Hin : i ∈ members pre (key_of m)).
    { apply elem_of_members. by rewrite Hi. }
    destruct (members pre (key_of m)) as [|j js]; [by apply elem_of_nil in Hin|].
    done.
  - destruct (decide (i = length pre)) as [->|Hne].
    + rewrite list_lookup_middle by done.
      rewrite members_snoc, decide_True by done.
      destruct (members pre (key_of n)) as [|j js] eqn:Hm; simpl.
      * apply bool_decide_eq_false. intros Hne. by destruct Hne.
      * assert (Hj : j ∈ members pre (key_of n)) by (rewrite Hm; by left).
        apply members_lt in Hj.
        apply bool_decide_eq_true. intros [= ->]. lia.
    + rewrite lookup_ge_None_2; [done|]. rewrite length_app. simpl. lia.
Qed.

(** ** One iteration of the method's loop *)

(** The metric updates when the [MemoryInfo] pointer can be read. *)
Definition aggregate_total (opts : DisplayOptions) (node : Process) (g : ProcessGroup)
  : ProcessGroup :=
  ProcessGroup.mk (ProcessGroup.Count g) (ProcessGroup.FirstIndex g)
    (ProcessGroup.FullPath g) (ProcessGroup.Indices g) (ProcessGroup.Owner g)
    (if ShowProcessAge opts
     then Z.max (ProcessGroup.Age g) (Process.Age node) else ProcessGroup.Age g)
    (if ShowCpuPercent opts
     then PrimFloat.add (ProcessGroup.CPUPercent g) (Process.CPUPercent node)
     else ProcessGroup.CPUPercent g)
    (if ShowMemoryUsage opts
     then wrap_uint64 (ProcessGroup.MemoryUsage g + rss_of node)
     else ProcessGroup.MemoryUsage g)
    (if ShowNumThreads opts
     then wrap_int32 (ProcessGroup.NumThreads g + Process.NumThreads node)
     else ProcessGroup.NumThreads g).

Lemma aggregate_readable opts node g :
  (ShowMemoryUsage opts = true → is_Some (Process.MemoryInfo node)) →
  TreeCompact.aggregate opts node g = Some (aggregate_total opts node g).
Proof.
  intros Hmem. unfold TreeCompact.aggregate, aggregate_total, rss_of.
  destruct g as [c f p ix o a cpu m t]. simpl.
  destruct (ShowMemoryUsage opts) eqn:Em.
  - destruct (Hmem eq_refl) as [mi ->]. simpl.
    by destruct (ShowProcessAge opts), (ShowCpuPercent opts), (ShowNumThreads opts).
  - simpl.
    by destruct (ShowProcessAge opts), (ShowCpuPercent opts), (ShowNumThreads opts).
Qed.

Lemma aggregate_nil_pointer opts node g :
  ShowMemoryUsage opts = true → Process.MemoryInfo node = None →
  TreeCompact.aggregate opts node g = None.
Proof.
  intros Hshow Hnil. unfold TreeCompact.aggregate. by rewrite Hshow, Hnil.
Qed.

Lemma tree_step_upsert opts (i : nat) (node : Process) (pg : GroupMap) (skip : SkipMap) :
  TreeCompact.step opts i node (pg, skip)
  = if skipped skip i then Some (pg, skip) else
    let '(group, skip') :=
      match group_at pg (Process.PPID node) (Process.Signature node)
                     (Process.Username node) with
      | None =>
          (ProcessGroup.mk 1 i EmptyString [i] (Process.Username node)
             0 0%float 0 0, skip)
      | Some group =>
          (ProcessGroup.mk (ProcessGroup.Count group + 1)
             (ProcessGroup.FirstIndex group) (ProcessGroup.FullPath group)
             (ProcessGroup.Indices group ++ [i]) (ProcessGroup.Owner group)
             (ProcessGroup.Age group) (ProcessGroup.CPUPercent group)
             (ProcessGroup.MemoryUsage group) (ProcessGroup.NumThreads group),
           <[i := true]> skip)
      end in
    group ← TreeCompact.aggregate opts node group;
    Some (upsert pg (Process.PPID node) (Process.Signature node)
            (Process.Username node) group, skip').
Proof.
  unfold TreeCompact.step. destruct (skipped skip i); [done|].
  cbv zeta. rewrite upsert_found. reflexivity.
Qed.

Lemma slice_step_upsert (i : nat) (node : Process) (pg : GroupMap) (skip : SkipMap) :
  SliceCompact.step i (Some node) (pg, skip)
  = if skipped skip i then Some (pg, skip) else
    let '(group, skip') :=
      match group_at pg (Process.PPID node) (Process.Signature node)
                     (Process.Username node) with
      | None =>
          (ProcessGroup.mk 1 i EmptyString [i] (Process.Username node)
             0 0%float 0 0, skip)
      | Some group =>
          (ProcessGroup.mk (ProcessGroup.Count group + 1)
             (ProcessGroup.FirstIndex group) (ProcessGroup.FullPath group)
             (ProcessGroup.Indices group ++ [i]) (ProcessGroup.Owner group)
             (ProcessGroup.Age group) (ProcessGroup.CPUPercent group)
             (ProcessGroup.MemoryUsage group) (ProcessGroup.NumThreads group),
           <[i := true]> skip)
      end in
    Some (upsert pg (Process.PPID node) (Process.Signature node)
            (Process.Username node) group, skip').
Proof.
  unfold SliceCompact.step. destruct (skipped skip i); [done|].
  cbv zeta. simpl. rewrite upsert_found. reflexivity.
Qed.

(** ** The loop invariant of the method *)

(** The state after the loop has seen the nodes [pre], starting from an
    empty group map. *)
Definition grouped (opts : DisplayOptions) (pre : list Process)
    (st : GroupMap * SkipMap) : Prop :=
  (∀ p s o, group_at st.1 p s o = expected_group opts pre (p, s, o)) ∧
  (∀ i : nat, st.2 !! i = if is_duplicate pre i then Some true else None) ∧
  (∀ p, count_under st.1 p
        = Z.of_nat (length (filter (λ n, Process.PPID n = p) pre))).

Lemma wrap_uint64_add_l a b : wrap_uint64 (wrap_uint64 a + b) = wrap_uint64 (a + b).
Proof. unfold wrap_uint64. apply Zplus_mod_idemp_l. Qed.

Lemma wrap_int32_add_l a b : wrap_int32 (wrap_int32 a + b) = wrap_int32 (a + b).
Proof.
  unfold wrap_int32. f_equal.
  replace ((a + 2 ^ 31) mod 2 ^ 32 - 2 ^ 31 + b + 2 ^ 31)
    with ((a + 2 ^ 31) mod 2 ^ 32 + b) by lia.
  rewrite Zplus_mod_idemp_l. f_equal. lia.
Qed.

Lemma sumZ_snoc l x : sumZ (l ++ [x]) = sumZ l + x.
Proof. rewrite sumZ_app. unfold sumZ. simpl. lia. Qed.

Lemma grouped_init opts : grouped opts [] (∅, ∅).
Proof.
  split; [|split]; simpl.
  - intros p s o. unfold group_at. by rewrite lookup_empty.
  - intros i. by rewrite lookup_empty.
  - intros p. rewrite count_under_map_sum, lookup_empty. simpl.
    by rewrite map_sum_empty.
Qed.

Lemma expected_group_snoc_other opts pre node k :
  key_of node ≠ k →
  expected_group opts (pre ++ [node]) k = expected_group opts pre k.
Proof.
  intros Hne. unfold expected_group.
  rewrite members_snoc, matching_snoc, !decide_False by done.
  by rewrite !app_nil_r.
Qed.

Lemma expected_group_snoc_first opts pre node :
  members pre (key_of node) = [] →
  expected_group opts (pre ++ [node]) (key_of node)
  = Some (aggregate_total opts node
            (ProcessGroup.mk 1 (length pre) EmptyString [length pre]
               (Process.Username node) 0 0%float 0 0)).
Proof.
  intros Hnil. unfold expected_group.
  assert (Hm : matching pre (key_of node) = []).
  { apply nil_length_inv. by rewrite <- length_members, Hnil. }
  rewrite members_snoc, matching_snoc, !decide_True, Hnil, Hm by done.
  simpl. unfold aggregate_total, metric_age, metric_cpu, metric_memory, metric_threads.
  simpl. f_equal. f_equal.
  - destruct (ShowMemoryUsage opts); [|done]. f_equal. unfold sumZ. simpl. lia.
  - destruct (ShowNumThreads opts); [|done]. f_equal. unfold sumZ. simpl. lia.
Qed.

Lemma expected_group_snoc_next opts pre node g :
  expected_group opts pre (key_of node) = Some g →
  expected_group opts (pre ++ [node]) (key_of node)
  = Some (aggregate_total opts node
            (ProcessGroup.mk (ProcessGroup.Count g + 1) (ProcessGroup.FirstIndex g)
               (ProcessGroup.FullPath g) (ProcessGroup.Indices g ++ [length pre])
               (ProcessGroup.Owner g) (ProcessGroup.Age g) (ProcessGroup.CPUPercent g)
               (ProcessGroup.MemoryUsage g) (ProcessGroup.NumThreads g))).
Proof.
  unfold expected_group.
  rewrite members_snoc, matching_snoc, !decide_True by done.
  destruct (members pre (key_of node)) as [|first ms] eqn:Hm; [done|].
  intros [= <-]. simpl.
  unfold aggregate_total, metric_age, metric_cpu, metric_memory, metric_threads.
  simpl. f_equal. f_equal.
  - rewrite length_app. simpl. lia.
  - destruct (ShowProcessAge opts); [|done].
    by rewrite fmap_app, fold_left_app.
  - destruct (ShowCpuPercent opts); [|done].
    by rewrite fmap_app, fold_left_app.
  - destruct (ShowMemoryUsage opts); [|done].
    rewrite fmap_app. change (rss_of <$> [node]) with [rss_of node].
    by rewrite sumZ_snoc, wrap_uint64_add_l.
  - destruct (ShowNumThreads opts); [|done].
    rewrite fmap_app.
    change (Process.NumThreads <$> [node]) with [Process.NumThreads node].
    by rewrite sumZ_snoc, wrap_int32_add_l.
Qed.

Lemma expected_group_members opts pre k g :
  expected_group opts pre k = Some g → members pre k ≠ [].
Proof. unfold expected_group. by destruct (members pre k). Qed.

Lemma expected_group_count opts pre k g :
  expected_group opts pre k = Some g →
  ProcessGroup.Count g = Z.of_nat (length (members pre k)).
Proof.
  unfold expected_group. destruct (members pre k); [done|]. by intros [= <-].
Qed.

Lemma grouped_not_skipped opts pre pg skip :
  grouped opts pre (pg, skip) → skipped skip (length pre) = false.
Proof.
  intros (_ & Hskip & _). unfold skipped. simpl in Hskip. rewrite Hskip.
  unfold is_duplicate. by rewrite lookup_ge_None_2.
Qed.

Lemma grouped_step opts pre node st :
  grouped opts pre st →
  (ShowMemoryUsage opts = true → is_Some (Process.MemoryInfo node)) →
  ∃ st', TreeCompact.step opts (length pre) node st = Some st'
         ∧ grouped opts (pre ++ [node]) st'.
Proof.
  destruct st as [pg skip]. intros Hinv Hmem.
  rewrite tree_step_upsert, (grouped_not_skipped _ _ _ _ Hinv).
  destruct Hinv as (Hgroups & Hskip & Hcount). simpl in *.
  assert (Hk : (Process.PPID node, Process.Signature node, Process.Username node)
               = key_of node) by done.
  pose proof (Hgroups (Process.PPID node) (Process.Signature node)
                (Process.Username node)) as Hold.
  rewrite Hk in Hold.
  assert (Hothers : ∀ g p s o,
    group_at (upsert pg (Process.PPID node) (Process.Signature node)
                (Process.Username node) g) p s o
    = if decide ((p, s, o) = key_of node) then Some g
      else expected_group opts (pre ++ [node]) (p, s, o)).
  { intros g p s o. rewrite group_at_upsert.
    destruct (decide ((p, s, o) = key_of node)) as [Heq|Hne].
    - by rewrite decide_True.
    - rewrite decide_False by done.
      rewrite expected_group_snoc_other by done. apply Hgroups. }
  assert (Hlen : ∀ p, Z.of_nat (length (filter (λ n, Process.PPID n = p) (pre ++ [node])))
                 = Z.of_nat (length (filter (λ n, Process.PPID n = p) pre))
                   + (if decide (p = Process.PPID node) then 1 else 0)).
  { intros p. rewrite filter_app, length_app, (filter_singleton _ _ []).
    destruct (decide (p = Process.PPID node)) as [->|Hne].
    - rewrite decide_True by done. simpl. lia.
    - rewrite decide_False by done. simpl. lia. }
  destruct (group_at pg (Process.PPID node) (Process.Signature node)
              (Process.Username node)) as [g|] eqn:Hat.
  - (* the key has a group already *)
    rewrite aggregate_readable by done. simpl. eexists. split; [done|].
    symmetry in Hold.
    split; [|split]; simpl.
    + intros p s o. rewrite Hothers.
      destruct (decide ((p, s, o) = key_of node)) as [->|]; [|done].
      symmetry. by apply expected_group_snoc_next.
    + intros i. rewrite is_duplicate_snoc.
      destruct (decide (i < length pre)%nat) as [Hlt|Hge].
      * rewrite lookup_insert_ne by lia. apply Hskip.
      * destruct (decide (i = length pre)) as [->|Hne].
        -- rewrite lookup_insert_eq.
           rewrite bool_decide_true; [done|].
           by eapply expected_group_members.
        -- rewrite lookup_insert_ne by done. rewrite Hskip.
           unfold is_duplicate. rewrite lookup_ge_None_2; [done|lia].
    + intros p. rewrite count_under_upsert, Hat, Hlen, Hcount. simpl.
      destruct (decide (p = Process.PPID node)); lia.
  - (* the first node with this key *)
    rewrite aggregate_readable by done. simpl. eexists. split; [done|].
    assert (Hnil : members pre (key_of node) = []).
    { unfold expected_group in Hold. by destruct (members pre (key_of node)). }
    split; [|split]; simpl.
    + intros p s o. rewrite Hothers.
      destruct (decide ((p, s, o) = key_of node)) as [->|]; [|done].
      symmetry. by apply expected_group_snoc_first.
    + intros i. rewrite is_duplicate_snoc.
      destruct (decide (i < length pre)%nat) as [Hlt|Hge]; [apply Hskip|].
      rewrite Hskip. unfold is_duplicate. rewrite lookup_ge_None_2 by lia.
      destruct (decide (i = length pre)); [|done].
      rewrite bool_decide_false; [done|]. intros Hne. by apply Hne.
    + intros p. rewrite count_under_upsert, Hat, Hlen, Hcount. simpl.
      destruct (decide (p = Process.PPID node)); lia.
Qed.

Lemma grouped_loop opts rest : ∀ pre st,
  grouped opts pre st →
  (ShowMemoryUsage opts = true → Forall (λ n, is_Some (Process.MemoryInfo n)) rest) →
  ∃ st', TreeCompact.loop opts (length pre) rest st = Some st'
         ∧ grouped opts (pre ++ rest) st'.
Proof.
  induction rest as [|node rest IH]; intros pre st Hinv Hmem; simpl.
  - exists st. by rewrite app_nil_r.
  - destruct (grouped_step opts pre node st Hinv) as (st1 & Hstep & Hinv1).
    { intros Hshow. specialize (Hmem Hshow). by apply Forall_cons in Hmem as [? _]. }
    rewrite Hstep. simpl.
    destruct (IH (pre ++ [node]) st1 Hinv1) as (st2 & Hloop & Hinv2).
    { intros Hshow. specialize (Hmem Hshow). by apply Forall_cons in Hmem as [_ ?]. }
    rewrite length_app in Hloop. simpl in Hloop.
    rewrite Nat.add_1_r in Hloop. exists st2. split; [done|].
    by rewrite <- app_assoc in Hinv2.
Qed.

(** The method, run on a tree whose group map is still empty, returns, and
    what it returns is the grouping of the whole node list. *)
Lemma tree_compact_grouped (processTree : ProcessTree) :
  ProcessGroups processTree = ∅ →
  memory_readable (TreeOptions processTree) (Nodes processTree) →
  ∃ st, TreeCompact.InitCompactMode processTree = Some st
        ∧ grouped (TreeOptions processTree) (Nodes processTree) st.
Proof.
  intros Hempty Hmem. unfold TreeCompact.InitCompactMode. rewrite Hempty.
  apply (grouped_loop (TreeOptions processTree) (Nodes processTree) []
           (∅, ∅) (grouped_init _) Hmem).
Qed.

(** ** The slice version against the method: a simulation *)

#[local] Arguments TreeCompact.step : simpl never.
#[local] Arguments SliceCompact.step : simpl never.

(** Two groups with the same membership; the metrics may differ. *)
Definition same_members (g g' : ProcessGroup) : Prop :=
  ProcessGroup.Count g = ProcessGroup.Count g'
  ∧ ProcessGroup.FirstIndex g = ProcessGroup.FirstIndex g'
  ∧ ProcessGroup.Indices g = ProcessGroup.Indices g'
  ∧ ProcessGroup.Owner g = ProcessGroup.Owner g'.

(** Two group maps that store groups with the same membership under the
    same keys. *)
Definition same_grouping (pg pg' : GroupMap) : Prop :=
  ∀ p s o, option_Forall2 same_members (group_at pg p s o) (group_at pg' p s o).

Lemma same_grouping_upsert pg pg' p s o g g' :
  same_grouping pg pg' → same_members g g' →
  same_grouping (upsert pg p s o g) (upsert pg' p s o g').
Proof.
  intros Hsame Hg p' s' o'. rewrite !group_at_upsert.
  destruct (decide ((p', s', o') = (p, s, o))); [by constructor|apply Hsame].
Qed.

Lemma aggregate_same_members opts node g g' :
  TreeCompact.aggregate opts node g = Some g' → same_members g' g.
Proof.
  unfold TreeCompact.aggregate. destruct g as [c f p ix o a cpu m t]. simpl.
  destruct (ShowMemoryUsage opts); simpl.
  - destruct (Process.MemoryInfo node); simpl; [|done].
    intros [= <-].
    by destruct (ShowProcessAge opts), (ShowCpuPercent opts), (ShowNumThreads opts).
  - intros [= <-].
    by destruct (ShowProcessAge opts), (ShowCpuPercent opts), (ShowNumThreads opts).
Qed.

Lemma slice_simulates_step opts (i : nat) node pg skip pg' st1 :
  same_grouping pg pg' →
  TreeCompact.step opts i node (pg, skip) = Some st1 →
  ∃ pg1', SliceCompact.step i (Some node) (pg', skip) = Some (pg1', st1.2)
          ∧ same_grouping st1.1 pg1'.
Proof.
  intros Hsame. rewrite tree_step_upsert, slice_step_upsert.
  destruct (skipped skip i).
  { intros [= <-]. by exists pg'. }
  pose proof (Hsame (Process.PPID node) (Process.Signature node)
                (Process.Username node)) as Hat.
  destruct Hat as [g g' (Hc & Hf & Hi & Ho)|]; simpl.
  - destruct (TreeCompact.aggregate opts node _) as [g1|] eqn:Hagg; [|done].
    simpl. intros [= <-]. eexists. split; [done|]. simpl.
    apply same_grouping_upsert; [done|].
    apply aggregate_same_members in Hagg.
    destruct Hagg as (Hc1 & Hf1 & Hi1 & Ho1). simpl in *.
    unfold same_members. simpl. rewrite Hc1, Hf1, Hi1, Ho1, Hc, Hf, Hi, Ho. done.
  - destruct (TreeCompact.aggregate opts node _) as [g1|] eqn:Hagg; [|done].
    simpl. intros [= <-]. eexists. split; [done|]. simpl.
    apply same_grouping_upsert; [done|].
    by apply aggregate_same_members in Hagg.
Qed.

Lemma slice_simulates_loop opts nodes : ∀ (i : nat) pg skip pg' st1,
  same_grouping pg pg' →
  TreeCompact.loop opts i nodes (pg, skip) = Some st1 →
  ∃ pg1', SliceCompact.loop i (Some <$> nodes) (pg', skip) = Some (pg1', st1.2)
          ∧ same_grouping st1.1 pg1'.
Proof.
  induction nodes as [|node rest IH]; intros i pg skip pg' st1 Hsame; simpl.
  - intros [= <-]. by exists pg'.
  - destruct (TreeCompact.step opts i node (pg, skip)) as [[pg2 skip2]|] eqn:Hstep;
      simpl; [|done].
    intros Hloop.
    destruct (slice_simulates_step opts i node pg skip pg' _ Hsame Hstep)
      as (pg2' & Hstep' & Hsame2).
    rewrite Hstep'. simpl.
    by apply (IH (S i) pg2 skip2 pg2' st1 Hsame2).
Qed.

Lemma same_grouping_refl pg : same_grouping pg pg.
Proof.
  intros p s o. destruct (group_at pg p s o); by constructor.
Qed.

(** Whenever the method returns on a fresh tree, the slice version returns
    on the same processes with the same skip map and the same membership. *)
Lemma slice_simulates (processTree : ProcessTree) st :
  ProcessGroups processTree = ∅ →
  TreeCompact.InitCompactMode processTree = Some st →
  ∃ pg', SliceCompact.InitCompactMode (Some <$> Nodes processTree) = Some (pg', st.2)
         ∧ same_grouping st.1 pg'.
Proof.
  unfold TreeCompact.InitCompactMode, SliceCompact.InitCompactMode.
  intros -> Hloop.
  by apply (slice_simulates_loop _ _ _ _ _ ∅ _ (same_grouping_refl ∅) Hloop).
Qed.

(** ** Order of the member positions *)

Lemma head_filter_seq_le (P : nat → Prop) `{∀ i, Decision (P i)} (len : nat) :
  ∀ (start h i : nat),
    head (filter P (seq start len)) = Some h → i ∈ filter P (seq start len) →
    (h ≤ i)%nat.
Proof.
  induction len as [|len IH]; intros start h i; simpl; [done|].
  rewrite filter_cons. destruct (decide (P start)) as [HP|HP].
  - intros [= <-] Hi. apply elem_of_cons in Hi as [->|Hi]; [done|].
    apply list_elem_of_filter in Hi as [_ Hi].
    apply elem_of_seq in Hi. lia.
  - apply IH.
Qed.

Lemma members_head_le (nodes : list Process) k (h i : nat) :
  head (members nodes k) = Some h → i ∈ members nodes k → (h ≤ i)%nat.
Proof. apply head_filter_seq_le. Qed.

Lemma later_member_is_duplicate (nodes : list Process) (i j : nat) ni nj :
  (i < j)%nat → nodes !! i = Some ni → nodes !! j = Some nj →
  key_of ni = key_of nj → is_duplicate nodes j = true.
Proof.
  intros Hlt Hi Hj Hkey. unfold is_duplicate. rewrite Hj.
  apply bool_decide_eq_true. intros Hhead.
  assert (Hin : i ∈ members nodes (key_of nj)).
  { apply elem_of_members. by rewrite Hi, <- Hkey. }
  pose proof (members_head_le _ _ _ _ Hhead Hin). lia.
Qed.

(** What a stored group looks like, read off the invariant. *)
Lemma grouped_group_at opts nodes st p s o g :
  grouped opts nodes st → group_at st.1 p s o = Some g →
  members nodes (p, s, o) ≠ []
  ∧ ProcessGroup.Count g = Z.of_nat (length (members nodes (p, s, o)))
  ∧ head (members nodes (p, s, o)) = Some (ProcessGroup.FirstIndex g)
  ∧ ProcessGroup.Indices g = members nodes (p, s, o)
  ∧ ProcessGroup.Owner g = o
  ∧ ProcessGroup.Age g = metric_age opts (matching nodes (p, s, o))
  ∧ ProcessGroup.CPUPercent g = metric_cpu opts (matching nodes (p, s, o))
  ∧ ProcessGroup.MemoryUsage g = metric_memory opts (matching nodes (p, s, o))
  ∧ ProcessGroup.NumThreads g = metric_threads opts (matching nodes (p, s, o)).
Proof.
  intros (Hgroups & _ & _). rewrite Hgroups. unfold expected_group.
  destruct (members nodes (p, s, o)) as [|first ms] eqn:Hm; [done|].
  intros [= <-]. simpl. by repeat split.
Qed.

Lemma grouped_has_group opts nodes st (i : nat) n :
  grouped opts nodes st → nodes !! i = Some n →
  ∃ g, group_at st.1 (Process.PPID n) (Process.Signature n) (Process.Username n)
       = Some g.
Proof.
  intros (Hgroups & _ & _) Hi. rewrite Hgroups. unfold expected_group.
  assert (Hin : i ∈ members nodes (key_of n)).
  { apply elem_of_members. by rewrite Hi. }
  change (Process.PPID n, Process.Signature n, Process.Username n) with (key_of n).
  destruct (members nodes (key_of n)); [by apply elem_of_nil in Hin|]. by eexists.
Qed.

(** * Compact mode: the claims *)

(** C1.  After [InitCompactMode] on a tree whose group map is still empty,
    the counts of the groups stored under a parent PID add up to the number
    of processes whose PPID is that parent, and no (signature, owner) key
    occurs twice among those groups: the group stored under a key holds the
    positions of exactly the children of that parent that carry the key's
    signature and owner, at least one, and every child of the parent is in
    the group stored under its own signature and owner.  So two children
    with the same signature and owner are never filed in two groups.  The
    method returns whenever it can read the [MemoryInfo] of every node it has
    to. *)
Theorem C1_counts_partition_children (processTree : ProcessTree) :
  ProcessGroups processTree = ∅ →
  memory_readable (TreeOptions processTree) (Nodes processTree) →
  ∃ pg skip,
    TreeCompact.InitCompactMode processTree = Some (pg, skip)
    ∧ ∀ parent,
        count_under pg parent
        = Z.of_nat (length (filter (λ n, Process.PPID n = parent) (Nodes processTree)))
        ∧ NoDup (groups_under pg parent).*1
        ∧ (∀ sig owner g,
             ((sig, owner), g) ∈ groups_under pg parent →
             ProcessGroup.Indices g ≠ []
             ∧ ∀ i : nat,
                 i ∈ ProcessGroup.Indices g
                 ↔ ∃ n, Nodes processTree !! i = Some n
                        ∧ Process.PPID n = parent
                        ∧ Process.Signature n = sig
                        ∧ Process.Username n = owner)
        ∧ (∀ (i : nat) n,
             Nodes processTree !! i = Some n → Process.PPID n = parent →
             ∃ g, ((Process.Signature n, Process.Username n), g)
                    ∈ groups_under pg parent
                  ∧ i ∈ ProcessGroup.Indices g).
Proof.
  intros Hempty Hmem.
  destruct (tree_compact_grouped processTree Hempty Hmem) as ([pg skip] & Hrun & Hinv).
  exists pg, skip. split; [done|]. intros parent. split; [|split; [|split]].
  - destruct Hinv as (_ & _ & Hcount). apply Hcount.
  - apply groups_under_keys_NoDup.
  - intros sig owner g Hin. apply elem_of_groups_under in Hin.
    destruct (grouped_group_at _ _ _ _ _ _ _ Hinv Hin) as (Hne & _ & _ & Hix & _).
    rewrite Hix. split; [done|]. intros i. rewrite elem_of_members. split.
    + destruct (Nodes processTree !! i) as [n|]; [|done].
      intros [= Hp Hs Ho]. by exists n.
    + intros (n & -> & <- & <- & <-). done.
  - intros i n Hi Hp. destruct (grouped_has_group _ _ _ _ _ Hinv Hi) as [g Hg].
    exists g. split.
    + apply elem_of_groups_under. by rewrite <- Hp.
    + destruct (grouped_group_at _ _ _ _ _ _ _ Hinv Hg) as (_ & _ & _ & Hix & _).
      rewrite Hix. apply elem_of_members. by rewrite Hi.
Qed.

Lemma C1_counts_partition_children_witness :
  ∃ pg skip,
    TreeCompact.InitCompactMode (sample_tree metric_options) = Some (pg, skip)
    ∧ ∀ parent,
        count_under pg parent
        = Z.of_nat (length (filter (λ n, Process.PPID n = parent) sample_nodes))
        ∧ NoDup (groups_under pg parent).*1
        ∧ (∀ sig owner g,
             ((sig, owner), g) ∈ groups_under pg parent →
             ProcessGroup.Indices g ≠ []
             ∧ ∀ i : nat,
                 i ∈ ProcessGroup.Indices g
                 ↔ ∃ n, sample_nodes !! i = Some n
                        ∧ Process.PPID n = parent
                        ∧ Process.Signature n = sig
                        ∧ Process.Username n = owner)
        ∧ (∀ (i : nat) n,
             sample_nodes !! i = Some n → Process.PPID n = parent →
             ∃ g, ((Process.Signature n, Process.Username n), g)
                    ∈ groups_under pg parent
                  ∧ i ∈ ProcessGroup.Indices g).
Proof.
  apply (C1_counts_partition_children (sample_tree metric_options)).
  - reflexivity.
  - intros _. repeat constructor; by eexists.
Defined.

(** C2, as the claim states it, fails: in the sample list the two [bash]
    children of PID 50 sit at positions 2 and 4 with a [sleep] between them,
    and both versions of [InitCompactMode] put them into one group and mark
    the second one to be skipped. *)
Lemma C2_separated_siblings_are_merged :
  Process.Signature <$> sample_nodes !! 3%nat = Some "sleep"%string
  ∧ (st ← TreeCompact.InitCompactMode (sample_tree plain_options);
     g ← group_at st.1 50 "bash" "alice";
     Some (ProcessGroup.Count g, ProcessGroup.Indices g, skipped st.2 4))
    = Some (2, [2%nat; 4%nat], true)
  ∧ (st ← SliceCompact.InitCompactMode (Some <$> sample_nodes);
     g ← group_at st.1 50 "bash" "alice";
     Some (ProcessGroup.Count g, ProcessGroup.Indices g, skipped st.2 4))
    = Some (2, [2%nat; 4%nat], true).
Proof. repeat split; vm_compute; reflexivity. Qed.

(** C2, amended.  Grouping goes by the (parent, signature, owner) key and
    not by adjacency: any two nodes with the same key end up in the index
    list of the one group stored for that key, whatever lies between them,
    and the later one is marked to be skipped; the slice version stores the
    same index list and the same skip map. *)
Theorem C2_same_key_same_group (processTree : ProcessTree) :
  ProcessGroups processTree = ∅ →
  memory_readable (TreeOptions processTree) (Nodes processTree) →
  ∃ pg skip pg',
    TreeCompact.InitCompactMode processTree = Some (pg, skip)
    ∧ SliceCompact.InitCompactMode (Some <$> Nodes processTree) = Some (pg', skip)
    ∧ ∀ (i j : nat) ni nj,
        (i < j)%nat →
        Nodes processTree !! i = Some ni → Nodes processTree !! j = Some nj →
        key_of ni = key_of nj →
        skipped skip j = true
        ∧ ∃ g g',
            group_at pg (Process.PPID ni) (Process.Signature ni) (Process.Username ni)
            = Some g
            ∧ group_at pg' (Process.PPID ni) (Process.Signature ni) (Process.Username ni)
              = Some g'
            ∧ ProcessGroup.Indices g' = ProcessGroup.Indices g
            ∧ i ∈ ProcessGroup.Indices g ∧ j ∈ ProcessGroup.Indices g.
Proof.
  intros Hempty Hmem.
  destruct (tree_compact_grouped processTree Hempty Hmem) as ([pg skip] & Hrun & Hinv).
  destruct (slice_simulates processTree _ Hempty Hrun) as (pg' & Hrun' & Hsame).
  exists pg, skip, pg'. split; [done|]. split; [done|].
  intros i j ni nj Hlt Hi Hj Hkey. split.
  - destruct Hinv as (_ & Hskip & _). unfold skipped. simpl in Hskip.
    by rewrite Hskip, (later_member_is_duplicate _ i j ni nj).
  - destruct (grouped_has_group _ _ _ i ni Hinv Hi) as [g Hg].
    pose proof (Hsame (Process.PPID ni) (Process.Signature ni) (Process.Username ni))
      as Hrel.
    simpl in Hg, Hrel. rewrite Hg in Hrel. inversion Hrel as [? g' (_ & _ & Hix & _) Heq1 Heq2|].
    exists g, g'. split; [done|]. split; [done|]. split; [done|].
    destruct (grouped_group_at _ _ _ _ _ _ _ Hinv Hg) as (_ & _ & _ & -> & _).
    change (Process.PPID ni, Process.Signature ni, Process.Username ni) with (key_of ni).
    split; apply elem_of_members.
    + by rewrite Hi.
    + by rewrite Hj, Hkey.
Qed.

Lemma C2_same_key_same_group_witness :
  ∃ pg skip pg',
    TreeCompact.InitCompactMode (sample_tree metric_options) = Some (pg, skip)
    ∧ SliceCompact.InitCompactMode (Some <$> sample_nodes) = Some (pg', skip)
    ∧ ∀ (i j : nat) ni nj,
        (i < j)%nat →
        sample_nodes !! i = Some ni → sample_nodes !! j = Some nj →
        key_of ni = key_of nj →
        skipped skip j = true
        ∧ ∃ g g',
            group_at pg (Process.PPID ni) (Process.Signature ni) (Process.Username ni)
            = Some g
            ∧ group_at pg' (Process.PPID ni) (Process.Signature ni) (Process.Username ni)
              = Some g'
            ∧ ProcessGroup.Indices g' = ProcessGroup.Indices g
            ∧ i ∈ ProcessGroup.Indices g ∧ j ∈ ProcessGroup.Indices g.
Proof.
  apply (C2_same_key_same_group (sample_tree metric_options)).
  - reflexivity.
  - intros _. repeat constructor; by eexists.
Defined.

(** C3.  After [InitCompactMode] on a tree whose group map is still empty,
    every stored group has [Count] equal to the length of its index list and
    [FirstIndex] equal to that list's first element, its [Owner] is the owner
    key it is stored under, and every member's username, signature and parent
    PID are the keys the group is stored under. *)
Theorem C3_group_shape (processTree : ProcessTree) :
  ProcessGroups processTree = ∅ →
  memory_readable (TreeOptions processTree) (Nodes processTree) →
  ∃ pg skip,
    TreeCompact.InitCompactMode processTree = Some (pg, skip)
    ∧ ∀ parent sig owner g,
        group_at pg parent sig owner = Some g →
        ProcessGroup.Count g = Z.of_nat (length (ProcessGroup.Indices g))
        ∧ head (ProcessGroup.Indices g) = Some (ProcessGroup.FirstIndex g)
        ∧ ProcessGroup.Owner g = owner
        ∧ ∀ i, i ∈ ProcessGroup.Indices g →
            ∃ n, Nodes processTree !! i = Some n
                 ∧ Process.Username n = ProcessGroup.Owner g
                 ∧ Process.Signature n = sig
                 ∧ Process.PPID n = parent.
Proof.
  intros Hempty Hmem.
  destruct (tree_compact_grouped processTree Hempty Hmem) as ([pg skip] & Hrun & Hinv).
  exists pg, skip. split; [done|]. intros parent sig owner g Hg.
  destruct (grouped_group_at _ _ _ _ _ _ _ Hinv Hg)
    as (_ & Hcount & Hfirst & Hix & Howner & _).
  rewrite Hix. repeat split; try done.
  intros i Hi. apply elem_of_members in Hi.
  destruct (Nodes processTree !! i) as [n|]; [|done].
  injection Hi as [= Hp Hs Ho]. exists n. by rewrite Howner.
Qed.

Lemma C3_group_shape_witness :
  ∃ pg skip,
    TreeCompact.InitCompactMode (sample_tree metric_options) = Some (pg, skip)
    ∧ ∀ parent sig owner g,
        group_at pg parent sig owner = Some g →
        ProcessGroup.Count g = Z.of_nat (length (ProcessGroup.Indices g))
        ∧ head (ProcessGroup.Indices g) = Some (ProcessGroup.FirstIndex g)
        ∧ ProcessGroup.Owner g = owner
        ∧ ∀ i, i ∈ ProcessGroup.Indices g →
            ∃ n, sample_nodes !! i = Some n
                 ∧ Process.Username n = ProcessGroup.Owner g
                 ∧ Process.Signature n = sig
                 ∧ Process.PPID n = parent.
Proof.
  apply (C3_group_shape (sample_tree metric_options)).
  - reflexivity.
  - intros _. repeat constructor; by eexists.
Defined.

(** C4, as the claim states it, fails: with no annotation requested the
    group of the two [bash] children (ages 30 and 20, RSS 1024 and 2048,
    1 and 3 threads) carries age 0, memory 0 and thread count 0. *)
Lemma C4_metrics_left_at_zero :
  (st ← TreeCompact.InitCompactMode (sample_tree plain_options);
   g ← group_at st.1 50 "bash" "alice";
   Some (Process.Age <$> member_nodes sample_nodes g, ProcessGroup.Age g,
         rss_of <$> member_nodes sample_nodes g, ProcessGroup.MemoryUsage g,
         Process.NumThreads <$> member_nodes sample_nodes g, ProcessGroup.NumThreads g))
  = Some ([30; 20], 0, [1024; 2048], 0, [1; 3], 0).
Proof. vm_compute. reflexivity. Qed.

(** C4, amended.  Each metric of a group is accumulated only when its
    display option is set and is zero otherwise.  When set, [Age] is the
    greatest of 0 and the members' ages, [CPUPercent] is the members' CPU
    percentages added up from 0 in index order, [MemoryUsage] is the sum of
    the members' RSS modulo 2^64 and [NumThreads] the sum of the members'
    thread counts wrapped to 32 bits. *)
Theorem C4_metrics_follow_options (processTree : ProcessTree) :
  ProcessGroups processTree = ∅ →
  memory_readable (TreeOptions processTree) (Nodes processTree) →
  ∃ pg skip,
    TreeCompact.InitCompactMode processTree = Some (pg, skip)
    ∧ ∀ parent sig owner g,
        group_at pg parent sig owner = Some g →
        let opts := TreeOptions processTree in
        let ms := member_nodes (Nodes processTree) g in
        ProcessGroup.Age g
        = (if ShowProcessAge opts then fold_left Z.max (Process.Age <$> ms) 0 else 0)
        ∧ ProcessGroup.CPUPercent g
          = (if ShowCpuPercent opts
             then fold_left PrimFloat.add (Process.CPUPercent <$> ms) 0%float
             else 0%float)
        ∧ ProcessGroup.MemoryUsage g
          = (if ShowMemoryUsage opts then wrap_uint64 (sumZ (rss_of <$> ms)) else 0)
        ∧ ProcessGroup.NumThreads g
          = (if ShowNumThreads opts
             then wrap_int32 (sumZ (Process.NumThreads <$> ms)) else 0).
Proof.
  intros Hempty Hmem.
  destruct (tree_compact_grouped processTree Hempty Hmem) as ([pg skip] & Hrun & Hinv).
  exists pg, skip. split; [done|]. intros parent sig owner g Hg opts ms.
  destruct (grouped_group_at _ _ _ _ _ _ _ Hinv Hg)
    as (_ & _ & _ & Hix & _ & Hage & Hcpu & Hmemory & Hthreads).
  assert (Hms : ms = matching (Nodes processTree) (parent, sig, owner)).
  { unfold ms, member_nodes. rewrite Hix. apply omap_members. }
  rewrite Hms. by repeat split.
Qed.

Lemma C4_metrics_follow_options_witness :
  ∃ pg skip,
    TreeCompact.InitCompactMode (sample_tree metric_options) = Some (pg, skip)
    ∧ ∀ parent sig owner g,
        group_at pg parent sig owner = Some g →
        let opts := metric_options in
        let ms := member_nodes sample_nodes g in
        ProcessGroup.Age g
        = (if ShowProcessAge opts then fold_left Z.max (Process.Age <$> ms) 0 else 0)
        ∧ ProcessGroup.CPUPercent g
          = (if ShowCpuPercent opts
             then fold_left PrimFloat.add (Process.CPUPercent <$> ms) 0%float
             else 0%float)
        ∧ ProcessGroup.MemoryUsage g
          = (if ShowMemoryUsage opts then wrap_uint64 (sumZ (rss_of <$> ms)) else 0)
        ∧ ProcessGroup.NumThreads g
          = (if ShowNumThreads opts
             then wrap_int32 (sumZ (Process.NumThreads <$> ms)) else 0).
Proof.
  apply (C4_metrics_follow_options (sample_tree metric_options)).
  - reflexivity.
  - intros _. repeat constructor; by eexists.
Defined.

(** The accumulated age is the greatest of 0 and the listed ages. *)
Lemma fold_max_upper (l : list Z) (a : Z) :
  a ≤ fold_left Z.max l a ∧ Forall (λ x, x ≤ fold_left Z.max l a) l.
Proof.
  revert a. induction l as [|x l IH]; intros a; simpl; [split; [lia|constructor]|].
  destruct (IH (Z.max a x)) as [Hge Hall]. split; [lia|].
  constructor; [lia|done].
Qed.

Lemma fold_max_attained (l : list Z) (a : Z) :
  fold_left Z.max l a = a ∨ fold_left Z.max l a ∈ l.
Proof.
  revert a. induction l as [|x l IH]; intros a; simpl; [by left|].
  destruct (IH (Z.max a x)) as [Heq|Hin].
  - rewrite Heq. destruct (Z.max_spec a x) as [[_ ->]|[_ ->]]; [right; by left|by left].
  - right. by right.
Qed.

(** C10.  On a tree whose group map is still empty, the method and the
    slice version, run on the same processes, store a group under the same
    (parent, signature, owner) keys, with the same [Count], [FirstIndex] and
    index list, and they build the same skip map. *)
Theorem C10_versions_agree (processTree : ProcessTree) :
  ProcessGroups processTree = ∅ →
  memory_readable (TreeOptions processTree) (Nodes processTree) →
  ∃ pg skip pg' skip',
    TreeCompact.InitCompactMode processTree = Some (pg, skip)
    ∧ SliceCompact.InitCompactMode (Some <$> Nodes processTree) = Some (pg', skip')
    ∧ skip' = skip
    ∧ ∀ parent sig owner,
        match group_at pg parent sig owner, group_at pg' parent sig owner with
        | Some g, Some g' =>
            ProcessGroup.Count g = ProcessGroup.Count g'
            ∧ ProcessGroup.FirstIndex g = ProcessGroup.FirstIndex g'
            ∧ ProcessGroup.Indices g = ProcessGroup.Indices g'
        | None, None => True
        | _, _ => False
        end.
Proof.
  intros Hempty Hmem.
  destruct (tree_compact_grouped processTree Hempty Hmem) as ([pg skip] & Hrun & _).
  destruct (slice_simulates processTree _ Hempty Hrun) as (pg' & Hrun' & Hsame).
  exists pg, skip, pg', skip. split; [done|]. split; [done|]. split; [done|].
  intros parent sig owner. specialize (Hsame parent sig owner). simpl in Hsame.
  destruct Hsame as [g g' (Hc & Hf & Hi & _)|]; done.
Qed.

Lemma C10_versions_agree_witness :
  ∃ pg skip pg' skip',
    TreeCompact.InitCompactMode (sample_tree metric_options) = Some (pg, skip)
    ∧ SliceCompact.InitCompactMode (Some <$> sample_nodes) = Some (pg', skip')
    ∧ skip' = skip
    ∧ ∀ parent sig owner,
        match group_at pg parent sig owner, group_at pg' parent sig owner with
        | Some g, Some g' =>
            ProcessGroup.Count g = ProcessGroup.Count g'
            ∧ ProcessGroup.FirstIndex g = ProcessGroup.FirstIndex g'
            ∧ ProcessGroup.Indices g = ProcessGroup.Indices g'
        | None, None => True
        | _, _ => False
        end.
Proof.
  apply (C10_versions_agree (sample_tree metric_options)).
  - reflexivity.
  - intros _. repeat constructor; by eexists.
Defined.

(** * The run command: proofs *)

Lemma eqb_string_true s1 s2 : eqb_string s1 s2 = true ↔ s1 = s2.
Proof. unfold eqb_string. apply bool_decide_eq_true. Qed.

Lemma eqb_string_false s1 s2 : eqb_string s1 s2 = false ↔ s1 ≠ s2.
Proof. unfold eqb_string. apply bool_decide_eq_false. Qed.

(** The flag rules of lines 152-190, as one test. *)
Definition rules_pass (f : Flags) : bool :=
  negb (changedUser f && flagExcludeRoot f)
  && negb (1 <? BtoI (flagColor f) + BtoI (flagRainbow f) + StoI (flagColorAttr f))
  && negb (1 <? BtoI (flagIBM850 f) + BtoI (flagUTF8 f) + BtoI (flagVT100 f))
  && negb (negb (eqb_string (flagColorAttr f) EmptyString)
           && negb (slices_Contains validAttributes (flagColorAttr f)))
  && negb (1 <? BtoI (flagShowUIDTransitions f) + BtoI (flagShowUserTransitions f))
  && negb (changedLevel f && (flagLevel f <? 1))
  && negb (negb (eqb_string (flagColorScheme f) EmptyString)
           && negb (slices_Contains validColorSchemes (flagColorScheme f)))
  && negb (negb (eqb_string (flagColorScheme f) EmptyString)
           && (negb (eqb_string (flagColorAttr f) EmptyString) || flagRainbow f)).

(** A run that breaks a flag rule returns an error. *)
Lemma rules_fail_error env f :
  rules_pass f = false → ∃ message, pstreeRunCmd env f = ReturnError message.
Proof.
  unfold rules_pass, pstreeRunCmd. intros Hrules.
  repeat match goal with
  | |- ∃ m, (if ?c then ReturnError _ else _) = _ =>
      destruct c eqn:?; [by eexists|]
  end.
  simpl in Hrules. done.
Qed.

(** What a run that passes the flag rules does. *)
Lemma rules_pass_run env f :
  rules_pass f = true →
  pstreeRunCmd env f
  = if flagVersion f then ExitProgram 0 else
    match existingUsers env (flagUsername f) with
    | None => Panic
    | Some flagUsername =>
    let all := flagShowAll f in
    let flagAge := flagAge f || all in
    let flagArguments := flagArguments f || all in
    let flagCpu := flagCpu f || all in
    let flagMemory := flagMemory f || all in
    let flagShowOwner := flagShowOwner f || all in
    let flagShowPGLs := flagShowPGLs f || all in
    let flagShowPIDs := flagShowPIDs f || all in
    let flagShowPPIDs := flagShowPPIDs f || all in
    let flagThreads := flagThreads f || all in
    let miniOptions :=
      {| ColorAttr := flagColorAttr f; ColorCount := 0; ColorizeOutput := false;
         ColorScheme := EmptyString; ColorSupport := false; CompactMode := false;
         Contains := EmptyString; ExcludeRoot := false; IBM850Graphics := false;
         InstalledMemory := 0; MaxDepth := 0; OrderBy := flagOrderBy f;
         RainbowOutput := false; RootPID := 0; ScreenWidth := 0;
         ShowArguments := flagArguments; ShowCpuPercent := flagCpu;
         ShowMemoryUsage := flagMemory; ShowNumThreads := flagThreads;
         ShowOwner := flagShowOwner; ShowPGIDs := flagShowPGIDs f;
         ShowPGLs := flagShowPGLs; ShowPIDs := false; ShowPPIDs := false;
         ShowProcessAge := flagAge; ShowUIDTransitions := flagShowUIDTransitions f;
         ShowUserTransitions := flagShowUserTransitions f; Usernames := flagUsername;
         UTF8Graphics := false; VT100Graphics := false; WideDisplay := false |} in
    match GetProcesses (RoundFloat env) (systemProcesses env) miniOptions with
    | None => ExitProgram 1
    | Some processes =>
    match order_block (flagOrderBy f) processes flagAge flagCpu flagMemory flagShowPIDs
            flagThreads flagShowOwner with
    | OrderError message => ReturnError message
    | OrderPanic => Panic
    | OrderDone processes flagAge flagCpu flagMemory flagShowPIDs flagThreads
        flagShowOwner =>
    match totalMemory env with
    | None => Panic
    | Some total =>
    BuildTree processes
      {| ColorAttr := flagColorAttr f; ColorCount := colorCount env;
         ColorizeOutput :=
           if negb (eqb_string (flagColorScheme f) EmptyString) then true
           else flagColor f;
         ColorScheme := flagColorScheme f;
         ColorSupport := colorSupport env;
         CompactMode :=
           negb (if negb (eqb_string (flagColorAttr f) EmptyString)
                    || negb (eqb_string (flagContains f) EmptyString)
                 then true else flagCompactNot f);
         Contains := flagContains f; ExcludeRoot := flagExcludeRoot f;
         IBM850Graphics := flagIBM850 f; InstalledMemory := total;
         MaxDepth := if flagLevel f =? 0 then 999 else flagLevel f;
         OrderBy := flagOrderBy f;
         RainbowOutput := flagRainbow f; RootPID := flagPid f;
         ScreenWidth := screenWidth env; ShowArguments := flagArguments;
         ShowCpuPercent := flagCpu; ShowMemoryUsage := flagMemory;
         ShowNumThreads := flagThreads; ShowOwner := flagShowOwner;
         ShowPGIDs := flagShowPGIDs f; ShowPGLs := flagShowPGLs;
         ShowPIDs := flagShowPIDs; ShowPPIDs := flagShowPPIDs;
         ShowProcessAge := flagAge; ShowUIDTransitions := flagShowUIDTransitions f;
         ShowUserTransitions := flagShowUserTransitions f; Usernames := flagUsername;
         UTF8Graphics := flagUTF8 f; VT100Graphics := flagVT100 f;
         WideDisplay := flagWide f |}
    end end end end.
Proof.
  unfold rules_pass, pstreeRunCmd. intros Hrules.
  repeat (apply andb_prop in Hrules as [Hrules ?]).
  repeat match goal with
  | H : negb ?c = true |- _ => apply negb_true_iff in H; rewrite H; clear H
  end.
  reflexivity.
Qed.

(** A run either breaks a flag rule or passes them all. *)
Lemma run_builds_tree env f processes displayOptions :
  pstreeRunCmd env f = BuildTree processes displayOptions → rules_pass f = true.
Proof.
  intros Hrun. destruct (rules_pass f) eqn:Hrules; [done|].
  destruct (rules_fail_error env f Hrules) as [message Herr]. congruence.
Qed.

(** C7.  Whenever a run reaches the construction of the tree and its display
    options carry a colour attribute or a substring filter, compact mode is
    off in those options, whatever the compaction flag said. *)
Theorem C7_filters_disable_compaction env f processes displayOptions :
  pstreeRunCmd env f = BuildTree processes displayOptions →
  ColorAttr displayOptions ≠ EmptyString ∨ Contains displayOptions ≠ EmptyString →
  CompactMode displayOptions = false.
Proof.
  intros Hrun Hactive. pose proof (run_builds_tree _ _ _ _ Hrun) as Hrules.
  rewrite (rules_pass_run env f Hrules) in Hrun.
  destruct (flagVersion f); [done|].
  destruct (existingUsers env (flagUsername f)) as [users|]; [|done].
  cbv zeta in Hrun.
  destruct (GetProcesses _ _ _) as [collected|]; [|done].
  destruct (order_block _ _ _ _ _ _ _ _) as [| |ps age cpu mem pids threads owner];
    [done|done|].
  destruct (totalMemory env) as [total|]; [|done].
  injection Hrun as _ <-. simpl in *.
  destruct Hactive as [Hattr|Hcontains].
  - apply eqb_string_false in Hattr. by rewrite Hattr.
  - apply eqb_string_false in Hcontains. rewrite Hcontains. by rewrite orb_true_r.
Qed.

Lemma C7_filters_disable_compaction_witness :
  match pstreeRunCmd sample_env (with_contains "bash" no_flags) with
  | BuildTree _ displayOptions =>
      Contains displayOptions = "bash"%string ∧ CompactMode displayOptions = false
  | _ => False
  end.
Proof.
  destruct (pstreeRunCmd sample_env (with_contains "bash" no_flags))
    as [| | |processes displayOptions] eqn:Hrun;
    try (vm_compute in Hrun; discriminate Hrun).
  assert (Hcontains : Contains displayOptions = "bash"%string).
  { vm_compute in Hrun. by injection Hrun as _ <-. }
  split; [done|].
  apply (C7_filters_disable_compaction _ _ _ _ Hrun).
  right. by rewrite Hcontains.
Defined.

(** C8, as the claim states it, fails for the sort key: with the version
    flag set, a run with an unrecognized sort key prints the version and
    leaves with status 0 instead of returning an error. *)
Lemma C8_version_precedes_sort_key :
  slices_Contains validOrderBy "bogus" = false
  ∧ pstreeRunCmd sample_env (with_version (with_order_by "bogus" no_flags))
    = ExitProgram 0.
Proof. split; vm_compute; reflexivity. Qed.

(** C8, amended.  When mutually exclusive options are selected (a colour
    attribute with rainbow or colorize, a colour scheme with a colour
    attribute or rainbow) or an unrecognized colour attribute or colour
    scheme is supplied, the run returns an error.  When an unrecognized sort
    key is supplied, the run never reaches the construction of the tree, and
    it returns an error unless the version flag is set, the rewriting of the
    user list panics or the process list cannot be obtained. *)
Theorem C8_invalid_options_rejected env f :
  ((flagColorAttr f ≠ EmptyString ∧ (flagRainbow f = true ∨ flagColor f = true))
   ∨ (flagColorScheme f ≠ EmptyString
      ∧ (flagColorAttr f ≠ EmptyString ∨ flagRainbow f = true))
   ∨ (flagColorAttr f ≠ EmptyString ∧ flagColorAttr f ∉ validAttributes)
   ∨ (flagColorScheme f ≠ EmptyString ∧ flagColorScheme f ∉ validColorSchemes)
   → ∃ message, pstreeRunCmd env f = ReturnError message)
  ∧ (flagOrderBy f ≠ EmptyString ∧ flagOrderBy f ∉ validOrderBy →
     (∀ processes displayOptions,
        pstreeRunCmd env f ≠ BuildTree processes displayOptions)
     ∧ (flagVersion f = false →
        is_Some (existingUsers env (flagUsername f)) →
        systemProcesses env ≠ Err →
        ∃ message, pstreeRunCmd env f = ReturnError message)).
Proof.
  split.
  - intros Hbad. apply rules_fail_error.
    destruct (rules_pass f) eqn:Hrules; [|done]. exfalso.
    unfold rules_pass in Hrules.
    repeat (apply andb_prop in Hrules as [Hrules ?]).
    repeat match goal with
    | H : negb _ = true |- _ => apply negb_true_iff in H
    end.
    unfold StoI, BtoI, slices_Contains in *.
    destruct Hbad as [[Hattr Hother]|[[Hscheme Hother]|[[Hattr Hin]|[Hscheme Hin]]]].
    + apply eqb_string_false in Hattr. rewrite Hattr in *.
      destruct Hother as [Hr|Hc]; rewrite ?Hr, ?Hc in *;
        destruct (flagColor f), (flagRainbow f); simpl in *; done.
    + apply eqb_string_false in Hscheme. rewrite Hscheme in *.
      destruct Hother as [Hattr|Hr].
      * apply eqb_string_false in Hattr. rewrite Hattr in *. done.
      * rewrite Hr in *. simpl in *. by rewrite orb_true_r in *.
    + apply eqb_string_false in Hattr. rewrite Hattr in *.
      rewrite bool_decide_false in * by done. done.
    + apply eqb_string_false in Hscheme. rewrite Hscheme in *.
      rewrite bool_decide_false in * by done. done.
  - intros [Hgiven Hunknown].
    assert (Hblock : ∀ ps a c m p t o,
      ∃ message, order_block (flagOrderBy f) ps a c m p t o = OrderError message).
    { intros. unfold order_block, slices_Contains.
      apply eqb_string_false in Hgiven. rewrite Hgiven.
      rewrite bool_decide_false by done. by eexists. }
    destruct (rules_pass f) eqn:Hrules.
    2:{ destruct (rules_fail_error env f Hrules) as [message Herr].
        split; [intros; congruence|]. intros. by exists message. }
    rewrite (rules_pass_run env f Hrules). split.
    + intros ps d. destruct (flagVersion f); [done|].
      destruct (existingUsers env (flagUsername f)); [|done]. cbv zeta.
      destruct (GetProcesses _ _ _) as [collected|]; [|done].
      match goal with
      | |- context [order_block ?k ?ps ?a ?c ?m ?p ?t ?o] =>
          destruct (Hblock ps a c m p t o) as [message ->]
      end. done.
    + intros -> [users ->] Hsystem. cbv zeta.
      unfold GetProcesses.
      destruct (systemProcesses env) as [unsorted|]; [|done].
      match goal with
      | |- context [order_block ?k ?ps ?a ?c ?m ?p ?t ?o] =>
          destruct (Hblock ps a c m p t o) as [message ->]
      end. by exists message.
Qed.

(** The fetch of the command name never reports an error: the sentinel ["?"]
    of [GenerateProcess] is never used. *)
Lemma ProcessCommandName_never_fails proc : fetch_failed proc AttrCommand = false.
Proof.
  unfold fetch_failed, ProcessFunctions.ProcessCommandName.
  destruct (OSProcess.Exe proc) as [[|c exe]|];
    destruct (OSProcess.CmdlineSlice proc) as [[|first rest]|];
    destruct (OSProcess.Name proc) as [[|c' name]|]; reflexivity.
Qed.

(** Every option that makes [GenerateProcess] fetch something. *)
Definition fetch_everything : DisplayOptions :=
  mkDisplayOptions EmptyString 0 false EmptyString false false EmptyString false false
    0 0 EmptyString false 0 0 true true true true true true true false false
    true true false [] false false false.

(** [GenerateProcess] returns a record for every process handle and every
    option set, whatever fetches fail.  For each attribute that it fetches
    under the options, the record holds the attribute's sentinel when that
    fetch failed and what that fetch returned when it did not,
    independently of the other fetches; an attribute that is not fetched is
    left at its zero value. *)
Lemma failed_fetch_degrades (roundFloat : float → Z → float) (proc : OSProcess)
    (miniOptions : DisplayOptions) (a : Attribute) :
  let p := GenerateProcess roundFloat proc miniOptions in
  if fetched miniOptions a then
    if fetch_failed proc a then holds_sentinel roundFloat p a
    else holds_fetched roundFloat proc p a
  else holds_zero roundFloat p a.
Proof.
  assert (Hcommand : ∀ r : result string,
            if failed r then or_sentinel "?"%string r = "?"%string
            else r = Ok (or_sentinel "?"%string r)).
  { by intros [out|]. }
  destruct a; cbn [fetched fetch_failed holds_sentinel holds_fetched holds_zero];
    unfold GenerateProcess; cbv zeta;
    destruct (ShowMemoryUsage miniOptions || eqb_string (OrderBy miniOptions) "mem"
              || eqb_string (ColorAttr miniOptions) "mem")%bool;
    cbn [Process.Args Process.Command Process.PPID Process.CPUPercent
         Process.CreateTime Process.GIDs Process.Groups Process.MemoryInfo
         Process.MemoryInfoEx Process.MemoryPercent Process.NumContextSwitches
         Process.NumThreads Process.PGID Process.Username Process.UIDs].
  (* arguments *)
  1,2: destruct (ProcessFunctions.ProcessArgs proc) as [out|]; cbn [failed or_sentinel];
       [by exists out|done].
  (* command *)
  1,2: apply Hcommand.
  (* parent PID *)
  1,2: by destruct (ProcessFunctions.ProcessPPID proc) as [out|].
  (* CPU percentage *)
  1,2: destruct (ShowCpuPercent miniOptions || _ || _)%bool; [|done];
       destruct (ProcessFunctions.ProcessCpuPercent proc) as [out|]; cbn [failed or_sentinel];
       [by exists out|done].
  (* creation time *)
  1,2: destruct (ShowProcessAge miniOptions || _ || _)%bool; [|done];
       by destruct (ProcessFunctions.ProcessCreateTime proc) as [out|].
  (* group ids, supplementary groups *)
  1,2: by destruct (ProcessFunctions.ProcessGIDs proc) as [out|].
  1,2: by destruct (ProcessFunctions.ProcessGroups proc) as [out|].
  (* memory information, extended memory information, memory percentage *)
  1: by destruct (ProcessFunctions.ProcessMemoryInfo proc) as [out|].
  1: done.
  1: by destruct (ProcessFunctions.ProcessMemoryInfoEx proc) as [out|].
  1: done.
  1: by destruct (ProcessFunctions.ProcessMemoryPercent proc) as [out|].
  1: done.
  (* context switches *)
  1,2: by destruct (ProcessFunctions.ProcessNumCtxSwitches proc) as [out|].
  (* threads *)
  1,2: destruct (ShowNumThreads miniOptions || _)%bool; [|done];
       by destruct (ProcessFunctions.ProcessNumThreads proc) as [out|].
  (* process group id *)
  1,2: destruct (ShowPGIDs miniOptions || _)%bool; [|done];
       destruct (ProcessFunctions.ProcessPGID proc) as [out|]; cbn [failed or_sentinel];
       [by exists out|done].
  (* owner *)
  1,2: destruct (ShowOwner miniOptions || _ || _)%bool; [|done];
       by destruct (ProcessFunctions.ProcessUsername proc) as [out|].
  (* user ids *)
  1,2: destruct (ShowUIDTransitions miniOptions || _)%bool; [|done];
       by destruct (ProcessFunctions.ProcessUIDs proc) as [out|].
Qed.

(** C9, as the claim states it, fails for the command: ["?"] is not what a
    failed fetch of the command leaves behind.  For a process whose
    executable path, command line and name all fail, the record's command
    is ["[PID 7]"]. *)
Lemma C9_command_has_no_sentinel :
  OSProcess.Exe (unreadable_os_process 7) = Err
  ∧ OSProcess.CmdlineSlice (unreadable_os_process 7) = Err
  ∧ OSProcess.Name (unreadable_os_process 7) = Err
  ∧ Process.Command
      (GenerateProcess (λ x _, x) (unreadable_os_process 7) fetch_everything)
    = "[PID 7]"%string
  ∧ Process.Command
      (GenerateProcess (λ x _, x) (unreadable_os_process 7) fetch_everything)
    ≠ "?"%string.
Proof. repeat split; try (vm_compute; reflexivity). vm_compute. discriminate. Qed.

(** C9, amended.  [GenerateProcess] returns a record for every process
    handle and every option set, whatever fetches fail.  For each attribute
    other than the command that it fetches under the options, the record
    holds the attribute's sentinel when that fetch failed and what that
    fetch returned when it did not, independently of the other fetches; an
    attribute that is not fetched is left at its zero value.  The fetch of
    the command never reports an error, so its sentinel ["?"] is never
    stored: the command is the executable path when that is available and
    not empty, else the first word of the command line, else the process
    name when that is available and not empty, else ["[PID n]"]. *)
Theorem C9_failed_fetch_degrades (roundFloat : float → Z → float) (proc : OSProcess)
    (miniOptions : DisplayOptions) :
  let p := GenerateProcess roundFloat proc miniOptions in
  (∀ a : Attribute, a ≠ AttrCommand →
     if fetched miniOptions a then
       if fetch_failed proc a then holds_sentinel roundFloat p a
       else holds_fetched roundFloat proc p a
     else holds_zero roundFloat p a)
  ∧ fetch_failed proc AttrCommand = false
  ∧ ProcessFunctions.ProcessCommandName proc = Ok (Process.Command p)
  ∧ Process.Command p
    = match OSProcess.Exe proc with
      | Ok (String c exe) => String c exe
      | _ =>
          match OSProcess.CmdlineSlice proc with
          | Ok (first :: _) => first
          | _ =>
              match OSProcess.Name proc with
              | Ok (String c name) => String c name
              | _ => "[PID " +:+ pretty (OSProcess.Pid proc) +:+ "]"
              end
          end
      end.
Proof.
  intros p. split; [|split; [|split]].
  - intros a _. apply (failed_fetch_degrades roundFloat proc miniOptions a).
  - apply ProcessCommandName_never_fails.
  - pose proof (failed_fetch_degrades roundFloat proc miniOptions AttrCommand) as Hc.
    cbv zeta in Hc. cbn [fetched] in Hc.
    by rewrite ProcessCommandName_never_fails in Hc.
  - pose proof (failed_fetch_degrades roundFloat proc miniOptions AttrCommand) as Hc.
    cbv zeta in Hc. cbn [fetched] in Hc.
    rewrite ProcessCommandName_never_fails in Hc. cbn [holds_fetched] in Hc.
    fold p in Hc. revert Hc. generalize (Process.Command p). intros command.
    unfold ProcessFunctions.ProcessCommandName.
    destruct (OSProcess.Exe proc) as [[|c exe]|];
      destruct (OSProcess.CmdlineSlice proc) as [[|first rest]|];
      destruct (OSProcess.Name proc) as [[|c' name]|]; by intros [= <-].
Qed.

(** A process none of whose fetches succeeds still yields a record, made
    of the sentinels (and of the fallback name of the command). *)
Example unreadable_process_record :
  GenerateProcess (λ x _, x) (unreadable_os_process 7) fetch_everything
  = {| Process.Age := 1700000101;
       Process.Args := [];
       Process.Child := -1;
       Process.Command := "[PID 7]";
       Process.CPUPercent := (-1)%float;
       Process.CreateTime := -1;
       Process.GIDs := [];
       Process.Groups := [];
       Process.MemoryInfo := Some MemoryInfoStat.zero;
       Process.MemoryInfoEx := Some MemoryInfoExStat.zero;
       Process.MemoryPercent := (-1)%float;
       Process.NumContextSwitches := Some NumCtxSwitchesStat.zero;
       Process.NumThreads := -1;
       Process.Parent := -1;
       Process.PGID := -1;
       Process.PID := 7;
       Process.PPID := -1;
       Process.Signature := EmptyString;
       Process.Sister := -1;
       Process.UIDs := [];
       Process.Username := "?" |}.
Proof. vm_compute. reflexivity. Qed.

From Stdlib Require OrderedTypeEx.
From stdpp Require Import sorting.
Local Open Scope Z_scope.

(** * [sort.Slice]: proofs *)

(** Facts about the quotients in the goal and the hypotheses, for [lia]. *)
Ltac div_facts :=
  repeat match goal with
  | |- context [(?n / ?d)%nat] =>
      pose proof (Nat.div_mod_eq n d);
      pose proof (Nat.mod_upper_bound n d ltac:(lia));
      generalize dependent (n / d)%nat; generalize dependent (n mod d)%nat; intros
  | H : context [(?n / ?d)%nat] |- _ =>
      pose proof (Nat.div_mod_eq n d);
      pose proof (Nat.mod_upper_bound n d ltac:(lia));
      generalize dependent (n / d)%nat; generalize dependent (n mod d)%nat; intros
  end.

Section SortFacts.
Context {A : Type} (less : A → A → bool).

Local Open Scope nat_scope.

Implicit Types (data : list A) (a b i j k : nat) (x y z p q : A).

(** ** Exchanging two positions *)

Lemma Swap_length data i j : length (Swap data i j) = length data.
Proof.
  unfold Swap. destruct (data !! i), (data !! j); try done.
  by rewrite !length_insert.
Qed.

Lemma Swap_lookup data i j k :
  i < length data → j < length data →
  Swap data i j !! k
  = if decide (k = i) then data !! j
    else if decide (k = j) then data !! i else data !! k.
Proof.
  intros Hi Hj. unfold Swap.
  destruct (lookup_lt_is_Some_2 data i Hi) as [x Hx].
  destruct (lookup_lt_is_Some_2 data j Hj) as [y Hy].
  rewrite Hx, Hy.
  destruct (decide (k = j)) as [->|Hkj].
  - rewrite list_lookup_insert_eq by (by rewrite length_insert).
    destruct (decide (j = i)) as [->|]; [congruence|done].
  - rewrite list_lookup_insert_ne by done.
    destruct (decide (k = i)) as [->|Hki].
    + by rewrite list_lookup_insert_eq.
    + by rewrite list_lookup_insert_ne.
Qed.

Lemma Swap_outside data i j k : k ≠ i → k ≠ j → Swap data i j !! k = data !! k.
Proof.
  intros Hi Hj. unfold Swap. destruct (data !! i), (data !! j); try done.
  by rewrite !list_lookup_insert_ne.
Qed.

Lemma Swap_Permutation data i j : data ≡ₚ Swap data i j.
Proof.
  destruct (decide (i < length data ∧ j < length data)) as [[Hi Hj]|Hout].
  - apply Permutation_inj. split; [by rewrite Swap_length|].
    exists (λ k, if decide (k = i) then j else if decide (k = j) then i else k).
    split.
    + intros k1 k2. repeat case_decide; lia.
    + intros k. rewrite Swap_lookup by done.
      repeat case_decide; subst; try done; lia.
  - unfold Swap.
    destruct (data !! i) as [x|] eqn:Hx; [|done].
    destruct (data !! j) as [y|] eqn:Hy; [|done].
    apply lookup_lt_Some in Hx, Hy. lia.
Qed.

(** ** Changes confined to a range of positions *)

(** [data'] rearranges [data] and leaves every position outside [a, b)
    as it was. *)
Definition local_perm a b data data' : Prop :=
  data ≡ₚ data' ∧ ∀ k, k < a ∨ b ≤ k → data' !! k = data !! k.

Lemma local_perm_refl a b data : local_perm a b data data.
Proof. by split. Qed.

Lemma local_perm_trans a b data1 data2 data3 :
  local_perm a b data1 data2 → local_perm a b data2 data3 → local_perm a b data1 data3.
Proof.
  intros [Hp1 Ho1] [Hp2 Ho2]. split; [by etrans|].
  intros k Hk. by rewrite Ho2, Ho1.
Qed.

Lemma local_perm_widen a b a' b' data data' :
  a' ≤ a → b ≤ b' → local_perm a b data data' → local_perm a' b' data data'.
Proof. intros Ha Hb [Hp Ho]. split; [done|]. intros k Hk. apply Ho. lia. Qed.

Lemma local_perm_length a b data data' :
  local_perm a b data data' → length data' = length data.
Proof. intros [Hp _]. by rewrite Hp. Qed.

Lemma local_perm_Swap a b data i j :
  a ≤ i < b → a ≤ j < b → local_perm a b data (Swap data i j).
Proof.
  intros Hi Hj. split; [apply Swap_Permutation|].
  intros k Hk. apply Swap_outside; lia.
Qed.

(** The elements at the positions [a, b). *)
Definition seg data a b : list A := take (b - a) (drop a data).

Lemma seg_split data a b : a ≤ b → data = take a data ++ seg data a b ++ drop b data.
Proof.
  intros Hab. unfold seg.
  rewrite <- (take_drop a data) at 1. f_equal.
  rewrite <- (take_drop (b - a) (drop a data)) at 1. f_equal.
  rewrite drop_drop. f_equal. lia.
Qed.

Lemma elem_of_seg data a b x :
  x ∈ seg data a b ↔ ∃ k, a ≤ k < b ∧ data !! k = Some x.
Proof.
  unfold seg. rewrite list_elem_of_lookup. split.
  - intros [k Hk]. apply lookup_take_Some in Hk as [Hk Hlt].
    rewrite lookup_drop in Hk. exists (a + k). split; [lia|done].
  - intros (k & Hk & Hx). exists (k - a). apply lookup_take_Some. split; [|lia].
    rewrite lookup_drop. by replace (a + (k - a)) with k by lia.
Qed.

Lemma local_perm_seg a b data data' :
  local_perm a b data data' → a ≤ b → seg data a b ≡ₚ seg data' a b.
Proof.
  intros [Hp Ho] Hab.
  rewrite (seg_split data a b Hab), (seg_split data' a b Hab) in Hp.
  assert (Htake : take a data' = take a data).
  { apply list_eq. intros k. destruct (decide (k < a)).
    - rewrite !lookup_take_lt by done. apply Ho. lia.
    - by rewrite !lookup_take_ge by lia. }
  assert (Hdrop : drop b data' = drop b data).
  { apply list_eq. intros k. rewrite !lookup_drop. apply Ho. lia. }
  rewrite Htake, Hdrop in Hp.
  apply Permutation_app_inv_l in Hp. by apply Permutation_app_inv_r in Hp.
Qed.

(** Every element at a position in [a, b) satisfies [P]. *)
Definition all_in data a b (P : A → Prop) : Prop :=
  ∀ k x, a ≤ k < b → data !! k = Some x → P x.

Lemma all_in_local_perm a b a' b' data data' (P : A → Prop) :
  local_perm a' b' data data' → a ≤ a' → b' ≤ b →
  all_in data a b P → all_in data' a b P.
Proof.
  intros Hlp Ha Hb Hall k x Hk Hx.
  destruct (decide (a' ≤ k < b')) as [Hin|Hout].
  - assert (Hseg : x ∈ seg data' a' b') by (apply elem_of_seg; eauto).
    rewrite <- (local_perm_seg _ _ _ _ Hlp) in Hseg by lia.
    apply elem_of_seg in Hseg as (k' & Hk' & Hx'). apply (Hall k' x); [lia|done].
  - destruct Hlp as [_ Ho]. rewrite Ho in Hx by lia. by apply (Hall k x).
Qed.

Lemma all_in_narrow a b a' b' data (P : A → Prop) :
  a ≤ a' → b' ≤ b → all_in data a b P → all_in data a' b' P.
Proof. intros Ha Hb Hall k x Hk. apply Hall. lia. Qed.

Lemma all_in_outside a b a' b' data data' (P : A → Prop) :
  local_perm a' b' data data' → b ≤ a' ∨ b' ≤ a →
  all_in data a b P → all_in data' a b P.
Proof.
  intros [_ Ho] Hdisj Hall k x Hk Hx. rewrite Ho in Hx by lia. by apply (Hall k x).
Qed.


(** ** What [less] has to be, and what sorted means *)

(** Go asks that [less] be a strict weak ordering: it is asymmetric, and
    "not less" is transitive. *)
Definition strict_weak_order (less : A → A → bool) : Prop :=
  (∀ x y, less x y = true → less y x = false)
  ∧ (∀ x y z, less y x = false → less z y = false → less z x = false).

(** No element at a later position in [a, b) is less than an earlier one. *)
Definition sorted_on data a b : Prop :=
  ∀ i j x y, a ≤ i → i < j → j < b →
    data !! i = Some x → data !! j = Some y → less y x = false.

Lemma sorted_on_short data a b : b ≤ a + 1 → sorted_on data a b.
Proof. intros Hb i j x y Hi Hij Hj. lia. Qed.

Lemma sorted_on_outside a b a' b' data data' :
  local_perm a' b' data data' → b ≤ a' ∨ b' ≤ a →
  sorted_on data a b → sorted_on data' a b.
Proof.
  intros [_ Ho] Hdisj Hs i j x y Hi Hij Hj Hx Hy.
  rewrite Ho in Hx, Hy by lia. by apply (Hs i j).
Qed.

Lemma Less_lookup data i j x y :
  data !! i = Some x → data !! j = Some y → Less less data i j = less x y.
Proof. intros Hx Hy. unfold Less. by rewrite Hx, Hy. Qed.

(** ** The scanning loops *)

Lemma scan_up_spec (test : nat → bool) n i :
  let i' := scan_up n test i in
  i ≤ i' ≤ i + n
  ∧ (∀ k, i ≤ k < i' → test k = true)
  ∧ (i' = i + n ∨ test i' = false).
Proof.
  revert i. induction n as [|n IH]; intros i; simpl.
  - split; [lia|]. split; [intros; lia|left; lia].
  - destruct (test i) eqn:Ht.
    + destruct (IH (S i)) as (Hb & Hall & Hend). split; [lia|]. split.
      * intros k Hk. destruct (decide (k = i)) as [->|]; [done|]. apply Hall. lia.
      * destruct Hend as [->|Hend]; [left; lia|by right].
    + split; [lia|]. split; [intros; lia|by right].
Qed.

Lemma scan_down_spec (test : nat → bool) n j :
  n ≤ j →
  let j' := scan_down n test j in
  j - n ≤ j' ≤ j
  ∧ (∀ k, j' < k ≤ j → test k = true)
  ∧ (j' = j - n ∨ test j' = false).
Proof.
  revert j. induction n as [|n IH]; intros j Hn; simpl.
  - split; [lia|]. split; [intros; lia|left; lia].
  - destruct (test j) eqn:Ht.
    + destruct (IH (j - 1)) as (Hb & Hall & Hend); [lia|]. split; [lia|]. split.
      * intros k Hk. destruct (decide (k = j)) as [->|]; [done|]. apply Hall. lia.
      * destruct Hend as [->|Hend]; [left; lia|by right].
    + split; [lia|]. split; [intros; lia|by right].
Qed.

(** ** Insertion sort *)

Lemma insertion_inner_frame n : ∀ data a j,
  n = j - a → local_perm a (j + 1) data (insertion_inner less n data j).
Proof.
  induction n as [|n IH]; intros data a j Hn; simpl; [apply local_perm_refl|].
  destruct (Less less data j (j - 1)); [|apply local_perm_refl].
  eapply local_perm_trans.
  - apply (local_perm_Swap a (j + 1) data j (j - 1)); lia.
  - eapply local_perm_widen; [| |apply (IH _ a (j - 1)); lia]; lia.
Qed.

Lemma insertion_outer_frame n : ∀ data a b i,
  a < i → n = b - i → local_perm a b data (insertion_outer less n data a i).
Proof.
  induction n as [|n IH]; intros data a b i Hi Hn; simpl; [apply local_perm_refl|].
  eapply local_perm_trans.
  - eapply local_perm_widen; [| |apply (insertion_inner_frame (i - a) data a i)];
      [lia|lia|done].
  - apply IH; lia.
Qed.

Lemma insertionSort_frame data a b :
  local_perm a b data (insertionSort_func less data a b).
Proof.
  unfold insertionSort_func.
  destruct (decide (a + 1 < b)).
  - apply insertion_outer_frame; lia.
  - replace (b - (a + 1)) with 0 by lia. apply local_perm_refl.
Qed.

(** ** Heap sort: where it writes *)

Lemma siftDown_frame fuel : ∀ data root hi first,
  hi - root < fuel →
  ∃ data', siftDown_func less fuel data root hi first = Some data'
           ∧ local_perm (first + root) (first + hi) data data'.
Proof.
  induction fuel as [|fuel IH]; intros data root hi first Hfuel; [lia|]. simpl.
  destruct (hi <=? root + (root + 0) + 1) eqn:Hchild.
  { exists data. split; [done|apply local_perm_refl]. }
  apply Nat.leb_gt in Hchild.
  set (child := if (root + (root + 0) + 1 + 1 <? hi)
                   && Less less data (first + (root + (root + 0) + 1))
                        (first + (root + (root + 0) + 1) + 1)
                then root + (root + 0) + 1 + 1 else root + (root + 0) + 1).
  assert (Hc : root < child < hi).
  { unfold child. destruct (_ <? _) eqn:Hlt; simpl.
    - apply Nat.ltb_lt in Hlt. destruct (Less _ _ _ _); lia.
    - lia. }
  clearbody child.
  destruct (Less less data (first + root) (first + child)); simpl.
  2:{ exists data. split; [done|apply local_perm_refl]. }
  destruct (IH (Swap data (first + root) (first + child)) child hi first)
    as (data' & Hrun & Hlp); [lia|].
  exists data'. split; [done|].
  eapply local_perm_trans.
  - apply (local_perm_Swap (first + root) (first + hi) data (first + root)
             (first + child)); lia.
  - eapply local_perm_widen; [| |exact Hlp]; lia.
Qed.

#[local] Arguments siftDown_func : simpl never.

Lemma heap_build_frame n : ∀ data hi first,
  ∃ data', heap_build less n data hi first = Some data'
           ∧ local_perm first (first + hi) data data'.
Proof.
  induction n as [|i IH]; intros data hi first; simpl.
  { exists data. split; [done|apply local_perm_refl]. }
  destruct (siftDown_frame (S hi) data i hi first) as (data1 & Hrun & Hlp); [lia|].
  rewrite Hrun. simpl.
  destruct (IH data1 hi first) as (data2 & Hrun2 & Hlp2).
  exists data2. split; [done|].
  eapply local_perm_trans; [|exact Hlp2].
  eapply local_perm_widen; [| |exact Hlp]; lia.
Qed.

Lemma heap_pop_frame n : ∀ data first,
  ∃ data', heap_pop less n data first = Some data'
           ∧ local_perm first (first + n) data data'.
Proof.
  induction n as [|i IH]; intros data first; simpl.
  { exists data. split; [done|apply local_perm_refl]. }
  destruct (siftDown_frame (S i) (Swap data first (first + i)) 0 i first)
    as (data1 & Hrun & Hlp); [lia|].
  rewrite Hrun. simpl.
  destruct (IH data1 first) as (data2 & Hrun2 & Hlp2).
  exists data2. split; [done|].
  eapply local_perm_trans;
    [apply (local_perm_Swap first (first + S i) data first (first + i)); lia|].
  eapply local_perm_trans.
  - eapply local_perm_widen; [| |exact Hlp]; lia.
  - eapply local_perm_widen; [| |exact Hlp2]; lia.
Qed.

Lemma heapSort_frame data a b :
  a ≤ b →
  ∃ data', heapSort_func less data a b = Some data' ∧ local_perm a b data data'.
Proof.
  intros Hab. unfold heapSort_func.
  destruct (heap_build_frame ((b - a - 1) / 2 + 1) data (b - a) a)
    as (data1 & Hrun1 & Hlp1).
  rewrite Hrun1. simpl.
  destruct (heap_pop_frame (b - a) data1 a) as (data2 & Hrun2 & Hlp2).
  exists data2. split; [done|].
  replace (a + (b - a)) with b in * by lia.
  by eapply local_perm_trans.
Qed.

(** [c] is one of the two children of the heap node [k]. *)
Definition is_child (k c : nat) : Prop := c = 2 * k + 1 ∨ c = 2 * k + 2.

(** Below [hi], no node from [lo] on is less than a child of its. *)
Definition heap_from data (first lo hi : nat) : Prop :=
  ∀ k (c : nat) x y, lo ≤ k → is_child k c → c < hi →
    data !! (first + k) = Some x → data !! (first + c) = Some y → less x y = false.

(** The same, except possibly at the node [root]. *)
Definition heap_except data (first lo root hi : nat) : Prop :=
  ∀ k (c : nat) x y, lo ≤ k → k ≠ root → is_child k c → c < hi →
    data !! (first + k) = Some x → data !! (first + c) = Some y → less x y = false.

(** The parent of [root] is not less than a child of [root]. *)
Definition grands_ok data (first lo root hi : nat) : Prop :=
  ∀ (parent : nat) c x y, lo ≤ parent → is_child parent root → is_child root c → c < hi →
    data !! (first + parent) = Some x → data !! (first + c) = Some y → less x y = false.

Lemma siftDown_unfold fuel data root hi first :
  siftDown_func less (S fuel) data root hi first
  = let child := 2 * root + 1 in
    if hi <=? child then Some data else
    let child :=
      if (child + 1 <? hi) && Less less data (first + child) (first + child + 1)
      then child + 1 else child in
    if negb (Less less data (first + root) (first + child)) then Some data else
    siftDown_func less fuel (Swap data (first + root) (first + child)) child hi first.
Proof. reflexivity. Qed.

Section Ordered.
Hypothesis Hless : strict_weak_order less.

Lemma less_asym x y : less x y = true → less y x = false.
Proof. apply Hless. Qed.

Lemma le_trans x y z : less y x = false → less z y = false → less z x = false.
Proof. apply Hless. Qed.

Lemma less_irrefl x : less x x = false.
Proof.
  destruct (less x x) eqn:Hx; [|done]. by rewrite (less_asym x x Hx) in Hx.
Qed.

Lemma lt_le_trans x y z : less x y = true → less z y = false → less x z = true.
Proof.
  intros Hxy Hyz. destruct (less x z) eqn:Hxz; [done|].
  by rewrite (le_trans y z x Hyz Hxz) in Hxy.
Qed.

Lemma le_lt_trans x y z : less y x = false → less y z = true → less x z = true.
Proof.
  intros Hxy Hyz. destruct (less x z) eqn:Hxz; [done|].
  by rewrite (le_trans z x y Hxz Hxy) in Hyz.
Qed.

Lemma lt_trans x y z : less x y = true → less y z = true → less x z = true.
Proof. intros Hxy Hyz. eapply le_lt_trans; [|done]. by apply less_asym. Qed.

(** The element at [j] moves down through the sorted positions below it:
    everything but [j] is in order, and [j] is less than all it has passed. *)
Lemma insertion_inner_sorted n : ∀ data a j hi,
  n = j - a → a ≤ j ≤ hi → hi < length data →
  (∀ i1 i2 x y, a ≤ i1 → i1 < i2 → i2 ≤ hi → i1 ≠ j → i2 ≠ j →
     data !! i1 = Some x → data !! i2 = Some y → less y x = false) →
  (∀ i2 x y, j < i2 ≤ hi → data !! j = Some x → data !! i2 = Some y →
     less x y = true) →
  sorted_on (insertion_inner less n data j) a (hi + 1).
Proof.
  induction n as [|n IH]; intros data a j hi Hn Hj Hhi Hrest Hpassed; simpl.
  - (* j = a *)
    intros i1 i2 x y Hi1 Hi12 Hi2 Hx Hy.
    destruct (decide (i1 = j)) as [->|Hne].
    + apply less_asym. apply (Hpassed i2 x y); [lia|done|done].
    + apply (Hrest i1 i2 x y); try done; lia.
  - destruct (lookup_lt_is_Some_2 data j ltac:(lia)) as [xj Hxj].
    destruct (lookup_lt_is_Some_2 data (j - 1) ltac:(lia)) as [xp Hxp].
    rewrite (Less_lookup data j (j - 1) xj xp Hxj Hxp).
    destruct (less xj xp) eqn:Hlt.
    + apply (IH _ a (j - 1) hi); [lia|lia|by rewrite Swap_length|..].
      * intros i1 i2 x y Hi1 Hi12 Hi2 Hn1 Hn2.
        rewrite !Swap_lookup by lia.
        repeat case_decide; subst; try lia; intros Hx Hy.
        -- apply (Hrest (j - 1) i2 x y); try done; lia.
        -- apply (Hrest i1 (j - 1) x y); try done; lia.
        -- apply (Hrest i1 i2 x y); try done; lia.
      * intros i2 x y Hi2. rewrite !Swap_lookup by lia.
        repeat case_decide; subst; try lia; intros Hx Hy.
        -- congruence.
        -- apply (Hpassed i2 x y); [lia|congruence|done].
    + intros i1 i2 x y Hi1 Hi12 Hi2 Hx Hy.
      destruct (decide (i1 = j)) as [->|Hne1].
      * apply less_asym. apply (Hpassed i2 x y); [lia|done|done].
      * destruct (decide (i2 = j)) as [->|Hne2].
        -- replace y with xj by congruence.
           destruct (decide (i1 = j - 1)) as [->|Hne3]; [congruence|].
           apply (le_trans x xp xj); [|done].
           apply (Hrest i1 (j - 1) x xp); try done; lia.
        -- apply (Hrest i1 i2 x y); try done; lia.
Qed.

Lemma insertion_outer_sorted n : ∀ data a b i,
  a < i → n = b - i → i ≤ b → b ≤ length data → sorted_on data a i →
  sorted_on (insertion_outer less n data a i) a b.
Proof.
  induction n as [|n IH]; intros data a b i Hi Hn Hib Hb Hs; simpl.
  - by replace b with i by lia.
  - apply IH; [lia|lia|lia| |].
    + rewrite (local_perm_length a (i + 1) data); [done|].
      by apply insertion_inner_frame.
    + replace (S i) with (i + 1) by lia.
      apply (insertion_inner_sorted (i - a) data a i i); [done|lia|lia| |].
      * intros i1 i2 x y Hi1 Hi12 Hi2 Hn1 Hn2. apply (Hs i1 i2 x y); lia.
      * intros i2 x y Hi2. lia.
Qed.

Lemma insertionSort_sorted data a b :
  b ≤ length data → sorted_on (insertionSort_func less data a b) a b.
Proof.
  intros Hb. unfold insertionSort_func.
  destruct (decide (a + 1 < b)).
  - apply insertion_outer_sorted; [lia|lia|lia|done|].
    apply sorted_on_short. lia.
  - apply sorted_on_short. lia.
Qed.


(** ** Heap sort: what it achieves *)

Ltac side := first [done | lia | congruence | unfold is_child in *; lia].

(** Two names for the element at one position. *)
Ltac elt_eq :=
  match goal with
  | Hx : ?d !! ?e1 = Some ?x, Hy : ?d !! ?e2 = Some ?y |- ?x = ?y =>
      let Heq := fresh in
      assert (e1 = e2) as Heq by lia;
      first [ congruence | rewrite Heq in Hx; congruence ]
  end.

Lemma siftDown_heap fuel : ∀ data root hi first lo data',
  first + hi ≤ length data → lo ≤ root →
  siftDown_func less fuel data root hi first = Some data' →
  heap_except data first lo root hi → grands_ok data first lo root hi →
  heap_from data' first lo hi.
Proof.
  induction fuel as [|fuel IH]; intros data root hi first lo data' Hlen Hlo Hrun Hexc Hgr;
    [done|].
  rewrite siftDown_unfold in Hrun. cbv zeta in Hrun.
  destruct (hi <=? 2 * root + 1) eqn:Hchild.
  { injection Hrun as <-. apply Nat.leb_le in Hchild.
    intros k c x y Hk Hkc Hc. destruct (decide (k = root)) as [->|Hne].
    - unfold is_child in Hkc. lia.
    - by apply (Hexc k c x y). }
  apply Nat.leb_gt in Hchild.
  destruct (lookup_lt_is_Some_2 data (first + root) ltac:(lia)) as [xr Hxr].
  set (chosen := if (2 * root + 1 + 1 <? hi)
                    && Less less data (first + (2 * root + 1)) (first + (2 * root + 1) + 1)
                 then 2 * root + 1 + 1 else 2 * root + 1) in Hrun.
  assert (Hchosen : is_child root chosen ∧ chosen < hi
    ∧ ∀ c x y, is_child root c → c < hi →
        data !! (first + chosen) = Some x → data !! (first + c) = Some y →
        less x y = false).
  { unfold chosen, is_child.
    destruct (2 * root + 1 + 1 <? hi) eqn:Hlt; cbn [andb].
    - apply Nat.ltb_lt in Hlt.
      destruct (lookup_lt_is_Some_2 data (first + (2 * root + 1)) ltac:(lia))
        as [x1 Hx1].
      destruct (lookup_lt_is_Some_2 data (first + (2 * root + 1) + 1) ltac:(lia))
        as [x2 Hx2].
      rewrite (Less_lookup _ _ _ _ _ Hx1 Hx2).
      destruct (less x1 x2) eqn:H12.
      + split; [lia|]. split; [lia|]. intros c x y [->| ->] Hc Hx Hy.
        * replace (first + (2 * root + 1 + 1)) with (first + (2 * root + 1) + 1)
            in Hx by lia.
          replace x with x2 by congruence. replace y with x1 by congruence.
          by apply less_asym.
        * replace (first + (2 * root + 2)) with (first + (2 * root + 1 + 1)) in Hy
            by lia.
          replace y with x by congruence. apply less_irrefl.
      + split; [lia|]. split; [lia|]. intros c x y [->| ->] Hc Hx Hy.
        * replace y with x by congruence. apply less_irrefl.
        * replace (first + (2 * root + 2)) with (first + (2 * root + 1) + 1) in Hy
            by lia.
          replace x with x1 by congruence. replace y with x2 by congruence. done.
    - apply Nat.ltb_ge in Hlt. split; [lia|]. split; [lia|].
      intros c x y [->| ->] Hc Hx Hy; [|lia].
      replace y with x by congruence. apply less_irrefl. }
  clearbody chosen. destruct Hchosen as (Hcc & Hchi & Hmax).
  destruct (lookup_lt_is_Some_2 data (first + chosen) ltac:(lia)) as [xc Hxc].
  rewrite (Less_lookup _ _ _ _ _ Hxr Hxc) in Hrun.
  destruct (less xr xc) eqn:Hrc; simpl in Hrun.
  - (* the root goes down *)
    apply (IH (Swap data (first + root) (first + chosen)) chosen hi first lo data');
      [by rewrite Swap_length| |done|..].
    + unfold is_child in Hcc. lia.
    + intros k c x y Hk Hne Hkc Hc.
      rewrite !Swap_lookup by lia.
      unfold is_child in Hcc, Hkc.
      repeat case_decide; try lia; intros Hx Hy;
        first
          [ solve [ replace x with xc by congruence; replace y with xr by congruence;
                    by apply less_asym ]
          | solve [ assert (k = root) as -> by lia; apply (Hmax c x y); side ]
          | solve [ assert (c = root) as -> by lia; apply (Hgr k chosen x y); side ]
          | solve [ apply (Hexc k c x y); side ] ].
    + intros p c x y Hp Hpc Hcc' Hc.
      rewrite !Swap_lookup by lia.
      unfold is_child in Hcc, Hpc, Hcc'.
      repeat case_decide; try lia; intros Hx Hy.
      apply (Hexc chosen c x y); side.
  - (* the root stays *)
    injection Hrun as <-.
    intros k c x y Hk Hkc Hc Hx Hy. destruct (decide (k = root)) as [->|Hne].
    + replace x with xr by congruence.
      destruct (lookup_lt_is_Some_2 data (first + c) ltac:(lia)) as [yc Hyc].
      apply (le_trans y xc xr); [|done]. by apply (Hmax c xc y).
    + by apply (Hexc k c x y).
Qed.

(** The top of a heap is not less than any of its nodes. *)
Lemma heap_top data first n k x0 x :
  first + n ≤ length data → heap_from data first 0 n → k < n →
  data !! first = Some x0 → data !! (first + k) = Some x → less x0 x = false.
Proof.
  intros Hlen Hheap. revert x.
  induction k as [k IH] using lt_wf_ind. intros x Hk Hx0 Hx.
  destruct (decide (k = 0)) as [->|Hne].
  - replace (first + 0) with first in Hx by lia.
    replace x with x0 by congruence. apply less_irrefl.
  - destruct (lookup_lt_is_Some_2 data (first + (k - 1) / 2)) as [xp Hxp].
    { div_facts. lia. }
    apply (le_trans x xp x0).
    + apply (Hheap ((k - 1) / 2) k xp x); try done; [lia|].
      unfold is_child. div_facts. lia.
    + apply (IH ((k - 1) / 2)); try done; div_facts; lia.
Qed.

Lemma heap_build_heap n : ∀ data hi first data',
  first + hi ≤ length data →
  heap_build less n data hi first = Some data' →
  heap_from data first n hi → heap_from data' first 0 hi.
Proof.
  induction n as [|i IH]; intros data hi first data' Hlen Hrun Hheap; simpl in Hrun.
  { by injection Hrun as <-. }
  destruct (siftDown_frame (S hi) data i hi first) as (data1 & Hrun1 & Hlp1); [lia|].
  rewrite Hrun1 in Hrun. simpl in Hrun.
  apply (IH data1 hi first data'); [|done|].
  - by rewrite (local_perm_length _ _ _ _ Hlp1).
  - apply (siftDown_heap (S hi) data i hi first i data1); try done.
    + intros k c x y Hk Hne. apply Hheap. lia.
    + intros p c x y Hp Hpi. unfold is_child in Hpi. lia.
Qed.

Lemma heap_pop_sorted n : ∀ data first hi data',
  first + hi ≤ length data → n ≤ hi →
  heap_pop less n data first = Some data' →
  heap_from data first 0 n →
  sorted_on data (first + n) (first + hi) →
  (∀ i1 i2 x y, first ≤ i1 < first + n → first + n ≤ i2 < first + hi →
     data !! i1 = Some x → data !! i2 = Some y → less y x = false) →
  sorted_on data' first (first + hi).
Proof.
  induction n as [|i IH]; intros data first hi data' Hlen Hn Hrun Hheap Hsorted Hcross;
    simpl in Hrun.
  { injection Hrun as <-. by replace (first + 0) with first in Hsorted by lia. }
  destruct (siftDown_frame (S i) (Swap data first (first + i)) 0 i first)
    as (data2 & Hrun2 & Hlp2); [lia|].
  rewrite Hrun2 in Hrun. simpl in Hrun.
  replace (first + 0) with first in Hlp2 by lia.
  destruct (lookup_lt_is_Some_2 data first ltac:(lia)) as [x0 Hx0].
  assert (Htop : ∀ i1 x, first ≤ i1 < first + S i → data !! i1 = Some x →
                   less x0 x = false).
  { intros i1 x Hi1 Hx.
    apply (heap_top data first (S i) (i1 - first) x0 x); try done; try lia.
    by replace (first + (i1 - first)) with i1 by lia. }
  apply (IH data2 first hi data'); [|lia|done|..].
  - rewrite (local_perm_length _ _ _ _ Hlp2), Swap_length. lia.
  - apply (siftDown_heap (S i) (Swap data first (first + i)) 0 i first 0 data2);
      [rewrite Swap_length; lia|lia|done|..].
    + intros k c x y Hk Hne Hkc Hc. rewrite !Swap_lookup by lia.
      unfold is_child in Hkc. repeat case_decide; try lia.
      apply Hheap; [lia|done|lia].
    + intros parent c x y Hp Hp0. unfold is_child in Hp0. lia.
  - eapply sorted_on_outside; [exact Hlp2|lia|].
    intros i1 i2 x y Hi1 Hi12 Hi2. rewrite !Swap_lookup by lia.
    repeat case_decide; try lia; intros Hx Hy;
      first
        [ solve [ assert (x = x0) as -> by elt_eq;
                  apply (Hcross first i2 x0 y); side ]
        | solve [ apply (Hsorted i1 i2 x y); side ] ].
  - intros i1 i2 x y Hi1 Hi2 Hx Hy.
    revert i2 y Hi2 Hy.
    apply (all_in_local_perm first (first + i) first (first + i)
             (Swap data first (first + i)) data2
             (λ x, ∀ i2 y, first + i ≤ i2 < first + hi → data2 !! i2 = Some y →
                     less y x = false)
             Hlp2) with (k := i1); [lia|lia| |lia|done].
    intros k' x' Hk' Hx' i2 y Hi2.
    destruct Hlp2 as [_ Ho]. rewrite Ho by lia.
    revert Hx'. rewrite !Swap_lookup by lia.
    repeat case_decide; try lia; intros Hx' Hy;
      first
        [ solve [ assert (y = x0) as -> by elt_eq; eapply Htop; [|eassumption]; lia ]
        | solve [ eapply Hcross; [| |eassumption|eassumption]; lia ] ].
Qed.

Lemma heapSort_sorted data a b data' :
  a ≤ b → b ≤ length data →
  heapSort_func less data a b = Some data' → sorted_on data' a b.
Proof.
  intros Hab Hlen. unfold heapSort_func.
  destruct (heap_build_frame ((b - a - 1) / 2 + 1) data (b - a) a)
    as (data1 & Hrun1 & Hlp1).
  rewrite Hrun1. simpl. intros Hrun.
  replace (sorted_on data' a b) with (sorted_on data' a (a + (b - a)))
    by (f_equal; lia).
  apply (heap_pop_sorted (b - a) data1 a (b - a) data'); [|lia|done|..].
  - rewrite (local_perm_length _ _ _ _ Hlp1). lia.
  - apply (heap_build_heap ((b - a - 1) / 2 + 1) data (b - a) a data1); [lia|done|].
    intros k c x y Hk Hkc Hc. unfold is_child in Hkc. div_facts. lia.
  - intros i j x y. lia.
  - intros i1 i2 x y Hi1 Hi2. lia.
Qed.

End Ordered.

End SortFacts.

(** * [sort.Slice]: the quicksort *)

Section PdqFacts.
Context {A : Type} (less : A → A → bool).

Local Open Scope nat_scope.

Implicit Types (data : list A) (a b i j k : nat) (x y z p q : A).

(** ** Partitioning around a pivot *)

Lemma partition_loop_unfold fuel data a i j :
  partition_loop less (S fuel) data a i j
  = let i := scan_up (j + 1 - i) (λ i, Less less data i a) i in
    let j := scan_down (j + 1 - i) (λ j, negb (Less less data j a)) j in
    if j <? i then Some (i, j, data) else
    partition_loop less fuel (Swap data i j) a (S i) (j - 1).
Proof. reflexivity. Qed.

(** The pivot [p] waits at [a]; what lies before [i] is less than [p], what
    lies after [j] is not.  The loop ends with the two regions meeting. *)
Lemma partition_loop_spec fuel : ∀ data a b i j p,
  j + 1 - i < fuel → a < i → i ≤ j + 1 → j < b → b ≤ length data →
  data !! a = Some p →
  all_in data (a + 1) i (λ x, less x p = true) →
  all_in data (j + 1) b (λ x, less x p = false) →
  ∃ i' j' data',
    partition_loop less fuel data a i j = Some (i', j', data')
    ∧ i' = j' + 1 ∧ a ≤ j' < b
    ∧ local_perm (a + 1) b data data'
    ∧ all_in data' (a + 1) i' (λ x, less x p = true)
    ∧ all_in data' i' b (λ x, less x p = false).
Proof.
  induction fuel as [|fuel IH];
    intros data a b i j p Hfuel Hai Hij Hjb Hlen Hp Hleft Hright; [lia|].
  rewrite partition_loop_unfold. cbv zeta.
  pose proof (scan_up_spec (λ i, Less less data i a) (j + 1 - i) i) as Hup.
  cbv zeta in Hup.
  set (i1 := scan_up (j + 1 - i) (λ i, Less less data i a) i) in *.
  destruct Hup as (Hi1 & Hup & Hupend).
  pose proof (scan_down_spec (λ j, negb (Less less data j a)) (j + 1 - i1) j
                ltac:(lia)) as Hdn.
  cbv zeta in Hdn.
  set (j1 := scan_down (j + 1 - i1) (λ j, negb (Less less data j a)) j) in *.
  destruct Hdn as (Hj1 & Hdn & Hdnend).
  clearbody i1 j1.
  assert (Hleft1 : all_in data (a + 1) i1 (λ x, less x p = true)).
  { intros k x Hk Hx. destruct (decide (k < i)) as [Hlt|Hge].
    - apply (Hleft k x); [lia|done].
    - rewrite <- (Less_lookup less data k a x p Hx Hp). apply Hup. lia. }
  assert (Hright1 : all_in data (j1 + 1) b (λ x, less x p = false)).
  { intros k x Hk Hx. destruct (decide (j < k)) as [Hlt|Hge].
    - apply (Hright k x); [lia|done].
    - rewrite <- (Less_lookup less data k a x p Hx Hp).
      apply negb_true_iff. apply Hdn. lia. }
  destruct (j1 <? i1) eqn:Hcmp.
  - apply Nat.ltb_lt in Hcmp. exists i1, j1, data.
    split; [done|]. split; [lia|]. split; [lia|]. split; [apply local_perm_refl|].
    split; [done|]. by replace i1 with (j1 + 1) by lia.
  - apply Nat.ltb_ge in Hcmp.
    destruct (lookup_lt_is_Some_2 data i1 ltac:(lia)) as [xi Hxi].
    destruct (lookup_lt_is_Some_2 data j1 ltac:(lia)) as [xj Hxj].
    assert (Hxip : less xi p = false).
    { rewrite <- (Less_lookup less data i1 a xi p Hxi Hp).
      destruct Hupend as [?|Hend]; [lia|done]. }
    assert (Hxjp : less xj p = true).
    { rewrite <- (Less_lookup less data j1 a xj p Hxj Hp).
      destruct Hdnend as [?|Hend]; [lia|]. by apply negb_false_iff in Hend. }
    assert (Hne : i1 ≠ j1) by (intros ->; congruence).
    destruct (IH (Swap data i1 j1) a b (S i1) (j1 - 1) p) as
      (i' & j' & data' & Hrun & Hij' & Hj' & Hlp & Hl' & Hr');
      [lia|lia|lia|lia|by rewrite Swap_length| | | |].
    + rewrite Swap_outside by lia. done.
    + intros k x Hk. rewrite Swap_lookup by lia.
      repeat case_decide; try lia; intros Hx.
      * congruence.
      * apply (Hleft1 k x); [lia|done].
    + intros k x Hk. rewrite Swap_lookup by lia.
      repeat case_decide; try lia; intros Hx.
      * congruence.
      * apply (Hright1 k x); [lia|done].
    + exists i', j', data'. split; [done|]. split; [done|]. split; [done|].
      split; [|done].
      eapply local_perm_trans; [|exact Hlp].
      apply (local_perm_Swap (a + 1) b data i1 j1); lia.
Qed.

#[local] Arguments partition_loop : simpl never.

(** The first round of [partition_func] is a round of its loop. *)
Lemma partition_func_loop data a b pivot i j d :
  partition_loop less (S (b - a)) (Swap data a pivot) a (a + 1) (b - 1)
    = Some (i, j, d) →
  ∃ flag, partition_func less data a b pivot = Some (j, flag, Swap d j a).
Proof.
  rewrite partition_loop_unfold. unfold partition_func. cbv zeta.
  destruct (_ <? _) eqn:Hcmp.
  - intros [= <- <- <-]. by eexists.
  - intros ->. simpl. by eexists.
Qed.

(** [partition_func] returns: the pivot element ends at [mid], with the
    elements less than it before and the others after. *)
Lemma partition_spec data a b pivot :
  a < b → b ≤ length data → a ≤ pivot < b →
  ∃ mid flag data',
    partition_func less data a b pivot = Some (mid, flag, data')
    ∧ a ≤ mid < b ∧ local_perm a b data data'
    ∧ ∃ p, data' !! mid = Some p
        ∧ all_in data' a mid (λ x, less x p = true)
        ∧ all_in data' (mid + 1) b (λ x, less x p = false).
Proof.
  intros Hab Hlen Hpivot.
  destruct (lookup_lt_is_Some_2 (Swap data a pivot) a) as [p Hp].
  { rewrite Swap_length. lia. }
  destruct (partition_loop_spec (S (b - a)) (Swap data a pivot) a b (a + 1) (b - 1) p)
    as (i' & j' & d & Hrun & Hij' & Hj' & Hlp & Hl & Hr);
    [lia|lia|lia|lia|by rewrite Swap_length|done| | |].
  { intros k x Hk. lia. }
  { intros k x Hk. lia. }
  destruct (partition_func_loop data a b pivot i' j' d Hrun) as [flag Hfun].
  exists j', flag, (Swap d j' a). split; [done|]. split; [done|].
  assert (Hlend : length d = length data).
  { by rewrite (local_perm_length _ _ _ _ Hlp), Swap_length. }
  assert (Hpa : d !! a = Some p).
  { destruct Hlp as [_ Ho]. rewrite Ho by lia. done. }
  split.
  - eapply local_perm_trans;
      [apply (local_perm_Swap a b data a pivot); lia|].
    eapply local_perm_trans.
    + eapply local_perm_widen; [| |exact Hlp]; lia.
    + apply (local_perm_Swap a b d j' a); lia.
  - exists p. split; [|split].
    + rewrite Swap_lookup by lia. by rewrite decide_True.
    + intros k x Hk. rewrite Swap_lookup by lia.
      repeat case_decide; try lia; intros Hx.
      * apply (Hl j' x); [lia|done].
      * apply (Hl k x); [lia|done].
    + intros k x Hk. rewrite Swap_lookup by lia.
      repeat case_decide; try lia; intros Hx.
      apply (Hr k x); [lia|done].
Qed.

(** ** Partitioning off the elements equal to the pivot *)

Lemma partitionEqual_loop_unfold fuel data a i j :
  partitionEqual_loop less (S fuel) data a i j
  = let i := scan_up (j + 1 - i) (λ i, negb (Less less data a i)) i in
    let j := scan_down (j + 1 - i) (λ j, Less less data a j) j in
    if j <? i then Some (i, data) else
    partitionEqual_loop less fuel (Swap data i j) a (S i) (j - 1).
Proof. reflexivity. Qed.

Lemma partitionEqual_loop_spec fuel : ∀ data a b i j p,
  j + 1 - i < fuel → a < i → i ≤ j + 1 → j < b → b ≤ length data →
  data !! a = Some p →
  all_in data (a + 1) i (λ x, less p x = false) →
  all_in data (j + 1) b (λ x, less p x = true) →
  ∃ i' data',
    partitionEqual_loop less fuel data a i j = Some (i', data')
    ∧ a < i' ≤ b
    ∧ local_perm (a + 1) b data data'
    ∧ all_in data' (a + 1) i' (λ x, less p x = false)
    ∧ all_in data' i' b (λ x, less p x = true).
Proof.
  induction fuel as [|fuel IH];
    intros data a b i j p Hfuel Hai Hij Hjb Hlen Hp Hleft Hright; [lia|].
  rewrite partitionEqual_loop_unfold. cbv zeta.
  pose proof (scan_up_spec (λ i, negb (Less less data a i)) (j + 1 - i) i) as Hup.
  cbv zeta in Hup.
  set (i1 := scan_up (j + 1 - i) (λ i, negb (Less less data a i)) i) in *.
  destruct Hup as (Hi1 & Hup & Hupend).
  pose proof (scan_down_spec (λ j, Less less data a j) (j + 1 - i1) j
                ltac:(lia)) as Hdn.
  cbv zeta in Hdn.
  set (j1 := scan_down (j + 1 - i1) (λ j, Less less data a j) j) in *.
  destruct Hdn as (Hj1 & Hdn & Hdnend).
  clearbody i1 j1.
  assert (Hleft1 : all_in data (a + 1) i1 (λ x, less p x = false)).
  { intros k x Hk Hx. destruct (decide (k < i)) as [Hlt|Hge].
    - apply (Hleft k x); [lia|done].
    - rewrite <- (Less_lookup less data a k p x Hp Hx).
      apply negb_true_iff. apply Hup. lia. }
  assert (Hright1 : all_in data (j1 + 1) b (λ x, less p x = true)).
  { intros k x Hk Hx. destruct (decide (j < k)) as [Hlt|Hge].
    - apply (Hright k x); [lia|done].
    - rewrite <- (Less_lookup less data a k p x Hp Hx). apply Hdn. lia. }
  destruct (j1 <? i1) eqn:Hcmp.
  - apply Nat.ltb_lt in Hcmp. exists i1, data.
    split; [done|]. split; [lia|]. split; [apply local_perm_refl|].
    split; [done|]. by replace i1 with (j1 + 1) by lia.
  - apply Nat.ltb_ge in Hcmp.
    destruct (lookup_lt_is_Some_2 data i1 ltac:(lia)) as [xi Hxi].
    destruct (lookup_lt_is_Some_2 data j1 ltac:(lia)) as [xj Hxj].
    assert (Hxip : less p xi = true).
    { rewrite <- (Less_lookup less data a i1 p xi Hp Hxi).
      destruct Hupend as [?|Hend]; [lia|]. by apply negb_false_iff in Hend. }
    assert (Hxjp : less p xj = false).
    { rewrite <- (Less_lookup less data a j1 p xj Hp Hxj).
      destruct Hdnend as [?|Hend]; [lia|done]. }
    assert (Hne : i1 ≠ j1) by (intros ->; congruence).
    destruct (IH (Swap data i1 j1) a b (S i1) (j1 - 1) p) as
      (i' & data' & Hrun & Hi' & Hlp & Hl' & Hr');
      [lia|lia|lia|lia|by rewrite Swap_length| | | |].
    + rewrite Swap_outside by lia. done.
    + intros k x Hk. rewrite Swap_lookup by lia.
      repeat case_decide; try lia; intros Hx.
      * congruence.
      * apply (Hleft1 k x); [lia|done].
    + intros k x Hk. rewrite Swap_lookup by lia.
      repeat case_decide; try lia; intros Hx.
      * congruence.
      * apply (Hright1 k x); [lia|done].
    + exists i', data'. split; [done|]. split; [done|]. split; [|done].
      eapply local_perm_trans; [|exact Hlp].
      apply (local_perm_Swap (a + 1) b data i1 j1); lia.
Qed.

#[local] Arguments partitionEqual_loop : simpl never.

(** [partitionEqual_func] returns: the pivot element is at [a], the elements
    it is not less than are before [mid], and the others from [mid] on. *)
Lemma partitionEqual_spec data a b pivot :
  a < b → b ≤ length data → a ≤ pivot < b →
  ∃ mid data',
    partitionEqual_func less data a b pivot = Some (mid, data')
    ∧ a < mid ≤ b ∧ local_perm a b data data'
    ∧ ∃ p, data !! pivot = Some p ∧ data' !! a = Some p
        ∧ all_in data' (a + 1) mid (λ x, less p x = false)
        ∧ all_in data' mid b (λ x, less p x = true).
Proof.
  intros Hab Hlen Hpivot.
  destruct (lookup_lt_is_Some_2 data pivot ltac:(lia)) as [p Hp].
  assert (Hpa : Swap data a pivot !! a = Some p).
  { rewrite Swap_lookup by lia. by rewrite decide_True. }
  destruct (partitionEqual_loop_spec (b - a) (Swap data a pivot) a b (a + 1) (b - 1) p)
    as (i' & d & Hrun & Hi' & Hlp & Hl & Hr);
    [lia|lia|lia|lia|by rewrite Swap_length|done| | |].
  { intros k x Hk. lia. }
  { intros k x Hk. lia. }
  exists i', d. split; [done|]. split; [done|]. split.
  - eapply local_perm_trans;
      [apply (local_perm_Swap a b data a pivot); lia|].
    eapply local_perm_widen; [| |exact Hlp]; lia.
  - exists p. split; [done|]. split; [|done].
    destruct Hlp as [_ Ho]. rewrite Ho by lia. done.
Qed.

(** ** The steps that only move elements about *)

Lemma bits_Len_spec n :
  0 < n → (Z.of_nat n < 2 ^ Z.of_nat (bits_Len n) ≤ 2 * Z.of_nat n)%Z.
Proof.
  intros Hn. unfold bits_Len. destruct n as [|n]; [lia|].
  destruct (Nat.log2_spec (S n) ltac:(lia)) as [Hlo Hhi].
  replace (2 ^ Z.of_nat (S (Nat.log2 (S n))))%Z
    with (Z.of_nat (2 ^ S (Nat.log2 (S n)))) by (by rewrite Nat2Z.inj_pow).
  rewrite Nat.pow_succ_r' in *. lia.
Qed.

Lemma breakPatterns_loop_frame n : ∀ data a b len idx i random (bits : nat),
  a + len ≤ b → a ≤ idx - 1 + i → idx - 1 + i + n ≤ b →
  (2 ^ Z.of_nat bits ≤ 2 * Z.of_nat len)%Z →
  local_perm a b data
    (breakPatterns_loop n data a len idx i random (2 ^ Z.of_nat bits)%Z).
Proof.
  induction n as [|n IH]; intros data a b len idx i random bits Hlen Hlo Hhi Hmod;
    simpl; [apply local_perm_refl|].
  set (r := xorshift_Next random).
  assert (Hother : (0 ≤ Z.land r (2 ^ Z.of_nat bits - 1) < 2 ^ Z.of_nat bits)%Z).
  { replace (2 ^ Z.of_nat bits - 1)%Z with (Z.ones (Z.of_nat bits))
      by (rewrite Z.ones_equiv; lia).
    rewrite Z.land_ones by lia. apply Z.mod_pos_bound. lia. }
  set (other := Z.to_nat (Z.land r (2 ^ Z.of_nat bits - 1))) in *.
  assert (Hother' : (Z.of_nat other < 2 ^ Z.of_nat bits)%Z) by (unfold other; lia).
  clearbody other r.
  eapply local_perm_trans; [|apply (IH _ a b); [done|lia|lia|done]].
  apply local_perm_Swap; [lia|].
  destruct (len <=? other) eqn:Hcmp.
  - apply Nat.leb_le in Hcmp. lia.
  - apply Nat.leb_gt in Hcmp. lia.
Qed.

Lemma breakPatterns_frame data a b :
  a ≤ b → local_perm a b data (breakPatterns_func data a b).
Proof.
  intros Hab. unfold breakPatterns_func.
  destruct (8 <=? b - a) eqn:Hlen; [|apply local_perm_refl].
  apply Nat.leb_le in Hlen. unfold nextPowerOfTwo.
  apply breakPatterns_loop_frame.
  - lia.
  - div_facts. lia.
  - div_facts. lia.
  - apply bits_Len_spec. lia.
Qed.

Lemma reverseRange_loop_frame n : ∀ data a b i j,
  a ≤ i → i + n ≤ b → j < b → a + n ≤ j + 1 →
  local_perm a b data (reverseRange_loop n data i j).
Proof.
  induction n as [|n IH]; intros data a b i j Hi Hin Hj Hjn; simpl;
    [apply local_perm_refl|].
  eapply local_perm_trans; [|apply (IH _ a b); lia].
  apply local_perm_Swap; lia.
Qed.

Lemma reverseRange_frame data a b :
  a ≤ b → local_perm a b data (reverseRange_func data a b).
Proof.
  intros Hab. unfold reverseRange_func.
  destruct (decide (a = b)) as [->|Hne].
  - replace ((b - b) / 2) with 0 by (by rewrite Nat.sub_diag). apply local_perm_refl.
  - apply reverseRange_loop_frame; [lia| | |]; div_facts; lia.
Qed.

(** ** Choosing the pivot *)

Lemma median_range data a b c swaps lo hi :
  lo ≤ a < hi → lo ≤ b < hi → lo ≤ c < hi →
  lo ≤ (median_func less data a b c swaps).1 < hi.
Proof.
  intros Ha Hb Hc. unfold median_func, order2_func.
  repeat (destruct (Less less data _ _); simpl); lia.
Qed.

Lemma choosePivot_range data a b :
  a < b → a ≤ (choosePivot_func less data a b).1 < b.
Proof.
  intros Hab. unfold choosePivot_func. cbv zeta.
  set (l := b - a).
  assert (Hq : 0 < l ∧ l = b - a) by (unfold l; lia). clearbody l.
  match goal with
  | |- context [let '(j, swaps) := ?t in _] =>
      assert (Hj : a ≤ t.1 < b); [|destruct t as [j swaps]]
  end.
  - destruct (8 <=? l) eqn:Hl8; [|cbn [fst]; div_facts; lia].
    apply Nat.leb_le in Hl8.
    destruct (shortestNinther <=? l) eqn:Hl50.
    + apply Nat.leb_le in Hl50. unfold shortestNinther in Hl50.
      unfold medianAdjacent_func.
      pose proof (median_range data (a + l / 4 * 1 - 1) (a + l / 4 * 1)
                    (a + l / 4 * 1 + 1) 0 a b) as H1.
      destruct (median_func less data (a + l / 4 * 1 - 1) _ _ 0) as [i1 s1].
      pose proof (median_range data (a + l / 4 * 2 - 1) (a + l / 4 * 2)
                    (a + l / 4 * 2 + 1) s1 a b) as H2.
      destruct (median_func less data (a + l / 4 * 2 - 1) _ _ s1) as [i2 s2].
      pose proof (median_range data (a + l / 4 * 3 - 1) (a + l / 4 * 3)
                    (a + l / 4 * 3 + 1) s2 a b) as H3.
      destruct (median_func less data (a + l / 4 * 3 - 1) _ _ s2) as [i3 s3].
      cbn [fst] in H1, H2, H3.
      pose proof (median_range data i1 i2 i3 s3 a b) as H4.
      destruct (median_func less data i1 i2 i3 s3) as [i4 s4]. cbn [fst] in *.
      apply H4; [apply H1|apply H2|apply H3]; div_facts; lia.
    + pose proof (median_range data (a + l / 4 * 1) (a + l / 4 * 2)
                    (a + l / 4 * 3) 0 a b) as H4.
      destruct (median_func less data _ _ _ 0) as [i4 s4]. cbn [fst] in *.
      apply H4; div_facts; lia.
  - cbn [fst] in Hj. by repeat (destruct (_ =? _); cbn [fst]).
Qed.

(** ** The attempt at finishing with a few insertions: where it may write *)

Lemma shift_smaller_perm j : ∀ data, data ≡ₚ shift_smaller less j data.
Proof.
  induction j as [|j IH]; intros data; simpl; [done|].
  destruct (Less less data _ _); simpl; [|done].
  etrans; [|apply IH]. apply Swap_Permutation.
Qed.

Lemma shift_greater_frame n : ∀ data i b j,
  i < j → j + n ≤ b → local_perm i b data (shift_greater less n data j).
Proof.
  induction n as [|n IH]; intros data i b j Hij Hjn; simpl; [apply local_perm_refl|].
  destruct (Less less data j (j - 1)); simpl; [|apply local_perm_refl].
  eapply local_perm_trans; [|apply IH; lia].
  apply local_perm_Swap; lia.
Qed.

Lemma partialInsertionSort_loop_unfold steps data a b i :
  partialInsertionSort_loop less (S steps) data a b i
  = let i := scan_up (b - i) (λ i, negb (Less less data i (i - 1))) i in
    if i =? b then (true, data) else
    if b - a <? shortestShifting then (false, data) else
    let data := Swap data i (i - 1) in
    let data := if 2 <=? i - a then shift_smaller less (i - 1) data else data in
    let data := if 2 <=? b - i then shift_greater less (b - (i + 1)) data (i + 1)
                else data in
    partialInsertionSort_loop less steps data a b i.
Proof. reflexivity. Qed.

#[local] Arguments partialInsertionSort_loop : simpl never.

Lemma partialInsertionSort_loop_perm steps : ∀ data a b i,
  data ≡ₚ (partialInsertionSort_loop less steps data a b i).2.
Proof.
  induction steps as [|steps IH]; intros data a b i; [done|].
  rewrite partialInsertionSort_loop_unfold. cbv zeta.
  set (i1 := scan_up (b - i) (λ i, negb (Less less data i (i - 1))) i).
  clearbody i1.
  destruct (i1 =? b); [done|].
  destruct (b - a <? shortestShifting); [done|].
  etrans; [|apply IH].
  etrans; [apply (Swap_Permutation data i1 (i1 - 1))|].
  etrans.
  - instantiate (1 := if 2 <=? i1 - a
                      then shift_smaller less (i1 - 1) (Swap data i1 (i1 - 1))
                      else Swap data i1 (i1 - 1)).
    destruct (2 <=? i1 - a); [apply shift_smaller_perm|done].
  - destruct (2 <=? b - i1); [|done].
    apply (shift_greater_frame _ _ i1 (b + (i1 + 1))); lia.
Qed.

(** ** The quicksort loop *)

(** One round of [pdqsort_func] up to the choice between the two
    partitioning steps: whether the range is already in order, the data, the
    pivot position and the limit. *)
Definition pdqsort_prepare data a b limit (wasBalanced wasPartitioned : bool)
  : bool * list A * nat * nat :=
  let '(data, limit) :=
    if negb wasBalanced then (breakPatterns_func data a b, limit - 1)
    else (data, limit) in
  let '(pivot, hint) := choosePivot_func less data a b in
  let '(data, pivot, hint) :=
    match hint with
    | decreasingHint =>
        (reverseRange_func data a b, (b - 1) - (pivot - a), increasingHint)
    | _ => (data, pivot, hint)
    end in
  let '(sorted, data) :=
    match hint with
    | increasingHint =>
        if wasBalanced && wasPartitioned
        then partialInsertionSort_func less data a b else (false, data)
    | _ => (false, data)
    end in
  (sorted, data, pivot, limit).

Lemma pdqsort_unfold fuel data a b limit wasBalanced wasPartitioned :
  pdqsort_func less (S fuel) data a b limit wasBalanced wasPartitioned
  = if b - a <=? maxInsertion then Some (insertionSort_func less data a b) else
    if limit =? 0 then heapSort_func less data a b else
    let '(sorted, data', pivot, limit) :=
      pdqsort_prepare data a b limit wasBalanced wasPartitioned in
    if sorted then Some data' else
    if (0 <? a) && negb (Less less data' (a - 1) pivot) then
      '(mid, data') ← partitionEqual_func less data' a b pivot;
      pdqsort_func less fuel data' mid b limit wasBalanced wasPartitioned
    else
      '(mid, alreadyPartitioned, data') ← partition_func less data' a b pivot;
      if mid - a <? b - mid then
        data' ← pdqsort_func less fuel data' a mid limit true true;
        pdqsort_func less fuel data' (mid + 1) b limit ((b - a) / 8 <=? mid - a)
          alreadyPartitioned
      else
        data' ← pdqsort_func less fuel data' (mid + 1) b limit true true;
        pdqsort_func less fuel data' a mid limit ((b - a) / 8 <=? b - mid)
          alreadyPartitioned.
Proof.
  unfold pdqsort_prepare. cbn [pdqsort_func]. cbv zeta.
  destruct (b - a <=? maxInsertion); [done|].
  destruct (limit =? 0); [done|].
  destruct wasBalanced; cbn [negb andb];
    destruct (choosePivot_func less _ a b) as [pivot []];
    try destruct wasPartitioned;
    try destruct (partialInsertionSort_func less _ a b) as [[] ?];
    reflexivity.
Qed.

#[local] Arguments pdqsort_func : simpl never.

Lemma pdqsort_prepare_perm data a b limit wasBalanced wasPartitioned :
  a < b →
  let '(sorted, data', pivot, limit') :=
    pdqsort_prepare data a b limit wasBalanced wasPartitioned in
  data ≡ₚ data' ∧ a ≤ pivot < b.
Proof.
  intros Hab. unfold pdqsort_prepare.
  set (stage1 := if negb wasBalanced then (breakPatterns_func data a b, limit - 1)
                 else (data, limit)).
  assert (H1 : data ≡ₚ stage1.1).
  { unfold stage1. destruct wasBalanced; cbn [negb fst]; [done|].
    apply (breakPatterns_frame data a b). lia. }
  destruct stage1 as [data1 limit1]. cbn [fst] in H1.
  pose proof (choosePivot_range data1 a b Hab) as H2.
  destruct (choosePivot_func less data1 a b) as [pivot hint]. cbn [fst] in H2.
  set (stage3 := match hint with
                 | decreasingHint =>
                     (reverseRange_func data1 a b, b - 1 - (pivot - a), increasingHint)
                 | _ => (data1, pivot, hint)
                 end).
  assert (H3 : data1 ≡ₚ stage3.1.1 ∧ a ≤ stage3.1.2 < b).
  { unfold stage3. destruct hint; cbn [fst snd]; try done.
    split; [|lia]. apply (reverseRange_frame data1 a b). lia. }
  destruct stage3 as [[data3 pivot3] hint3]. cbn [fst snd] in H3.
  destruct H3 as [H3 Hpivot].
  set (stage4 := match hint3 with
                 | increasingHint =>
                     if wasBalanced && wasPartitioned
                     then partialInsertionSort_func less data3 a b else (false, data3)
                 | _ => (false, data3)
                 end).
  assert (H4 : data3 ≡ₚ stage4.2).
  { unfold stage4. destruct hint3; cbn [snd]; try done.
    destruct (wasBalanced && wasPartitioned); cbn [snd]; [|done].
    apply partialInsertionSort_loop_perm. }
  destruct stage4 as [sorted data4]. cbn [snd] in H4.
  split; [|done]. by rewrite H1, H3.
Qed.

(** [pdqsort_func] never runs out of fuel when it is given more than the
    length of the range, and what it returns is a rearrangement. *)
Lemma pdqsort_returns fuel : ∀ data a b limit wasBalanced wasPartitioned,
  b - a < fuel → b ≤ length data →
  ∃ data', pdqsort_func less fuel data a b limit wasBalanced wasPartitioned = Some data'
           ∧ data ≡ₚ data'.
Proof.
  induction fuel as [|fuel IH]; intros data a b limit wB wP Hfuel Hlen; [lia|].
  rewrite pdqsort_unfold.
  destruct (b - a <=? maxInsertion) eqn:Hshort.
  { eexists. split; [done|]. apply (insertionSort_frame less data a b). }
  apply Nat.leb_gt in Hshort. unfold maxInsertion in Hshort.
  destruct (limit =? 0).
  { destruct (heapSort_frame less data a b ltac:(lia)) as (data' & Hrun & Hlp).
    exists data'. split; [done|apply Hlp]. }
  pose proof (pdqsort_prepare_perm data a b limit wB wP ltac:(lia)) as Hprep.
  destruct (pdqsort_prepare data a b limit wB wP) as [[[sorted data1] pivot] limit1].
  destruct Hprep as [Hp1 Hpivot].
  assert (Hlen1 : b ≤ length data1) by (by rewrite <- Hp1).
  destruct sorted; [by exists data1|].
  destruct ((0 <? a) && negb (Less less data1 (a - 1) pivot)).
  - destruct (partitionEqual_spec data1 a b pivot) as
      (mid & data2 & Hrun & Hmid & Hlp & _); [lia|done|done|].
    rewrite Hrun. cbn -[Nat.div Nat.leb Nat.ltb].
    destruct (IH data2 mid b limit1 wB wP) as (data' & Hrun' & Hp');
      [lia|by rewrite (local_perm_length _ _ _ _ Hlp)|].
    exists data'. split; [done|]. rewrite Hp1, <- Hp'. apply Hlp.
  - destruct (partition_spec data1 a b pivot) as
      (mid & flag & data2 & Hrun & Hmid & Hlp & _); [lia|done|done|].
    rewrite Hrun. cbn -[Nat.div Nat.leb Nat.ltb].
    assert (Hlen2 : b ≤ length data2) by (by rewrite (local_perm_length _ _ _ _ Hlp)).
    destruct (mid - a <? b - mid).
    + destruct (IH data2 a mid limit1 true true) as (data3 & Hrun3 & Hp3); [lia|lia|].
      rewrite Hrun3. cbn -[Nat.div Nat.leb Nat.ltb].
      destruct (IH data3 (mid + 1) b limit1 ((b - a) / 8 <=? mid - a) flag)
        as (data' & Hrun' & Hp'); [lia|by rewrite <- Hp3|].
      exists data'. split; [done|]. rewrite Hp1, <- Hp', <- Hp3. apply Hlp.
    + destruct (IH data2 (mid + 1) b limit1 true true) as (data3 & Hrun3 & Hp3);
        [lia|lia|].
      rewrite Hrun3. cbn -[Nat.div Nat.leb Nat.ltb].
      destruct (IH data3 a mid limit1 ((b - a) / 8 <=? b - mid) flag)
        as (data' & Hrun' & Hp'); [lia|rewrite <- Hp3; lia|].
      exists data'. split; [done|]. rewrite Hp1, <- Hp', <- Hp3. apply Hlp.
Qed.

End PdqFacts.

(** ** The quicksort under a strict weak ordering *)

Section PdqOrdered.
Context {A : Type} (less : A → A → bool).
Hypothesis Hless : strict_weak_order less.

Local Open Scope nat_scope.

Implicit Types (data : list A) (a b i j k : nat) (x y z p q : A).

(** The element just before the range, if there is one, is not greater than
    any element of the range.  [pdqsort_func] keeps this true of every
    range it is called on; it is what stops [partialInsertionSort_func],
    whose shifting loop runs down to position 1, at the start of the range. *)
Definition pred_ok data a b : Prop :=
  a = 0 ∨ ∃ q, data !! (a - 1) = Some q ∧ all_in data a b (λ x, less x q = false).

Lemma pred_ok_local_perm a b a' b' data data' :
  local_perm a' b' data data' → a ≤ a' → b' ≤ b →
  pred_ok data a b → pred_ok data' a b.
Proof.
  intros Hlp Ha Hb Hpred. destruct (decide (a = 0)) as [->|Hne]; [by left|].
  destruct Hpred as [?|(q & Hq & Hall)]; [done|]. right. exists q. split.
  - destruct Hlp as [_ Ho]. rewrite Ho by lia. done.
  - by apply (all_in_local_perm a b a' b' data data').
Qed.

Lemma pred_ok_outside a b a' b' data data' :
  local_perm a' b' data data' → a ≤ b → b ≤ a' →
  pred_ok data a b → pred_ok data' a b.
Proof.
  intros Hlp Hab Hb Hpred. destruct (decide (a = 0)) as [->|Hne]; [by left|].
  destruct Hpred as [?|(q & Hq & Hall)]; [done|]. right. exists q. split.
  - destruct Hlp as [_ Ho]. rewrite Ho by lia. done.
  - apply (all_in_outside a b a' b' data data'); [done|lia|done].
Qed.

Lemma pred_ok_narrow data a b b' : b' ≤ b → pred_ok data a b → pred_ok data a b'.
Proof.
  intros Hb [->|(q & Hq & Hall)]; [by left|]. right. exists q. split; [done|].
  by apply (all_in_narrow a b a b').
Qed.

(** In order pair by pair is in order. *)
Lemma sorted_on_adjacent data a b :
  b ≤ length data →
  (∀ k x y, a < k → k < b → data !! (k - 1) = Some x → data !! k = Some y →
     less y x = false) →
  sorted_on less data a b.
Proof.
  intros Hlen Hadj i j x y Hi Hij Hj Hx. revert y.
  induction j as [j IH] using lt_wf_ind. intros y Hy.
  destruct (decide (j = i + 1)) as [->|Hne].
  - apply (Hadj (i + 1) x y); [lia|lia| |done].
    by replace (i + 1 - 1) with i by lia.
  - destruct (lookup_lt_is_Some_2 data (j - 1) ltac:(lia)) as [z Hz].
    apply (le_trans less Hless x z y).
    + apply (IH (j - 1)); [lia|lia|lia|done].
    + apply (Hadj j z y); [lia|lia|done|done].
Qed.

Lemma shift_smaller_unfold j data :
  shift_smaller less (S j) data
  = if negb (Less less data (S j) (S j - 1)) then data
    else shift_smaller less j (Swap data (S j) (S j - 1)).
Proof. reflexivity. Qed.

Lemma insertion_inner_unfold n data j :
  insertion_inner less (S n) data j
  = if Less less data j (j - 1)
    then insertion_inner less n (Swap data j (j - 1)) (j - 1) else data.
Proof. reflexivity. Qed.

(** With the element before the range in place, the shifting loop of
    [partialInsertionSort_func] stops where that of [insertionSort_func]
    does. *)
Lemma shift_smaller_insertion n : ∀ data a b j,
  n = j - a → a ≤ j < b → b ≤ length data → pred_ok data a b →
  shift_smaller less j data = insertion_inner less n data j.
Proof.
  induction n as [|n IH]; intros data a b j Hn Hj Hlen Hpred.
  - assert (j = a) as -> by lia. cbn [insertion_inner].
    destruct a as [|a']; [done|].
    rewrite shift_smaller_unfold.
    destruct Hpred as [?|(q & Hq & Hall)]; [done|].
    destruct (lookup_lt_is_Some_2 data (S a') ltac:(lia)) as [x Hx].
    rewrite (Less_lookup less data (S a') (S a' - 1) x q Hx Hq).
    rewrite (Hall (S a') x); [done|lia|done].
  - destruct j as [|j']; [lia|].
    rewrite shift_smaller_unfold, insertion_inner_unfold.
    destruct (Less less data (S j') (S j' - 1)); cbn [negb]; [|done].
    replace (S j' - 1) with j' by lia.
    apply (IH _ a b j'); [lia|lia|by rewrite Swap_length|].
    apply (pred_ok_local_perm a b a b data); [|done|done|done].
    apply local_perm_Swap; lia.
Qed.

Lemma partialInsertionSort_loop_spec steps : ∀ data a b i,
  a < i ≤ b → b ≤ length data → pred_ok data a b → sorted_on less data a i →
  local_perm a b data (partialInsertionSort_loop less steps data a b i).2
  ∧ ((partialInsertionSort_loop less steps data a b i).1 = true →
     sorted_on less (partialInsertionSort_loop less steps data a b i).2 a b).
Proof.
  induction steps as [|steps IH]; intros data a b i Hi Hlen Hpred Hsorted.
  { split; [apply local_perm_refl|done]. }
  rewrite partialInsertionSort_loop_unfold. cbv zeta.
  pose proof (scan_up_spec (λ i, negb (Less less data i (i - 1))) (b - i) i) as Hup.
  cbv zeta in Hup.
  set (i1 := scan_up (b - i) (λ i, negb (Less less data i (i - 1))) i) in *.
  destruct Hup as (Hi1 & Hup & Hupend). clearbody i1.
  assert (Hsorted1 : sorted_on less data a i1).
  { intros k1 k2 x y Hk1 Hk12 Hk2.
    apply (sorted_on_adjacent data a i1); [lia| |done|done|done].
    intros k x' y' Hak Hki Hx' Hy'. destruct (decide (k < i)) as [Hlt|Hge].
    - apply (Hsorted (k - 1) k x' y'); [lia|lia|lia|done|done].
    - rewrite <- (Less_lookup less data k (k - 1) y' x' Hy' Hx').
      apply negb_true_iff. apply Hup. lia. }
  destruct (i1 =? b) eqn:Hend.
  { apply Nat.eqb_eq in Hend. subst i1. split; [apply local_perm_refl|done]. }
  apply Nat.eqb_neq in Hend.
  destruct (b - a <? shortestShifting); [split; [apply local_perm_refl|done]|].
  set (data1 := Swap data i1 (i1 - 1)).
  assert (Hlp1 : local_perm a b data data1) by (apply local_perm_Swap; lia).
  assert (Hlen1 : length data1 = length data) by apply Swap_length.
  set (data2 := if 2 <=? i1 - a then shift_smaller less (i1 - 1) data1 else data1).
  assert (H2 : local_perm a b data1 data2 ∧ sorted_on less data2 a i1).
  { unfold data2. destruct (2 <=? i1 - a) eqn:Hshift.
    - apply Nat.leb_le in Hshift.
      rewrite (shift_smaller_insertion (i1 - 1 - a) data1 a b (i1 - 1));
        [|done|lia|lia|by apply (pred_ok_local_perm a b a b data)].
      split.
      + eapply local_perm_widen;
          [| |apply (insertion_inner_frame less (i1 - 1 - a) data1 a (i1 - 1))];
          [lia|lia|done].
      + match goal with
        | |- sorted_on less ?d a i1 =>
            replace (sorted_on less d a i1) with (sorted_on less d a (i1 - 1 + 1))
              by (f_equal; lia)
        end.
        apply (insertion_inner_sorted less Hless (i1 - 1 - a) data1 a (i1 - 1) (i1 - 1));
          [done|lia|lia| |intros; lia].
        intros k1 k2 x y Hk1 Hk12 Hk2 Hn1 Hn2. unfold data1.
        rewrite !Swap_lookup by lia. repeat case_decide; try lia.
        apply (Hsorted1 k1 k2 x y); lia.
    - apply Nat.leb_gt in Hshift. split; [apply local_perm_refl|].
      apply sorted_on_short. lia. }
  destruct H2 as [Hlp2 Hsorted2]. clearbody data2.
  set (data3 := if 2 <=? b - i1 then shift_greater less (b - (i1 + 1)) data2 (i1 + 1)
                else data2).
  assert (Hlp3 : local_perm i1 b data2 data3).
  { unfold data3. destruct (2 <=? b - i1); [|apply local_perm_refl].
    apply shift_greater_frame; lia. }
  clearbody data3.
  assert (Hlp13 : local_perm a b data data3).
  { eapply local_perm_trans; [exact Hlp1|].
    eapply local_perm_trans; [exact Hlp2|].
    eapply local_perm_widen; [| |exact Hlp3]; lia. }
  destruct (IH data3 a b i1) as [Hlp Hdone]; [lia| | | |].
  - by rewrite (local_perm_length _ _ _ _ Hlp13).
  - by apply (pred_ok_local_perm a b a b data).
  - apply (sorted_on_outside less a i1 i1 b data2 data3); [done|lia|done].
  - split; [|done]. by eapply local_perm_trans.
Qed.

Lemma pdqsort_prepare_spec data a b limit wasBalanced wasPartitioned :
  a < b → b ≤ length data → pred_ok data a b →
  let '(sorted, data', pivot, limit') :=
    pdqsort_prepare less data a b limit wasBalanced wasPartitioned in
  local_perm a b data data' ∧ a ≤ pivot < b
  ∧ (sorted = true → sorted_on less data' a b).
Proof.
  intros Hab Hlen Hpred. unfold pdqsort_prepare.
  set (stage1 := if negb wasBalanced then (breakPatterns_func data a b, limit - 1)
                 else (data, limit)).
  assert (H1 : local_perm a b data stage1.1).
  { unfold stage1. destruct wasBalanced; cbn [negb fst]; [apply local_perm_refl|].
    apply (breakPatterns_frame data a b). lia. }
  destruct stage1 as [data1 limit1]. cbn [fst] in H1.
  pose proof (choosePivot_range less data1 a b Hab) as H2.
  destruct (choosePivot_func less data1 a b) as [pivot hint]. cbn [fst] in H2.
  set (stage3 := match hint with
                 | decreasingHint =>
                     (reverseRange_func data1 a b, b - 1 - (pivot - a), increasingHint)
                 | _ => (data1, pivot, hint)
                 end).
  assert (H3 : local_perm a b data1 stage3.1.1 ∧ a ≤ stage3.1.2 < b).
  { unfold stage3. destruct hint; cbn [fst snd];
      try (split; [apply local_perm_refl|done]).
    split; [|lia]. apply (reverseRange_frame data1 a b). lia. }
  destruct stage3 as [[data3 pivot3] hint3]. cbn [fst snd] in H3.
  destruct H3 as [H3 Hpivot].
  assert (H13 : local_perm a b data data3) by (by eapply local_perm_trans).
  set (stage4 := match hint3 with
                 | increasingHint =>
                     if wasBalanced && wasPartitioned
                     then partialInsertionSort_func less data3 a b else (false, data3)
                 | _ => (false, data3)
                 end).
  assert (H4 : local_perm a b data3 stage4.2
               ∧ (stage4.1 = true → sorted_on less stage4.2 a b)).
  { unfold stage4. destruct hint3; cbn [fst snd];
      try (split; [apply local_perm_refl|done]).
    destruct (wasBalanced && wasPartitioned); cbn [fst snd];
      [|split; [apply local_perm_refl|done]].
    apply partialInsertionSort_loop_spec; [lia| | |].
    - by rewrite (local_perm_length _ _ _ _ H13).
    - by apply (pred_ok_local_perm a b a b data).
    - apply sorted_on_short. lia. }
  destruct stage4 as [sorted data4]. cbn [fst snd] in H4. destruct H4 as [H4 Hdone].
  split; [by eapply local_perm_trans|]. split; done.
Qed.

(** Two ranges in order, with the pivot between them. *)
Lemma sorted_join data a mid b p :
  a ≤ mid < b → data !! mid = Some p →
  all_in data a mid (λ x, less x p = true) →
  all_in data (mid + 1) b (λ x, less x p = false) →
  sorted_on less data a mid → sorted_on less data (mid + 1) b →
  sorted_on less data a b.
Proof.
  intros Hmid Hp Hleft Hright Hsl Hsr i j x y Hi Hij Hj Hx Hy.
  destruct (decide (j < mid)) as [Hjm|Hjm].
  { apply (Hsl i j x y); done. }
  destruct (decide (mid < i)) as [Him|Him].
  { apply (Hsr i j x y); [lia|done|done|done|done]. }
  destruct (decide (i = mid)) as [->|Hne].
  { replace x with p by congruence. apply (Hright j y); [lia|done]. }
  assert (Hxp : less x p = true) by (apply (Hleft i x); [lia|done]).
  destruct (decide (j = mid)) as [->|Hne'].
  { replace y with p by congruence. by apply (less_asym less Hless). }
  assert (Hyp : less y p = false) by (apply (Hright j y); [lia|done]).
  destruct (less y x) eqn:Hyx; [|done].
  by rewrite (lt_trans less Hless y x p Hyx Hxp) in Hyp.
Qed.

(** A range of elements equal to [p], followed by a range in order of
    elements greater than [p]. *)
Lemma sorted_join_equal data a mid b p :
  all_in data a mid (λ x, less p x = false ∧ less x p = false) →
  all_in data mid b (λ x, less p x = true) →
  sorted_on less data mid b →
  sorted_on less data a b.
Proof.
  intros Hleft Hright Hsr i j x y Hi Hij Hj Hx Hy.
  destruct (decide (mid ≤ i)) as [Him|Him].
  { apply (Hsr i j x y); [lia|done|done|done|done]. }
  destruct (Hleft i x ltac:(lia) Hx) as [Hpx Hxp].
  destruct (decide (j < mid)) as [Hjm|Hjm].
  - destruct (Hleft j y ltac:(lia) Hy) as [Hpy Hyp].
    by apply (le_trans less Hless x p y).
  - assert (Hpy : less p y = true) by (apply (Hright j y); [lia|done]).
    apply (less_asym less Hless).
    by apply (le_lt_trans less Hless x p y).
Qed.

(** What [pdqsort_func] returns has the range in order, and the rest of the
    slice as it was. *)
Lemma pdqsort_sorted fuel : ∀ data a b limit wasBalanced wasPartitioned data',
  b ≤ length data → pred_ok data a b →
  pdqsort_func less fuel data a b limit wasBalanced wasPartitioned = Some data' →
  local_perm a b data data' ∧ sorted_on less data' a b.
Proof.
  induction fuel as [|fuel IH]; intros data a b limit wB wP data' Hlen Hpred Hrun;
    [done|].
  rewrite pdqsort_unfold in Hrun.
  destruct (b - a <=? maxInsertion) eqn:Hshort.
  { injection Hrun as <-. split; [apply insertionSort_frame|].
    by apply insertionSort_sorted. }
  apply Nat.leb_gt in Hshort. unfold maxInsertion in Hshort.
  destruct (limit =? 0).
  { split; [|apply (heapSort_sorted less Hless data a b data'); [lia|done|done]].
    destruct (heapSort_frame less data a b ltac:(lia)) as (data'' & Hrun' & Hlp).
    by replace data' with data'' by congruence. }
  pose proof (pdqsort_prepare_spec data a b limit wB wP ltac:(lia) Hlen Hpred) as Hprep.
  destruct (pdqsort_prepare less data a b limit wB wP)
    as [[[sorted data1] pivot] limit1].
  destruct Hprep as (Hlp1 & Hpivot & Hdone).
  assert (Hlen1 : b ≤ length data1) by (by rewrite (local_perm_length _ _ _ _ Hlp1)).
  assert (Hpred1 : pred_ok data1 a b) by (by apply (pred_ok_local_perm a b a b data)).
  destruct sorted.
  { injection Hrun as <-. split; [done|by apply Hdone]. }
  destruct ((0 <? a) && negb (Less less data1 (a - 1) pivot)) eqn:Hcond.
  - (* the pivot equals the element before the range *)
    apply andb_true_iff in Hcond as [Ha Hcond]. apply Nat.ltb_lt in Ha.
    apply negb_true_iff in Hcond.
    destruct Hpred1 as [?|(q & Hq & Hall)]; [lia|].
    destruct (partitionEqual_spec less data1 a b pivot) as
      (mid & data2 & Hrun2 & Hmid & Hlp2 & p & Hp & Hpa & Hl & Hr); [lia|done|done|].
    rewrite Hrun2 in Hrun. cbn -[Nat.div Nat.leb Nat.ltb] in Hrun.
    rewrite (Less_lookup less data1 (a - 1) pivot q p Hq Hp) in Hcond.
    assert (Hlen2 : b ≤ length data2)
      by (by rewrite (local_perm_length _ _ _ _ Hlp2)).
    assert (Hall2 : all_in data2 a b (λ x, less x q = false)).
    { by apply (all_in_local_perm a b a b data1 data2). }
    assert (Hequal : all_in data2 a mid (λ x, less p x = false ∧ less x p = false)).
    { intros k x Hk Hx. split.
      - destruct (decide (k = a)) as [->|Hne].
        + replace x with p by congruence. apply (less_irrefl less Hless).
        + apply (Hl k x); [lia|done].
      - apply (le_trans less Hless p q x); [done|]. apply (Hall2 k x); [lia|done]. }
    destruct (IH data2 mid b limit1 wB wP data') as [Hlp3 Hsorted3]; [done| |done|].
    { right. destruct (lookup_lt_is_Some_2 data2 (mid - 1) ltac:(lia)) as [q' Hq'].
      exists q'. split; [done|].
      destruct (Hequal (mid - 1) q' ltac:(lia) Hq') as [Hpq' Hq'p].
      intros k x Hk Hx. destruct (less x q') eqn:Hxq'; [|done].
      pose proof (Hr k x Hk Hx) as Hpx. cbv beta in Hpx.
      pose proof (lt_le_trans less Hless x q' p Hxq' Hpq') as Hxp.
      by rewrite (less_asym less Hless x p Hxp) in Hpx. }
    split.
    + eapply local_perm_trans; [exact Hlp1|].
      eapply local_perm_trans; [exact Hlp2|].
      eapply local_perm_widen; [| |exact Hlp3]; lia.
    + apply (sorted_join_equal data' a mid b p); [| |done].
      * by apply (all_in_outside a mid mid b data2 data'); [|lia|].
      * by apply (all_in_local_perm mid b mid b data2 data').
  - (* the usual partition *)
    destruct (partition_spec less data1 a b pivot) as
      (mid & flag & data2 & Hrun2 & Hmid & Hlp2 & p & Hp & Hl & Hr); [lia|done|done|].
    rewrite Hrun2 in Hrun. cbn -[Nat.div Nat.leb Nat.ltb] in Hrun.
    assert (Hlen2 : b ≤ length data2)
      by (by rewrite (local_perm_length _ _ _ _ Hlp2)).
    assert (Hpred2 : pred_ok data2 a b)
      by (by apply (pred_ok_local_perm a b a b data1)).
    assert (Hlp12 : local_perm a b data data2) by (by eapply local_perm_trans).
    destruct (mid - a <? b - mid).
    + destruct (pdqsort_func less fuel data2 a mid limit1 true true)
        as [data3|] eqn:Hrun3; [|done].
      cbn -[Nat.div Nat.leb Nat.ltb] in Hrun.
      destruct (IH data2 a mid limit1 true true data3) as [Hlp3 Hsorted3];
        [lia|apply (pred_ok_narrow data2 a b); [lia|done]|done|].
      assert (Hp3 : data3 !! mid = Some p).
      { destruct Hlp3 as [_ Ho]. rewrite Ho by lia. done. }
      assert (Hr3 : all_in data3 (mid + 1) b (λ x, less x p = false)).
      { by apply (all_in_outside (mid + 1) b a mid data2 data3); [|lia|]. }
      destruct (IH data3 (mid + 1) b limit1 ((b - a) / 8 <=? mid - a) flag data')
        as [Hlp4 Hsorted4]; [by rewrite (local_perm_length _ _ _ _ Hlp3)| |done|].
      { right. exists p. split; [by replace (mid + 1 - 1) with mid by lia|done]. }
      split.
      * eapply local_perm_trans; [exact Hlp12|].
        eapply local_perm_trans; [eapply local_perm_widen; [| |exact Hlp3]; lia|].
        eapply local_perm_widen; [| |exact Hlp4]; lia.
      * apply (sorted_join data' a mid b p); [done| | | | |done].
        -- destruct Hlp4 as [_ Ho]. rewrite Ho by lia. done.
        -- apply (all_in_outside a mid (mid + 1) b data3 data'); [done|lia|].
           by apply (all_in_local_perm a mid a mid data2 data3).
        -- by apply (all_in_local_perm (mid + 1) b (mid + 1) b data3 data').
        -- by apply (sorted_on_outside less a mid (mid + 1) b data3 data'); [|lia|].
    + destruct (pdqsort_func less fuel data2 (mid + 1) b limit1 true true)
        as [data3|] eqn:Hrun3; [|done].
      cbn -[Nat.div Nat.leb Nat.ltb] in Hrun.
      destruct (IH data2 (mid + 1) b limit1 true true data3) as [Hlp3 Hsorted3];
        [lia| |done|].
      { right. exists p. split; [by replace (mid + 1 - 1) with mid by lia|done]. }
      assert (Hp3 : data3 !! mid = Some p).
      { destruct Hlp3 as [_ Ho]. rewrite Ho by lia. done. }
      assert (Hl3 : all_in data3 a mid (λ x, less x p = true)).
      { by apply (all_in_outside a mid (mid + 1) b data2 data3); [|lia|]. }
      destruct (IH data3 a mid limit1 ((b - a) / 8 <=? b - mid) flag data')
        as [Hlp4 Hsorted4]; [rewrite (local_perm_length _ _ _ _ Hlp3); lia| |done|].
      { apply (pred_ok_outside a mid (mid + 1) b data2); [done|lia|lia|].
        apply (pred_ok_narrow data2 a b); [lia|done]. }
      split.
      * eapply local_perm_trans; [exact Hlp12|].
        eapply local_perm_trans; [eapply local_perm_widen; [| |exact Hlp3]; lia|].
        eapply local_perm_widen; [| |exact Hlp4]; lia.
      * apply (sorted_join data' a mid b p); [done| | | |done|].
        -- destruct Hlp4 as [_ Ho]. rewrite Ho by lia. done.
        -- by apply (all_in_local_perm a mid a mid data3 data').
        -- apply (all_in_outside (mid + 1) b a mid data3 data'); [done|lia|].
           by apply (all_in_local_perm (mid + 1) b (mid + 1) b data2 data3).
        -- by apply (sorted_on_outside less (mid + 1) b a mid data3 data'); [|lia|].
Qed.

End PdqOrdered.

(** * [sort.Slice]: what a caller can rely on *)

Section SliceFacts.
Context {A : Type} (less : A → A → bool).

Local Open Scope nat_scope.

Implicit Types (data : list A) (a b i j k : nat) (x y z p q : A).

(** The run of [sort.Slice] always comes to an end. *)
Lemma sort_Slice_returns data :
  sort_Slice_run less data = Some (sort_Slice less data).
Proof.
  unfold sort_Slice, sort_Slice_run.
  destruct (pdqsort_returns less (S (length data)) data 0 (length data)
              (bits_Len (length data)) true true) as (data' & Hrun & _); [lia|lia|].
  cbv zeta. by rewrite Hrun.
Qed.

Lemma sort_Slice_Permutation data : data ≡ₚ sort_Slice less data.
Proof.
  unfold sort_Slice, sort_Slice_run.
  destruct (pdqsort_returns less (S (length data)) data 0 (length data)
              (bits_Len (length data)) true true) as (data' & Hrun & Hp); [lia|lia|].
  cbv zeta. by rewrite Hrun.
Qed.

Lemma sort_Slice_short data :
  length data ≤ maxInsertion →
  sort_Slice less data = insertionSort_func less data 0 (length data).
Proof.
  intros Hlen. unfold sort_Slice, sort_Slice_run. cbv zeta.
  rewrite pdqsort_unfold. rewrite Nat.sub_0_r.
  apply Nat.leb_le in Hlen. by rewrite Hlen.
Qed.

Lemma sorted_on_StronglySorted data :
  sorted_on less data 0 (length data) →
  StronglySorted (λ x y, less y x = false) data.
Proof.
  induction data as [|x data IH]; intros Hs; constructor.
  - apply IH. intros i j y z Hi Hij Hj Hy Hz.
    apply (Hs (S i) (S j) y z); simpl; try done; lia.
  - apply Forall_forall. intros y Hy.
    apply list_elem_of_lookup in Hy as [i Hi].
    apply (Hs 0 (S i) x y); simpl; try done; try lia.
    apply lookup_lt_Some in Hi. lia.
Qed.

Lemma StronglySorted_sorted_on data :
  StronglySorted (λ x y, less y x = false) data →
  sorted_on less data 0 (length data).
Proof.
  induction 1 as [|x data Hs IH Hall]; intros i j y z Hi Hij Hj Hy Hz; [simpl in Hj; lia|].
  destruct j as [|j]; [lia|]. simpl in Hz.
  destruct i as [|i]; simpl in Hy.
  - injection Hy as <-. rewrite Forall_forall in Hall. apply Hall.
    by eapply list_elem_of_lookup_2.
  - apply (IH i j y z); simpl in *; try done; lia.
Qed.

(** Under a strict weak ordering the result is in order. *)
Lemma sort_Slice_sorted data :
  strict_weak_order less →
  StronglySorted (λ x y, less y x = false) (sort_Slice less data).
Proof.
  intros Hless. apply sorted_on_StronglySorted.
  pose proof (sort_Slice_returns data) as Hrun. unfold sort_Slice_run in Hrun.
  cbv zeta in Hrun.
  destruct (pdqsort_sorted less Hless (S (length data)) data 0 (length data)
              (bits_Len (length data)) true true (sort_Slice less data))
    as [Hlp Hs]; [lia|by left|done|].
  by rewrite (local_perm_length _ _ _ _ Hlp).
Qed.

(** ** Insertion sort keeps equal elements in their order *)

Lemma Swap_neighbours (l1 l2 : list A) u v :
  Swap (l1 ++ u :: v :: l2) (S (length l1)) (length l1) = l1 ++ v :: u :: l2.
Proof.
  unfold Swap.
  rewrite (lookup_app_r l1 _ (S (length l1))) by lia.
  replace (S (length l1) - length l1) with 1 by lia.
  rewrite (lookup_app_r l1 _ (length l1)) by lia.
  rewrite Nat.sub_diag. cbn [lookup list_lookup].
  rewrite (insert_app_r_alt l1 _ (S (length l1))) by lia.
  replace (S (length l1) - length l1) with 1 by lia.
  rewrite (insert_app_r_alt l1 _ (length l1)) by lia.
  by rewrite Nat.sub_diag.
Qed.

Lemma split_neighbours data j u v :
  0 < j → data !! (j - 1) = Some u → data !! j = Some v →
  data = take (j - 1) data ++ u :: v :: drop (j + 1) data
  ∧ length (take (j - 1) data) = j - 1.
Proof.
  intros Hj Hu Hv. split.
  - rewrite <- (take_drop_middle data (j - 1) u Hu) at 1. do 2 f_equal.
    replace (S (j - 1)) with j by lia.
    rewrite (drop_S data v j Hv). do 2 f_equal. lia.
  - rewrite length_take. apply lookup_lt_Some in Hu. lia.
Qed.

(** A predicate that two elements do not share when one is less than the
    other; an exchange of [insertionSort_func] never lets one element that
    satisfies it pass another. *)
Definition separated (P : A → Prop) : Prop :=
  ∀ x y, less x y = true → P x → P y → False.

Lemma Swap_filter (P : A → Prop) `{∀ x, Decision (P x)} data j :
  separated P → 0 < j → Less less data j (j - 1) = true →
  filter P (Swap data j (j - 1)) = filter P data.
Proof.
  intros Hsep Hj Hlt. unfold Less in Hlt.
  destruct (data !! j) as [v|] eqn:Hv; [|done].
  destruct (data !! (j - 1)) as [u|] eqn:Hu; [|done].
  destruct (split_neighbours data j u v Hj Hu Hv) as [Hdata Hlen].
  set (l1 := take (j - 1) data) in *. set (l2 := drop (j + 1) data) in *.
  clearbody l1 l2. subst data.
  replace j with (S (length l1)) by lia.
  replace (S (length l1) - 1) with (length l1) by lia.
  rewrite Swap_neighbours, !filter_app, !filter_cons.
  destruct (decide (P u)), (decide (P v)); try done.
  by destruct (Hsep v u).
Qed.

Lemma insertion_inner_filter (P : A → Prop) `{∀ x, Decision (P x)} n : ∀ data j,
  separated P → n ≤ j →
  filter P (insertion_inner less n data j) = filter P data.
Proof.
  induction n as [|n IH]; intros data j Hsep Hn; [done|].
  rewrite insertion_inner_unfold.
  destruct (Less less data j (j - 1)) eqn:Hlt; [|done].
  rewrite IH by (done || lia). apply Swap_filter; [done|lia|done].
Qed.

Lemma insertion_outer_filter (P : A → Prop) `{∀ x, Decision (P x)} n : ∀ data a i,
  separated P →
  filter P (insertion_outer less n data a i) = filter P data.
Proof.
  induction n as [|n IH]; intros data a i Hsep; [done|].
  cbn [insertion_outer]. rewrite IH by done.
  apply insertion_inner_filter; [done|lia].
Qed.

(** A slice of at most twelve elements is sorted by insertion: the elements
    that satisfy [P] come out in the order they went in. *)
Lemma sort_Slice_stable (P : A → Prop) `{∀ x, Decision (P x)} data :
  separated P → length data ≤ maxInsertion →
  filter P (sort_Slice less data) = filter P data.
Proof.
  intros Hsep Hlen. rewrite sort_Slice_short by done.
  by apply insertion_outer_filter.
Qed.

(** ** A slice that is in order already *)

Lemma Less_later data a b i j :
  sorted_on less data a b → a ≤ i → i < j → j < b → Less less data j i = false.
Proof.
  intros Hs Hi Hij Hj. unfold Less.
  destruct (data !! j) as [y|] eqn:Hy; [|done].
  destruct (data !! i) as [x|] eqn:Hx; [|done].
  by apply (Hs i j x y).
Qed.

Lemma insertion_outer_in_order n : ∀ data a b i,
  sorted_on less data a b → a < i → i + n ≤ b →
  insertion_outer less n data a i = data.
Proof.
  induction n as [|n IH]; intros data a b i Hs Hi Hn; [done|].
  cbn [insertion_outer].
  assert (Hin : insertion_inner less (i - a) data i = data).
  { destruct (i - a) as [|m] eqn:Hm; [done|]. rewrite insertion_inner_unfold.
    by rewrite (Less_later data a b (i - 1) i) by (done || lia). }
  rewrite Hin. apply (IH data a b); [done|lia|lia].
Qed.

Lemma median_in_order data a b i j k swaps :
  sorted_on less data a b → a ≤ i → i < j → j < k → k < b →
  median_func less data i j k swaps = (j, swaps).
Proof.
  intros Hs Hi Hij Hjk Hk. unfold median_func, order2_func.
  rewrite (Less_later data a b i j) by (done || lia).
  rewrite (Less_later data a b j k) by (done || lia).
  by rewrite (Less_later data a b i j) by (done || lia).
Qed.

Lemma choosePivot_in_order data a b :
  sorted_on less data a b → a < b →
  (choosePivot_func less data a b).2 = increasingHint.
Proof.
  intros Hs Hab. unfold choosePivot_func. cbv zeta.
  destruct (8 <=? b - a) eqn:Hl8; [|done].
  apply Nat.leb_le in Hl8.
  destruct (shortestNinther <=? b - a) eqn:Hl50.
  - apply Nat.leb_le in Hl50. unfold shortestNinther in Hl50.
    unfold medianAdjacent_func.
    rewrite !(median_in_order data a b) by (done || (div_facts; lia)).
    done.
  - rewrite (median_in_order data a b) by (done || (div_facts; lia)). done.
Qed.

Lemma partialInsertionSort_in_order data a b :
  sorted_on less data a b → a < b →
  partialInsertionSort_func less data a b = (true, data).
Proof.
  intros Hs Hab. unfold partialInsertionSort_func, maxSteps.
  rewrite partialInsertionSort_loop_unfold. cbv zeta.
  pose proof (scan_up_spec (λ i, negb (Less less data i (i - 1))) (b - (a + 1)) (a + 1))
    as Hup.
  cbv zeta in Hup.
  set (i1 := scan_up (b - (a + 1)) (λ i, negb (Less less data i (i - 1))) (a + 1)) in *.
  destruct Hup as (Hi1 & _ & Hend). clearbody i1.
  assert (i1 = b) as ->.
  { destruct Hend as [?|Hend]; [lia|].
    destruct (decide (i1 = b)) as [|Hne]; [done|].
    rewrite (Less_later data a b (i1 - 1) i1) in Hend by (done || lia). done. }
  by rewrite Nat.eqb_refl.
Qed.

(** [sort.Slice] leaves a slice that is in order as it is. *)
Lemma sort_Slice_in_order data :
  StronglySorted (λ x y, less y x = false) data → sort_Slice less data = data.
Proof.
  intros Hs. apply StronglySorted_sorted_on in Hs.
  destruct (decide (length data ≤ maxInsertion)) as [Hshort|Hlong].
  { rewrite sort_Slice_short by done. unfold insertionSort_func.
    destruct (decide (length data = 0)) as [Hz|Hz].
    - rewrite Hz. done.
    - apply (insertion_outer_in_order _ data 0 (length data)); [done|lia|lia]. }
  unfold maxInsertion in Hlong.
  unfold sort_Slice, sort_Slice_run. cbv zeta.
  rewrite pdqsort_unfold, Nat.sub_0_r.
  destruct (length data <=? maxInsertion) eqn:Hcmp.
  { apply Nat.leb_le in Hcmp. unfold maxInsertion in Hcmp. lia. }
  destruct (bits_Len (length data) =? 0) eqn:Hlimit.
  { apply Nat.eqb_eq in Hlimit. unfold bits_Len in Hlimit.
    destruct (length data); [lia|done]. }
  unfold pdqsort_prepare. cbn [negb andb].
  pose proof (choosePivot_in_order data 0 (length data) Hs ltac:(lia)) as Hhint.
  destruct (choosePivot_func less data 0 (length data)) as [pivot hint].
  cbn [snd] in Hhint. subst hint.
  by rewrite (partialInsertionSort_in_order data 0 (length data)) by (done || lia).
Qed.

(** Sorting twice is sorting once. *)
Lemma sort_Slice_idempotent data :
  strict_weak_order less →
  sort_Slice less (sort_Slice less data) = sort_Slice less data.
Proof. intros Hless. apply sort_Slice_in_order. by apply sort_Slice_sorted. Qed.

End SliceFacts.

(** ** The orderings of pstree.go *)

(** Comparing integer keys with [<] is a strict weak ordering. *)
Lemma key_order {A : Type} (key : A → Z) :
  strict_weak_order (λ x y, (key x <? key y)%Z).
Proof.
  split.
  - intros x y Hxy. apply Z.ltb_lt in Hxy. apply Z.ltb_ge. lia.
  - intros x y z Hyx Hzy. apply Z.ltb_ge in Hyx, Hzy. apply Z.ltb_ge. lia.
Qed.

Lemma String_ltb_leb (s1 s2 : string) :
  String.ltb s2 s1 = false ↔ String.leb s1 s2 = true.
Proof.
  unfold String.ltb, String.leb. rewrite (String.compare_antisym s1 s2).
  by destruct (String.compare s2 s1).
Qed.

(** So is comparing string keys with Go's [<], the order of the bytes. *)
Lemma string_key_order {A : Type} (key : A → string) :
  strict_weak_order (λ x y, String.ltb (key x) (key y)).
Proof.
  split.
  - intros x y. unfold String.ltb. rewrite (String.compare_antisym (key x) (key y)).
    by destruct (String.compare (key y) (key x)).
  - intros x y z. unfold String.ltb. intros Hyx Hzy.
    destruct (String.compare (key z) (key x)) eqn:Hzx; try done.
    apply OrderedTypeEx.String_as_OT.cmp_lt in Hzx.
    destruct (String.compare (key y) (key x)) eqn:Hcyx; try done.
    + apply String.compare_eq_iff in Hcyx. rewrite Hcyx in Hzy.
      apply OrderedTypeEx.String_as_OT.cmp_lt in Hzx.
      unfold OrderedTypeEx.String_as_OT.cmp in Hzx. by rewrite Hzx in Hzy.
    + assert (Hxy : String.compare (key x) (key y) = Lt).
      { rewrite String.compare_antisym, Hcyx. done. }
      apply OrderedTypeEx.String_as_OT.cmp_lt in Hxy.
      pose proof (OrderedTypeEx.String_as_OT.lt_trans _ _ _ Hzx Hxy) as Hlt.
      apply OrderedTypeEx.String_as_OT.cmp_lt in Hlt.
      unfold OrderedTypeEx.String_as_OT.cmp in Hlt. by rewrite Hlt in Hzy.
Qed.

Lemma StronglySorted_weaken {A : Type} (R1 R2 : A → A → Prop) (l : list A) :
  (∀ x y, R1 x y → R2 x y) → StronglySorted R1 l → StronglySorted R2 l.
Proof.
  intros Himpl. induction 1 as [|x l Hs IH Hall]; constructor; [done|].
  eapply Forall_impl; [exact Hall|]. intros y. apply Himpl.
Qed.

(** [sort.Slice] with [<] on an integer key. *)
Lemma sort_Slice_key_ascending {A : Type} (key : A → Z) (data : list A) :
  StronglySorted (λ x y, (key x ≤ key y)%Z)
    (sort_Slice (λ x y, (key x <? key y)%Z) data).
Proof.
  eapply StronglySorted_weaken; [|apply sort_Slice_sorted, key_order].
  intros x y Hxy. cbv beta in Hxy. apply Z.ltb_ge in Hxy. lia.
Qed.

Lemma sort_Slice_key_stable {A : Type} (key : A → Z) (data : list A) (k : Z) :
  (length data ≤ maxInsertion)%nat →
  filter (λ x, key x = k) (sort_Slice (λ x y, (key x <? key y)%Z) data)
  = filter (λ x, key x = k) data.
Proof.
  intros Hlen. apply sort_Slice_stable; [|done].
  intros x y Hxy Hx Hy. cbv beta in Hx, Hy. apply Z.ltb_lt in Hxy. lia.
Qed.

Lemma sort_Slice_key_in_order {A : Type} (key : A → Z) (data : list A) :
  StronglySorted (λ x y, (key x ≤ key y)%Z) data →
  sort_Slice (λ x y, (key x <? key y)%Z) data = data.
Proof.
  intros Hs. apply sort_Slice_in_order.
  eapply StronglySorted_weaken; [|exact Hs].
  intros x y Hxy. cbv beta in *. apply Z.ltb_ge. lia.
Qed.
From Stdlib Require SpecFloat FloatOps FloatAxioms.

(** * [sort.Slice] and a change of the element type *)

(** [sort.Slice] reads the slice through [Less] and writes it through [Swap]
    only, so that it commutes with a function applied to every element:
    ordering the images by [less] is ordering the elements by [less] of
    their images. *)
Section SortMap.
Context {A B : Type} (g : A → B) (less : B → B → bool).

Local Open Scope nat_scope.

Definition less_on : A → A → bool := λ x y, less (g x) (g y).

Lemma Less_fmap (data : list A) i j : Less less (g <$> data) i j = Less less_on data i j.
Proof.
  unfold Less. rewrite !list_lookup_fmap.
  by destruct (data !! i), (data !! j).
Qed.

Lemma Swap_fmap (data : list A) i j : Swap (g <$> data) i j = g <$> Swap data i j.
Proof.
  unfold Swap. rewrite !list_lookup_fmap.
  destruct (data !! i), (data !! j); cbn [fmap option_fmap option_map]; try done.
  by rewrite !list_fmap_insert.
Qed.

Lemma insertion_inner_fmap n (data : list A) j :
  insertion_inner less n (g <$> data) j = g <$> insertion_inner less_on n data j.
Proof.
  revert data j. induction n as [|n IH]; intros data j; [done|].
  cbn [insertion_inner]. rewrite Less_fmap.
  destruct (Less less_on data j (j - 1)); [|done].
  by rewrite Swap_fmap, IH.
Qed.

Lemma insertion_outer_fmap n (data : list A) a i :
  insertion_outer less n (g <$> data) a i = g <$> insertion_outer less_on n data a i.
Proof.
  revert data i. induction n as [|n IH]; intros data i; [done|].
  cbn [insertion_outer]. by rewrite insertion_inner_fmap, IH.
Qed.

Lemma insertionSort_fmap (data : list A) a b :
  insertionSort_func less (g <$> data) a b = g <$> insertionSort_func less_on data a b.
Proof. apply insertion_outer_fmap. Qed.

Lemma siftDown_fmap fuel (data : list A) root hi first :
  siftDown_func less fuel (g <$> data) root hi first
  = fmap (M:=list) g <$> siftDown_func less_on fuel data root hi first.
Proof.
  revert data root. induction fuel as [|fuel IH]; intros data root; [done|].
  cbn [siftDown_func]. cbv zeta. rewrite !Less_fmap.
  destruct (hi <=? 2 * root + 1); [done|].
  destruct (negb _); [done|].
  by rewrite Swap_fmap, IH.
Qed.

Lemma heap_build_fmap n (data : list A) hi first :
  heap_build less n (g <$> data) hi first
  = fmap (M:=list) g <$> heap_build less_on n data hi first.
Proof.
  revert data. induction n as [|n IH]; intros data; [done|].
  cbn [heap_build]. rewrite siftDown_fmap.
  destruct (siftDown_func less_on (S hi) data n hi first) as [data'|]; [|done].
  cbn. apply IH.
Qed.

Lemma heap_pop_fmap n (data : list A) first :
  heap_pop less n (g <$> data) first = fmap (M:=list) g <$> heap_pop less_on n data first.
Proof.
  revert data. induction n as [|n IH]; intros data; [done|].
  cbn [heap_pop]. cbv zeta. rewrite Swap_fmap, siftDown_fmap.
  destruct (siftDown_func less_on (S n) _ 0 n first) as [data'|]; [|done].
  cbn. apply IH.
Qed.

Lemma heapSort_fmap (data : list A) a b :
  heapSort_func less (g <$> data) a b = fmap (M:=list) g <$> heapSort_func less_on data a b.
Proof.
  unfold heapSort_func. cbv zeta. rewrite heap_build_fmap.
  destruct (heap_build less_on _ data (b - a) a) as [data'|]; [|done].
  cbn. apply heap_pop_fmap.
Qed.

Lemma scan_up_ext n (test test' : nat → bool) i :
  (∀ i, test i = test' i) → scan_up n test i = scan_up n test' i.
Proof.
  intros Hext. revert i. induction n as [|n IH]; intros i; [done|].
  cbn [scan_up]. by rewrite Hext, IH.
Qed.

Lemma scan_down_ext n (test test' : nat → bool) j :
  (∀ j, test j = test' j) → scan_down n test j = scan_down n test' j.
Proof.
  intros Hext. revert j. induction n as [|n IH]; intros j; [done|].
  cbn [scan_down]. by rewrite Hext, IH.
Qed.

Lemma scan_up_less_fmap n (data : list A) a i :
  scan_up n (λ i, Less less (g <$> data) i a) i
  = scan_up n (λ i, Less less_on data i a) i.
Proof. apply scan_up_ext. intros. apply Less_fmap. Qed.

Lemma scan_down_not_less_fmap n (data : list A) a j :
  scan_down n (λ j, negb (Less less (g <$> data) j a)) j
  = scan_down n (λ j, negb (Less less_on data j a)) j.
Proof. apply scan_down_ext. intros. by rewrite Less_fmap. Qed.

Lemma scan_up_not_less_fmap n (data : list A) a i :
  scan_up n (λ i, negb (Less less (g <$> data) a i)) i
  = scan_up n (λ i, negb (Less less_on data a i)) i.
Proof. apply scan_up_ext. intros. by rewrite Less_fmap. Qed.

Lemma scan_down_less_fmap n (data : list A) a j :
  scan_down n (λ j, Less less (g <$> data) a j) j
  = scan_down n (λ j, Less less_on data a j) j.
Proof. apply scan_down_ext. intros. apply Less_fmap. Qed.

Lemma scan_up_neighbours_fmap n (data : list A) i :
  scan_up n (λ i, negb (Less less (g <$> data) i (i - 1))) i
  = scan_up n (λ i, negb (Less less_on data i (i - 1))) i.
Proof. apply scan_up_ext. intros. by rewrite Less_fmap. Qed.

Lemma partition_loop_fmap fuel (data : list A) a i j :
  partition_loop less fuel (g <$> data) a i j
  = (λ r : nat * nat * list A, (r.1.1, r.1.2, g <$> r.2)) <$> partition_loop less_on fuel data a i j.
Proof.
  revert data i j. induction fuel as [|fuel IH]; intros data i j; [done|].
  cbn [partition_loop]. cbv zeta.
  rewrite !scan_up_less_fmap, !scan_down_not_less_fmap.
  destruct (_ <? _); [done|]. by rewrite Swap_fmap, IH.
Qed.

Lemma partition_fmap (data : list A) a b pivot :
  partition_func less (g <$> data) a b pivot
  = (λ r : nat * bool * list A, (r.1.1, r.1.2, g <$> r.2))
      <$> partition_func less_on data a b pivot.
Proof.
  unfold partition_func. cbv zeta.
  repeat first [ rewrite Swap_fmap | rewrite scan_up_less_fmap
               | rewrite scan_down_not_less_fmap ].
  destruct (_ <? _); [done|].
  rewrite partition_loop_fmap.
  destruct (partition_loop less_on _ _ _ _ _) as [[[i j] data']|]; [|done].
  cbn. by rewrite Swap_fmap.
Qed.

Lemma partitionEqual_loop_fmap fuel (data : list A) a i j :
  partitionEqual_loop less fuel (g <$> data) a i j
  = (λ r : nat * list A, (r.1, g <$> r.2)) <$> partitionEqual_loop less_on fuel data a i j.
Proof.
  revert data i j. induction fuel as [|fuel IH]; intros data i j; [done|].
  cbn [partitionEqual_loop]. cbv zeta.
  rewrite !scan_up_not_less_fmap, !scan_down_less_fmap.
  destruct (_ <? _); [done|]. by rewrite Swap_fmap, IH.
Qed.

Lemma partitionEqual_fmap (data : list A) a b pivot :
  partitionEqual_func less (g <$> data) a b pivot
  = (λ r : nat * list A, (r.1, g <$> r.2)) <$> partitionEqual_func less_on data a b pivot.
Proof.
  unfold partitionEqual_func. cbv zeta.
  by rewrite Swap_fmap, partitionEqual_loop_fmap.
Qed.

Lemma shift_smaller_fmap j (data : list A) :
  shift_smaller less j (g <$> data) = g <$> shift_smaller less_on j data.
Proof.
  revert data. induction j as [|j IH]; intros data; [done|].
  cbn [shift_smaller]. rewrite Less_fmap.
  destruct (negb _); [done|]. by rewrite Swap_fmap, IH.
Qed.

Lemma shift_greater_fmap n (data : list A) j :
  shift_greater less n (g <$> data) j = g <$> shift_greater less_on n data j.
Proof.
  revert data j. induction n as [|n IH]; intros data j; [done|].
  cbn [shift_greater]. rewrite Less_fmap.
  destruct (negb _); [done|]. by rewrite Swap_fmap, IH.
Qed.

Lemma partialInsertionSort_loop_fmap steps (data : list A) a b i :
  partialInsertionSort_loop less steps (g <$> data) a b i
  = prod_map id (fmap (M:=list) g) (partialInsertionSort_loop less_on steps data a b i).
Proof.
  revert data i. induction steps as [|steps IH]; intros data i; [done|].
  rewrite !partialInsertionSort_loop_unfold. cbv zeta.
  rewrite scan_up_neighbours_fmap.
  set (i1 := scan_up (b - i) (λ i, negb (Less less_on data i (i - 1))) i).
  clearbody i1.
  destruct (i1 =? b); [done|].
  destruct (b - a <? shortestShifting); [done|].
  rewrite Swap_fmap.
  destruct (2 <=? i1 - a); destruct (2 <=? b - i1);
    by rewrite ?shift_smaller_fmap, ?shift_greater_fmap, IH.
Qed.

Lemma partialInsertionSort_fmap (data : list A) a b :
  partialInsertionSort_func less (g <$> data) a b
  = prod_map id (fmap (M:=list) g) (partialInsertionSort_func less_on data a b).
Proof. apply partialInsertionSort_loop_fmap. Qed.

Lemma breakPatterns_loop_fmap n (data : list A) a length idx i random modulus :
  breakPatterns_loop n (g <$> data) a length idx i random modulus
  = g <$> breakPatterns_loop n data a length idx i random modulus.
Proof.
  revert data i random. induction n as [|n IH]; intros data i random; [done|].
  cbn [breakPatterns_loop]. cbv zeta. by rewrite Swap_fmap, IH.
Qed.

Lemma breakPatterns_fmap (data : list A) a b :
  breakPatterns_func (g <$> data) a b = g <$> breakPatterns_func data a b.
Proof.
  unfold breakPatterns_func. cbv zeta.
  destruct (8 <=? b - a); [|done]. apply breakPatterns_loop_fmap.
Qed.

Lemma order2_fmap (data : list A) a b swaps :
  order2_func less (g <$> data) a b swaps = order2_func less_on data a b swaps.
Proof. unfold order2_func. by rewrite Less_fmap. Qed.

Lemma median_fmap (data : list A) a b c swaps :
  median_func less (g <$> data) a b c swaps = median_func less_on data a b c swaps.
Proof.
  unfold median_func. rewrite order2_fmap.
  destruct (order2_func less_on data a b swaps) as [[a1 b1] swaps1].
  rewrite order2_fmap.
  destruct (order2_func less_on data b1 c swaps1) as [[b2 c2] swaps2].
  by rewrite order2_fmap.
Qed.

Lemma medianAdjacent_fmap (data : list A) a swaps :
  medianAdjacent_func less (g <$> data) a swaps
  = medianAdjacent_func less_on data a swaps.
Proof. apply median_fmap. Qed.

Lemma choosePivot_fmap (data : list A) a b :
  choosePivot_func less (g <$> data) a b = choosePivot_func less_on data a b.
Proof.
  unfold choosePivot_func. cbv zeta.
  destruct (8 <=? b - a); [|done].
  destruct (shortestNinther <=? b - a).
  - rewrite medianAdjacent_fmap.
    destruct (medianAdjacent_func less_on data _ 0) as [i1 swaps1].
    rewrite medianAdjacent_fmap.
    destruct (medianAdjacent_func less_on data _ swaps1) as [j1 swaps2].
    rewrite medianAdjacent_fmap.
    destruct (medianAdjacent_func less_on data _ swaps2) as [k1 swaps3].
    by rewrite median_fmap.
  - by rewrite median_fmap.
Qed.

Lemma reverseRange_loop_fmap n (data : list A) i j :
  reverseRange_loop n (g <$> data) i j = g <$> reverseRange_loop n data i j.
Proof.
  revert data i j. induction n as [|n IH]; intros data i j; [done|].
  cbn [reverseRange_loop]. by rewrite Swap_fmap, IH.
Qed.

Lemma reverseRange_fmap (data : list A) a b :
  reverseRange_func (g <$> data) a b = g <$> reverseRange_func data a b.
Proof. apply reverseRange_loop_fmap. Qed.

Lemma pdqsort_prepare_fmap (data : list A) a b limit wasBalanced wasPartitioned :
  pdqsort_prepare less (g <$> data) a b limit wasBalanced wasPartitioned
  = (λ r : bool * list A * nat * nat, (r.1.1.1, g <$> r.1.1.2, r.1.2, r.2))
      (pdqsort_prepare less_on data a b limit wasBalanced wasPartitioned).
Proof.
  unfold pdqsort_prepare.
  destruct wasBalanced; cbn [negb andb]; rewrite ?breakPatterns_fmap, choosePivot_fmap;
    destruct (choosePivot_func less_on _ a b) as [pivot []];
    try destruct wasPartitioned;
    rewrite ?reverseRange_fmap, ?partialInsertionSort_fmap;
    try destruct (partialInsertionSort_func less_on _ a b) as [sorted data'];
    reflexivity.
Qed.

Lemma pdqsort_fmap fuel (data : list A) a b limit wasBalanced wasPartitioned :
  pdqsort_func less fuel (g <$> data) a b limit wasBalanced wasPartitioned
  = fmap (M:=list) g <$> pdqsort_func less_on fuel data a b limit wasBalanced wasPartitioned.
Proof.
  revert data a b limit wasBalanced wasPartitioned.
  induction fuel as [|fuel IH]; intros data a b limit wasBalanced wasPartitioned;
    [done|].
  rewrite !pdqsort_unfold.
  destruct (b - a <=? maxInsertion); [by rewrite insertionSort_fmap|].
  destruct (limit =? 0); [apply heapSort_fmap|].
  rewrite pdqsort_prepare_fmap.
  destruct (pdqsort_prepare less_on data a b limit wasBalanced wasPartitioned)
    as [[[sorted data'] pivot] limit'].
  cbn [fst snd]. destruct sorted; [done|].
  rewrite Less_fmap.
  destruct (_ && _).
  - rewrite partitionEqual_fmap.
    destruct (partitionEqual_func less_on data' a b pivot) as [[mid data'']|]; [|done].
    cbn. apply IH.
  - rewrite partition_fmap.
    destruct (partition_func less_on data' a b pivot) as [[[mid already] data'']|];
      [|done].
    cbn -[Nat.div Nat.leb Nat.ltb].
    destruct (mid - a <? b - mid).
    + rewrite IH.
      destruct (pdqsort_func less_on fuel data'' a mid limit' true true)
        as [data3|]; [|done].
      cbn -[Nat.div Nat.leb Nat.ltb]. apply IH.
    + rewrite IH.
      destruct (pdqsort_func less_on fuel data'' (mid + 1) b limit' true true)
        as [data3|]; [|done].
      cbn -[Nat.div Nat.leb Nat.ltb]. apply IH.
Qed.

Lemma sort_Slice_fmap (data : list A) :
  sort_Slice less (g <$> data) = g <$> sort_Slice less_on data.
Proof.
  unfold sort_Slice, sort_Slice_run. cbv zeta.
  rewrite length_fmap, pdqsort_fmap.
  by destruct (pdqsort_func less_on _ data 0 _ _ true true).
Qed.

End SortMap.

(** ** A comparison that is an ordering on the elements at hand *)

Section SortSubset.
Context {B : Type} (less : B → B → bool) (P : B → Prop).
Hypothesis Hasym : ∀ x y, P x → P y → less x y = true → less y x = false.
Hypothesis Htrans : ∀ x y z, P x → P y → P z →
  less y x = false → less z y = false → less z x = false.

Lemma Forall_sig (data : list B) :
  Forall P data → ∃ data' : list (sig P), proj1_sig <$> data' = data.
Proof.
  induction 1 as [|x data Hx _ [data' <-]]; [by exists []|].
  by exists (exist _ x Hx :: data').
Qed.

Lemma less_on_sig_order : strict_weak_order (less_on (@proj1_sig B P) less).
Proof.
  split.
  - intros [x Hx] [y Hy]. apply Hasym; done.
  - intros [x Hx] [y Hy] [z Hz]. apply Htrans; done.
Qed.

(** [less] need only be a strict weak ordering of the elements of the
    slice. *)
Lemma sort_Slice_sorted_subset (data : list B) :
  Forall P data →
  StronglySorted (λ x y, less y x = false) (sort_Slice less data)
  ∧ Forall P (sort_Slice less data).
Proof.
  intros Hdata. destruct (Forall_sig data Hdata) as [data' <-].
  rewrite sort_Slice_fmap. split.
  - apply (StronglySorted_fmap proj1_sig
             (λ x y, less_on proj1_sig less y x = false)); [by intros x y|].
    apply sort_Slice_sorted, less_on_sig_order.
  - apply Forall_fmap, Forall_forall. intros [x Hx] _. done.
Qed.

End SortSubset.

(** ** Floats that are numbers *)

(** Where a float that is not a NaN stands among the floats: the sign class
    first, then the exponent and the mantissa, both counted downwards for a
    negative float. *)
Definition float_rank (x : SpecFloat.spec_float) : Z * Z * Z :=
  match x with
  | SpecFloat.S754_nan => (0, 0, 0)
  | SpecFloat.S754_infinity true => (-2, 0, 0)
  | SpecFloat.S754_infinity false => (2, 0, 0)
  | SpecFloat.S754_zero _ => (0, 0, 0)
  | SpecFloat.S754_finite true m e => (-1, - e, - Z.pos m)
  | SpecFloat.S754_finite false m e => (1, e, Z.pos m)
  end.

Definition rank_lt (r1 r2 : Z * Z * Z) : Prop :=
  r1.1.1 < r2.1.1
  ∨ (r1.1.1 = r2.1.1 ∧ (r1.1.2 < r2.1.2 ∨ (r1.1.2 = r2.1.2 ∧ r1.2 < r2.2))).

Lemma SFltb_rank x y :
  x ≠ SpecFloat.S754_nan → y ≠ SpecFloat.S754_nan →
  SpecFloat.SFltb x y = true ↔ rank_lt (float_rank x) (float_rank y).
Proof.
  intros Hx Hy. unfold SpecFloat.SFltb, rank_lt.
  destruct x as [sx|[]| |[] mx ex], y as [sy|[]| |[] my ey]; try done;
    cbn [SpecFloat.SFcompare float_rank fst snd];
    try (split; [done|lia]); try (split; [intros _; lia|done]);
    change (Pos.compare_cont Eq ?m ?n) with (m ?= n)%positive;
    destruct (Z.compare_spec ex ey) as [He|He|He];
    try (split; [done|lia]); try (split; [intros _; lia|done]);
    destruct (Pos.compare_spec mx my) as [Hm|Hm|Hm]; cbn [CompOpp];
    try (split; [done|lia]); try (split; [intros _; lia|done]).
Qed.

Lemma SFleb_rank x y :
  x ≠ SpecFloat.S754_nan → y ≠ SpecFloat.S754_nan →
  SpecFloat.SFleb x y = true ↔ ¬ rank_lt (float_rank y) (float_rank x).
Proof.
  intros Hx Hy. unfold SpecFloat.SFleb, rank_lt.
  destruct x as [sx|[]| |[] mx ex], y as [sy|[]| |[] my ey]; try done;
    cbn [SpecFloat.SFcompare float_rank fst snd];
    try (split; [intros _; lia|done]); try (split; [done|lia]);
    change (Pos.compare_cont Eq ?m ?n) with (m ?= n)%positive;
    destruct (Z.compare_spec ex ey) as [He|He|He];
    try (split; [intros _; lia|done]); try (split; [done|lia]);
    destruct (Pos.compare_spec mx my) as [Hm|Hm|Hm]; cbn [CompOpp];
    try (split; [intros _; lia|done]); try (split; [done|lia]).
Qed.

Lemma is_nan_Prim2SF (x : float) :
  PrimFloat.is_nan x = false → FloatOps.Prim2SF x ≠ SpecFloat.S754_nan.
Proof.
  unfold PrimFloat.is_nan. rewrite FloatAxioms.eqb_spec. intros Hnan Hx.
  by rewrite Hx in Hnan.
Qed.

Lemma float_ltb_rank (x y : float) :
  PrimFloat.is_nan x = false → PrimFloat.is_nan y = false →
  PrimFloat.ltb x y = true
  ↔ rank_lt (float_rank (FloatOps.Prim2SF x)) (float_rank (FloatOps.Prim2SF y)).
Proof.
  intros Hx Hy. rewrite FloatAxioms.ltb_spec.
  by apply SFltb_rank; apply is_nan_Prim2SF.
Qed.

Lemma float_leb_rank (x y : float) :
  PrimFloat.is_nan x = false → PrimFloat.is_nan y = false →
  PrimFloat.leb x y = true
  ↔ ¬ rank_lt (float_rank (FloatOps.Prim2SF y)) (float_rank (FloatOps.Prim2SF x)).
Proof.
  intros Hx Hy. rewrite FloatAxioms.leb_spec.
  by apply SFleb_rank; apply is_nan_Prim2SF.
Qed.

Lemma float_ltb_false (x y : float) :
  PrimFloat.is_nan x = false → PrimFloat.is_nan y = false →
  PrimFloat.ltb x y = false
  ↔ ¬ rank_lt (float_rank (FloatOps.Prim2SF x)) (float_rank (FloatOps.Prim2SF y)).
Proof.
  intros Hx Hy. rewrite <- (float_ltb_rank x y Hx Hy).
  by destruct (PrimFloat.ltb x y).
Qed.

(** On floats that are numbers [<] is a strict weak ordering. *)
Lemma float_order_asym (x y : float) :
  PrimFloat.is_nan x = false → PrimFloat.is_nan y = false →
  PrimFloat.ltb x y = true → PrimFloat.ltb y x = false.
Proof.
  intros Hx Hy. rewrite (float_ltb_rank x y), (float_ltb_false y x) by done.
  unfold rank_lt. lia.
Qed.

Lemma float_order_trans (x y z : float) :
  PrimFloat.is_nan x = false → PrimFloat.is_nan y = false →
  PrimFloat.is_nan z = false →
  PrimFloat.ltb y x = false → PrimFloat.ltb z y = false → PrimFloat.ltb z x = false.
Proof.
  intros Hx Hy Hz. rewrite !float_ltb_false by done.
  unfold rank_lt. lia.
Qed.

(** * The ordering functions of pstree.go *)

(** X1.  None of the six ordering functions loses or duplicates a process: what
    they return is a rearrangement of what they are given. *)
Theorem SortProcs_keep_every_process (processes : list Process) :
  SortProcsByAge processes ≡ₚ processes
  ∧ SortProcsByCpu processes ≡ₚ processes
  ∧ SortProcsByUsername processes ≡ₚ processes
  ∧ SortProcsByPid processes ≡ₚ processes
  ∧ SortProcsByNumThreads processes ≡ₚ processes
  ∧ ∀ sorted, SortProcsByMemory processes = Some sorted → sorted ≡ₚ processes.
Proof.
  repeat split; try (symmetry; apply sort_Slice_Permutation).
  intros sorted. unfold SortProcsByMemory.
  destruct (decide _); [by intros [= <-]|].
  destruct (forallb _ _); [|done]. intros [= <-].
  symmetry. apply sort_Slice_Permutation.
Qed.

(** X2.  The orderings by age, PID, number of threads and user name return the
    processes in ascending order of that key. *)
Theorem SortProcs_ascending (processes : list Process) :
  StronglySorted (λ p q, Process.Age p ≤ Process.Age q) (SortProcsByAge processes)
  ∧ StronglySorted (λ p q, Process.PID p ≤ Process.PID q) (SortProcsByPid processes)
  ∧ StronglySorted (λ p q, Process.NumThreads p ≤ Process.NumThreads q)
      (SortProcsByNumThreads processes)
  ∧ StronglySorted (λ p q, String.leb (Process.Username p) (Process.Username q) = true)
      (SortProcsByUsername processes).
Proof.
  split; [apply (sort_Slice_key_ascending Process.Age)|].
  split; [apply (sort_Slice_key_ascending Process.PID)|].
  split; [apply (sort_Slice_key_ascending Process.NumThreads)|].
  eapply StronglySorted_weaken;
    [|apply sort_Slice_sorted, (string_key_order Process.Username)].
  intros p q Hpq. by apply String_ltb_leb.
Qed.

(** X3.  When every process has its memory information, the ordering by memory
    returns, and returns the processes in ascending order of their RSS as
    a [float64]. *)
Theorem SortProcsByMemory_ascending (processes : list Process) :
  Forall (λ p, is_Some (Process.MemoryInfo p)) processes →
  ∃ sorted,
    SortProcsByMemory processes = Some sorted
    ∧ StronglySorted
        (λ p q, float64_of_uint64 (rss_of p) ≤ float64_of_uint64 (rss_of q)) sorted.
Proof.
  intros Hall. unfold SortProcsByMemory.
  destruct (decide _) as [Hshort|Hlong].
  - exists processes. split; [done|].
    destruct processes as [|p [|q rest]]; [constructor|repeat constructor|].
    simpl in Hshort. lia.
  - assert (Hforall : forallb (λ p, bool_decide (is_Some (Process.MemoryInfo p)))
                        processes = true).
    { apply forallb_forall. intros p Hp. apply bool_decide_eq_true.
      rewrite Forall_forall in Hall. apply Hall. by apply list_elem_of_In. }
    rewrite Hforall. eexists. split; [done|].
    apply (sort_Slice_key_ascending (λ p, float64_of_uint64 (rss_of p))).
Qed.

Lemma SortProcsByMemory_ascending_witness :
  ∃ sorted,
    SortProcsByMemory sample_nodes = Some sorted
    ∧ StronglySorted
        (λ p q, float64_of_uint64 (rss_of p) ≤ float64_of_uint64 (rss_of q)) sorted.
Proof.
  apply SortProcsByMemory_ascending.
  unfold sample_nodes, sample_process. repeat constructor; by eexists.
Defined.

Lemma StronglySorted_Forall_weaken {A} (P : A → Prop) (R R' : A → A → Prop)
    (l : list A) :
  (∀ x y, P x → P y → R x y → R' x y) →
  Forall P l → StronglySorted R l → StronglySorted R' l.
Proof.
  intros Himpl HP Hs. induction Hs as [|x l Hs IH Hall]; [constructor|].
  apply Forall_cons in HP as [Hx HP]. constructor; [by apply IH|].
  rewrite Forall_forall in *. intros y Hy. apply Himpl; auto.
Qed.

(** X24.  When no process has a NaN for its CPU percentage, the ordering by
    CPU returns the processes in ascending order of their CPU percentage. *)
Theorem SortProcsByCpu_ascending (processes : list Process) :
  Forall (λ p, PrimFloat.is_nan (Process.CPUPercent p) = false) processes →
  StronglySorted
    (λ p q, PrimFloat.leb (Process.CPUPercent p) (Process.CPUPercent q) = true)
    (SortProcsByCpu processes).
Proof.
  intros Hnumbers.
  destruct (sort_Slice_sorted_subset less_Cpu
              (λ p, PrimFloat.is_nan (Process.CPUPercent p) = false))
    with (data := processes) as [Hsorted Hstill]; [| |done|].
  - intros p q Hp Hq. by apply float_order_asym.
  - intros p q r Hp Hq Hr. by apply float_order_trans.
  - eapply StronglySorted_Forall_weaken; [|exact Hstill|exact Hsorted].
    intros p q Hp Hq Hpq. cbv beta in *. unfold less_Cpu in Hpq.
    apply float_leb_rank; [done|done|]. by apply float_ltb_false.
Qed.

Lemma SortProcsByCpu_ascending_witness :
  StronglySorted
    (λ p q, PrimFloat.leb (Process.CPUPercent p) (Process.CPUPercent q) = true)
    (SortProcsByCpu sample_nodes).
Proof.
  apply SortProcsByCpu_ascending.
  unfold sample_nodes, sample_process. repeat constructor.
Defined.

(** X4.  A slice of at most twelve processes is ordered by insertion, and the
    processes with one and the same key keep the order they came in. *)
Theorem SortProcs_short_stable (processes : list Process) :
  (length processes ≤ 12)%nat →
  (∀ age, filter (λ p, Process.Age p = age) (SortProcsByAge processes)
          = filter (λ p, Process.Age p = age) processes)
  ∧ (∀ pid, filter (λ p, Process.PID p = pid) (SortProcsByPid processes)
            = filter (λ p, Process.PID p = pid) processes)
  ∧ (∀ n, filter (λ p, Process.NumThreads p = n) (SortProcsByNumThreads processes)
          = filter (λ p, Process.NumThreads p = n) processes)
  ∧ (∀ user, filter (λ p, Process.Username p = user) (SortProcsByUsername processes)
             = filter (λ p, Process.Username p = user) processes).
Proof.
  intros Hlen.
  split; [intros k; by apply (sort_Slice_key_stable Process.Age)|].
  split; [intros k; by apply (sort_Slice_key_stable Process.PID)|].
  split; [intros k; by apply (sort_Slice_key_stable Process.NumThreads)|].
  intros user. apply sort_Slice_stable; [|done].
  intros p q Hpq Hp Hq. cbv beta in Hp, Hq. unfold less_Username in Hpq.
  rewrite Hp, Hq in Hpq.
  by rewrite (less_irrefl _ (string_key_order (λ s : string, s)) user) in Hpq.
Qed.

Lemma SortProcs_short_stable_witness :
  (length sample_nodes ≤ 12)%nat
  ∧ filter (λ p, Process.Age p = 5) (SortProcsByAge sample_nodes)
    = filter (λ p, Process.Age p = 5) sample_nodes.
Proof.
  assert (Hlen : (length sample_nodes ≤ 12)%nat) by (vm_compute; lia).
  split; [exact Hlen|].
  apply (proj1 (SortProcs_short_stable sample_nodes Hlen) 5).
Defined.

(** X5.  A process list that is in order already comes back as it is, whichever
    of the orderings it is in order for. *)
Theorem SortProcs_in_order_unchanged (processes : list Process) :
  (StronglySorted (λ p q, Process.Age p ≤ Process.Age q) processes →
   SortProcsByAge processes = processes)
  ∧ (StronglySorted (λ p q, Process.PID p ≤ Process.PID q) processes →
     SortProcsByPid processes = processes)
  ∧ (StronglySorted (λ p q, Process.NumThreads p ≤ Process.NumThreads q) processes →
     SortProcsByNumThreads processes = processes)
  ∧ (StronglySorted (λ p q, String.leb (Process.Username p) (Process.Username q) = true)
       processes →
     SortProcsByUsername processes = processes)
  ∧ (StronglySorted
       (λ p q, PrimFloat.ltb (Process.CPUPercent q) (Process.CPUPercent p) = false)
       processes →
     SortProcsByCpu processes = processes).
Proof.
  split; [apply (sort_Slice_key_in_order Process.Age)|].
  split; [apply (sort_Slice_key_in_order Process.PID)|].
  split; [apply (sort_Slice_key_in_order Process.NumThreads)|].
  split.
  - intros Hs. apply sort_Slice_in_order.
    eapply StronglySorted_weaken; [|exact Hs].
    intros p q Hpq. by apply String_ltb_leb.
  - intros Hs. by apply sort_Slice_in_order.
Qed.

(** X6.  Ordering twice is ordering once. *)
Theorem SortProcs_idempotent (processes : list Process) :
  SortProcsByAge (SortProcsByAge processes) = SortProcsByAge processes
  ∧ SortProcsByPid (SortProcsByPid processes) = SortProcsByPid processes
  ∧ SortProcsByNumThreads (SortProcsByNumThreads processes)
    = SortProcsByNumThreads processes
  ∧ SortProcsByUsername (SortProcsByUsername processes)
    = SortProcsByUsername processes.
Proof.
  split; [apply sort_Slice_idempotent, (key_order Process.Age)|].
  split; [apply sort_Slice_idempotent, (key_order Process.PID)|].
  split; [apply sort_Slice_idempotent, (key_order Process.NumThreads)|].
  apply sort_Slice_idempotent, (string_key_order Process.Username).
Qed.

(** ** Looking a process up, and collecting the processes *)

(** X7.  [GetProcessByPid] returns the first process that has the PID, and
    fails exactly when there is none. *)
Theorem GetProcessByPid_first_match (processes : list Process) (pid : Z) :
  match GetProcessByPid processes pid with
  | Ok proc =>
      ∃ before after,
        processes = before ++ proc :: after
        ∧ Process.PID proc = pid
        ∧ Forall (λ p, Process.PID p ≠ pid) before
  | Err => Forall (λ p, Process.PID p ≠ pid) processes
  end.
Proof.
  induction processes as [|p rest IH]; simpl; [constructor|].
  destruct (Process.PID p =? pid) eqn:Hpid.
  - apply Z.eqb_eq in Hpid. exists [], rest. split; [done|]. split; [done|constructor].
  - apply Z.eqb_neq in Hpid. destruct (GetProcessByPid rest pid) as [proc|].
    + destruct IH as (before & after & -> & Hproc & Hbefore).
      exists (p :: before), after. split; [done|]. split; [done|by constructor].
    + by constructor.
Qed.

Section CollectFacts.
Variable RoundFloat : float → Z → float.

Lemma GenerateProcess_PID proc miniOptions :
  Process.PID (GenerateProcess RoundFloat proc miniOptions) = OSProcess.Pid proc.
Proof.
  unfold GenerateProcess. cbv zeta.
  by destruct (ShowMemoryUsage miniOptions || _ || _).
Qed.

(** X8.  [GetProcesses] gives one record per process of the system, with the
    PIDs of the system in ascending order; it gives nothing when the system
    does not list its processes. *)
Theorem GetProcesses_ascending_pids (miniOptions : DisplayOptions) :
  GetProcesses RoundFloat Err miniOptions = None
  ∧ ∀ unsorted, ∃ processes,
      GetProcesses RoundFloat (Ok unsorted) miniOptions = Some processes
      ∧ length processes = length unsorted
      ∧ Process.PID <$> processes ≡ₚ OSProcess.Pid <$> unsorted
      ∧ StronglySorted Z.le (Process.PID <$> processes).
Proof.
  split; [done|]. intros unsorted. eexists. split; [done|].
  assert (Hpids : Process.PID <$> ((λ p, GenerateProcess RoundFloat p miniOptions)
                                     <$> SortByPid unsorted)
                  = OSProcess.Pid <$> SortByPid unsorted).
  { rewrite <- list_fmap_compose. apply list_fmap_ext. intros i p _.
    apply GenerateProcess_PID. }
  split; [|split].
  - rewrite length_fmap. unfold SortByPid.
    by rewrite <- (sort_Slice_Permutation _ unsorted).
  - rewrite Hpids. unfold SortByPid.
    by rewrite <- (sort_Slice_Permutation _ unsorted).
  - rewrite Hpids.
    apply (StronglySorted_fmap OSProcess.Pid
             (λ p q, OSProcess.Pid p ≤ OSProcess.Pid q)); [done|].
    apply (sort_Slice_key_ascending OSProcess.Pid).
Qed.

(** X9.  The list [GetProcesses] gives is in PID order, so that ordering it by
    PID changes nothing. *)
Theorem GetProcesses_SortProcsByPid (miniOptions : DisplayOptions) unsorted processes :
  GetProcesses RoundFloat unsorted miniOptions = Some processes →
  SortProcsByPid processes = processes.
Proof.
  intros Hget. destruct unsorted as [unsorted|]; [|done].
  injection Hget as <-.
  apply (sort_Slice_key_in_order Process.PID).
  apply (StronglySorted_fmap (λ p, GenerateProcess RoundFloat p miniOptions)
           (λ p q, OSProcess.Pid p ≤ OSProcess.Pid q)).
  { intros p q Hpq. by rewrite !GenerateProcess_PID. }
  apply (sort_Slice_key_ascending OSProcess.Pid).
Qed.

End CollectFacts.

Lemma GetProcesses_SortProcsByPid_witness :
  ∃ processes,
    GetProcesses (λ x _, x) (systemProcesses sample_env) plain_options = Some processes
    ∧ SortProcsByPid processes = processes.
Proof.
  eexists. split; [reflexivity|].
  apply (GetProcesses_SortProcsByPid (λ x _, x) plain_options
           (systemProcesses sample_env)).
  reflexivity.
Defined.

(** * Compact mode: reading the groups back *)

Lemma group_at_lookup (pg : GroupMap) p s o :
  group_at pg p s o
  = match pg !! p with
    | Some groups => default ∅ (groups !! s) !! o
    | None => None
    end.
Proof.
  unfold group_at. destruct (pg !! p) as [groups|]; [|done]. simpl.
  by destruct (groups !! s).
Qed.

Lemma mapM_lookup_members {B} (f : Process → B) (nodes : list Process) (l : list nat) :
  Forall (λ i, is_Some (nodes !! i)) l →
  mapM (λ i, f <$> nodes !! i) l = Some (f <$> omap (λ i, nodes !! i) l).
Proof.
  induction 1 as [|i l [n Hn] Hall IH]; [done|].
  cbn [mapM omap list_omap]. rewrite Hn. cbn. rewrite IH. done.
Qed.

Lemma members_all_present (nodes : list Process) k :
  Forall (λ i, is_Some (nodes !! i)) (members nodes k).
Proof.
  apply Forall_forall. intros i Hi. apply members_lt in Hi.
  by apply lookup_lt_is_Some_2.
Qed.

(** What [GetProcessCount] answers once the groups are those of [nodes]. *)
Lemma GetProcessCount_grouped opts nodes pg skip (i : nat) n :
  grouped opts nodes (pg, skip) → nodes !! i = Some n →
  TreeCompact.GetProcessCount nodes pg i
  = Some (if is_duplicate nodes i then (1, [], 0, 0%float, 0, 0)
          else let twins := matching nodes (key_of n) in
               (Z.of_nat (length twins), Process.PID <$> twins,
                metric_age opts twins, metric_cpu opts twins,
                metric_memory opts twins, metric_threads opts twins)).
Proof.
  intros Hinv Hi.
  destruct (grouped_has_group _ _ _ _ _ Hinv Hi) as [g Hg].
  destruct (grouped_group_at _ _ _ _ _ _ _ Hinv Hg)
    as (_ & Hcount & Hhead & Hix & _ & Hage & Hcpu & Hmemory & Hthreads).
  change (Process.PPID n, Process.Signature n, Process.Username n)
    with (key_of n) in *.
  unfold TreeCompact.GetProcessCount. rewrite Hi. cbn [mbind option_bind].
  simpl in Hg. rewrite group_at_lookup in Hg.
  destruct (pg !! Process.PPID n) as [groups|]; [|done].
  rewrite Hg. unfold is_duplicate. rewrite Hi, Hhead.
  destruct (decide (ProcessGroup.FirstIndex g = i)) as [Hfirst|Hfirst].
  - rewrite bool_decide_eq_false_2 by (rewrite Hfirst; by intros []).
    rewrite Hix, (mapM_lookup_members _ _ _ (members_all_present nodes (key_of n))).
    rewrite omap_members. cbn [mbind option_bind].
    by rewrite Hcount, length_members, Hage, Hcpu, Hmemory, Hthreads.
  - rewrite bool_decide_eq_true_2; [done|]. congruence.
Qed.

Lemma grouped_skipped opts nodes pg skip (i : nat) :
  grouped opts nodes (pg, skip) → skipped skip i = is_duplicate nodes i.
Proof.
  intros (_ & Hskip & _). unfold skipped. simpl in Hskip. rewrite Hskip.
  by destruct (is_duplicate nodes i).
Qed.

(** The method run on a tree whose group map is still empty, with what it
    leaves behind. *)
Lemma InitCompactMode_grouped (processTree : ProcessTree) :
  ProcessGroups processTree = ∅ →
  memory_readable (TreeOptions processTree) (Nodes processTree) →
  ∃ pg skip,
    TreeCompact.InitCompactMode processTree = Some (pg, skip)
    ∧ grouped (TreeOptions processTree) (Nodes processTree) (pg, skip).
Proof.
  intros Hempty Hmem.
  destruct (tree_compact_grouped processTree Hempty Hmem) as ([pg skip] & Hrun & Hinv).
  by exists pg, skip.
Qed.

(** X10.  For the first process of a group, [GetProcessCount] returns the number
    of the processes that share its parent, signature and owner, their PIDs
    in the order of the process list, and the group's metrics. *)
Theorem GetProcessCount_of_first (processTree : ProcessTree) :
  ProcessGroups processTree = ∅ →
  memory_readable (TreeOptions processTree) (Nodes processTree) →
  ∃ pg skip,
    TreeCompact.InitCompactMode processTree = Some (pg, skip)
    ∧ ∀ (i : nat) n,
        Nodes processTree !! i = Some n →
        ShouldSkipProcess skip i = false →
        let twins := filter (λ m, key_of m = key_of n) (Nodes processTree) in
        TreeCompact.GetProcessCount (Nodes processTree) pg i
        = Some (Z.of_nat (length twins), Process.PID <$> twins,
                metric_age (TreeOptions processTree) twins,
                metric_cpu (TreeOptions processTree) twins,
                metric_memory (TreeOptions processTree) twins,
                metric_threads (TreeOptions processTree) twins).
Proof.
  intros Hempty Hmem.
  destruct (InitCompactMode_grouped processTree Hempty Hmem) as (pg & skip & Hrun & Hinv).
  exists pg, skip. split; [done|]. intros i n Hi Hskip.
  rewrite (GetProcessCount_grouped _ _ _ _ _ _ Hinv Hi).
  unfold ShouldSkipProcess in Hskip.
  by rewrite <- (grouped_skipped _ _ _ _ _ Hinv), Hskip.
Qed.

Lemma GetProcessCount_of_first_witness :
  ∃ pg skip,
    TreeCompact.InitCompactMode (sample_tree metric_options) = Some (pg, skip)
    ∧ ∀ (i : nat) n,
        sample_nodes !! i = Some n →
        ShouldSkipProcess skip i = false →
        let twins := filter (λ m, key_of m = key_of n) sample_nodes in
        TreeCompact.GetProcessCount sample_nodes pg i
        = Some (Z.of_nat (length twins), Process.PID <$> twins,
                metric_age metric_options twins, metric_cpu metric_options twins,
                metric_memory metric_options twins,
                metric_threads metric_options twins).
Proof.
  apply (GetProcessCount_of_first (sample_tree metric_options)).
  - reflexivity.
  - intros _. repeat constructor; by eexists.
Defined.

(** X11.  For a process that is marked to be skipped, [GetProcessCount] returns
    the count 1, no PID and no metric. *)
Theorem GetProcessCount_of_skipped (processTree : ProcessTree) :
  ProcessGroups processTree = ∅ →
  memory_readable (TreeOptions processTree) (Nodes processTree) →
  ∃ pg skip,
    TreeCompact.InitCompactMode processTree = Some (pg, skip)
    ∧ ∀ (i : nat) n,
        Nodes processTree !! i = Some n →
        ShouldSkipProcess skip i = true →
        TreeCompact.GetProcessCount (Nodes processTree) pg i
        = Some (1, [], 0, 0%float, 0, 0).
Proof.
  intros Hempty Hmem.
  destruct (InitCompactMode_grouped processTree Hempty Hmem) as (pg & skip & Hrun & Hinv).
  exists pg, skip. split; [done|]. intros i n Hi Hskip.
  rewrite (GetProcessCount_grouped _ _ _ _ _ _ Hinv Hi).
  unfold ShouldSkipProcess in Hskip.
  by rewrite <- (grouped_skipped _ _ _ _ _ Hinv), Hskip.
Qed.

Lemma GetProcessCount_of_skipped_witness :
  ∃ pg skip,
    TreeCompact.InitCompactMode (sample_tree metric_options) = Some (pg, skip)
    ∧ ∀ (i : nat) n,
        sample_nodes !! i = Some n →
        ShouldSkipProcess skip i = true →
        TreeCompact.GetProcessCount sample_nodes pg i
        = Some (1, [], 0, 0%float, 0, 0).
Proof.
  apply (GetProcessCount_of_skipped (sample_tree metric_options)).
  - reflexivity.
  - intros _. repeat constructor; by eexists.
Defined.

Lemma key_of_Some (n : Process) (k : Z * string * string) :
  key_of <$> Some n = Some k → key_of n = k.
Proof. intros Hk. by injection Hk. Qed.

Lemma is_duplicate_earlier (nodes : list Process) (j : nat) :
  is_duplicate nodes j = true →
  ∃ (i : nat) ni nj, (i < j)%nat ∧ nodes !! i = Some ni ∧ nodes !! j = Some nj
                     ∧ key_of ni = key_of nj.
Proof.
  unfold is_duplicate. destruct (nodes !! j) as [nj|] eqn:Hj; [|done].
  intros Hdup. apply bool_decide_eq_true in Hdup.
  assert (Hin : j ∈ members nodes (key_of nj)).
  { apply elem_of_members. by rewrite Hj. }
  destruct (members nodes (key_of nj)) as [|h rest] eqn:Hm; [by apply elem_of_nil in Hin|].
  assert (Hh : h ∈ members nodes (key_of nj)) by (rewrite Hm; left).
  pose proof (members_head_le nodes (key_of nj) h j) as Hle.
  rewrite Hm in Hle. specialize (Hle eq_refl Hin).
  apply elem_of_members in Hh.
  destruct (nodes !! h) as [nh|] eqn:Hnh; [|done].
  pose proof (key_of_Some _ _ Hh) as Hkey. exists h, nh, nj.
  split; [|by repeat split]. simpl in Hdup.
  destruct (decide (h = j)) as [->|]; [done|lia].
Qed.

(** X12.  A process is marked to be skipped exactly when an earlier process of
    the list has the same parent, signature and owner. *)
Theorem ShouldSkipProcess_iff_earlier_twin (processTree : ProcessTree) :
  ProcessGroups processTree = ∅ →
  memory_readable (TreeOptions processTree) (Nodes processTree) →
  ∃ pg skip,
    TreeCompact.InitCompactMode processTree = Some (pg, skip)
    ∧ ∀ j : nat,
        ShouldSkipProcess skip j = true
        ↔ ∃ (i : nat) ni nj,
            (i < j)%nat ∧ Nodes processTree !! i = Some ni
            ∧ Nodes processTree !! j = Some nj ∧ key_of ni = key_of nj.
Proof.
  intros Hempty Hmem.
  destruct (InitCompactMode_grouped processTree Hempty Hmem) as (pg & skip & Hrun & Hinv).
  exists pg, skip. split; [done|]. intros j.
  unfold ShouldSkipProcess. rewrite (grouped_skipped _ _ _ _ j Hinv). split.
  - apply is_duplicate_earlier.
  - intros (i & ni & nj & Hlt & Hi & Hj & Hkey).
    by apply (later_member_is_duplicate _ i j ni nj).
Qed.

Lemma ShouldSkipProcess_iff_earlier_twin_witness :
  ∃ pg skip,
    TreeCompact.InitCompactMode (sample_tree metric_options) = Some (pg, skip)
    ∧ ∀ j : nat,
        ShouldSkipProcess skip j = true
        ↔ ∃ (i : nat) ni nj,
            (i < j)%nat ∧ sample_nodes !! i = Some ni
            ∧ sample_nodes !! j = Some nj ∧ key_of ni = key_of nj.
Proof.
  apply (ShouldSkipProcess_iff_earlier_twin (sample_tree metric_options)).
  - reflexivity.
  - intros _. repeat constructor; by eexists.
Defined.

(** X13.  Every process has exactly one process that is printed for it: one
    position that is not skipped and carries its parent, signature and
    owner; that position is not after its own. *)
Theorem every_process_has_one_printed_twin (processTree : ProcessTree) :
  ProcessGroups processTree = ∅ →
  memory_readable (TreeOptions processTree) (Nodes processTree) →
  ∃ pg skip,
    TreeCompact.InitCompactMode processTree = Some (pg, skip)
    ∧ ∀ (j : nat) nj,
        Nodes processTree !! j = Some nj →
        ∃ i : nat,
          (i ≤ j)%nat
          ∧ key_of <$> Nodes processTree !! i = Some (key_of nj)
          ∧ ShouldSkipProcess skip i = false
          ∧ ∀ i' : nat,
              key_of <$> Nodes processTree !! i' = Some (key_of nj) →
              ShouldSkipProcess skip i' = false → i' = i.
Proof.
  intros Hempty Hmem.
  destruct (InitCompactMode_grouped processTree Hempty Hmem) as (pg & skip & Hrun & Hinv).
  exists pg, skip. split; [done|]. intros j nj Hj.
  set (nodes := Nodes processTree) in *.
  assert (Hin : j ∈ members nodes (key_of nj)).
  { apply elem_of_members. by rewrite Hj. }
  destruct (members nodes (key_of nj)) as [|h rest] eqn:Hm; [by apply elem_of_nil in Hin|].
  assert (Hh : h ∈ members nodes (key_of nj)) by (rewrite Hm; left).
  assert (Hhead : head (members nodes (key_of nj)) = Some h) by (by rewrite Hm).
  rewrite <- Hm in Hin.
  pose proof (members_head_le nodes (key_of nj) h j Hhead Hin) as Hle.
  apply elem_of_members in Hh.
  assert (Hfree : ∀ i' : nat, key_of <$> nodes !! i' = Some (key_of nj) →
                    ShouldSkipProcess skip i' = false → i' = h).
  { intros i' Hi' Hskip. unfold ShouldSkipProcess in Hskip.
    rewrite (grouped_skipped _ _ _ _ i' Hinv) in Hskip.
    fold nodes in Hskip. unfold is_duplicate in Hskip.
    destruct (nodes !! i') as [ni'|] eqn:Hni'; [|done].
    pose proof (key_of_Some _ _ Hi') as Hkey.
    rewrite Hkey, Hhead in Hskip.
    apply bool_decide_eq_false in Hskip.
    destruct (decide (h = i')) as [->|Hne]; [done|].
    exfalso. apply Hskip. congruence. }
  exists h. split; [done|]. split; [done|]. split; [|done].
  unfold ShouldSkipProcess. rewrite (grouped_skipped _ _ _ _ h Hinv).
  fold nodes. unfold is_duplicate. destruct (nodes !! h) as [nh|] eqn:Hnh; [|done].
  pose proof (key_of_Some _ _ Hh) as Hkey.
  rewrite Hkey, Hhead.
  by apply bool_decide_eq_false_2; intros [].
Qed.

Lemma every_process_has_one_printed_twin_witness :
  ∃ pg skip,
    TreeCompact.InitCompactMode (sample_tree metric_options) = Some (pg, skip)
    ∧ ∀ (j : nat) nj,
        sample_nodes !! j = Some nj →
        ∃ i : nat,
          (i ≤ j)%nat
          ∧ key_of <$> sample_nodes !! i = Some (key_of nj)
          ∧ ShouldSkipProcess skip i = false
          ∧ ∀ i' : nat,
              key_of <$> sample_nodes !! i' = Some (key_of nj) →
              ShouldSkipProcess skip i' = false → i' = i.
Proof.
  apply (every_process_has_one_printed_twin (sample_tree metric_options)).
  - reflexivity.
  - intros _. repeat constructor; by eexists.
Defined.

(** ** The two versions of [GetProcessCount] *)

Lemma mapM_pointers_lookup (nodes : list Process) (l : list nat) :
  mapM (λ i, ptr ← (Some <$> nodes) !! i; Process.PID <$> ptr) l
  = mapM (λ i, Process.PID <$> nodes !! i) l.
Proof.
  induction l as [|i l IH]; [done|]. cbn [mapM]. rewrite IH, list_lookup_fmap.
  by destruct (nodes !! i).
Qed.

(** X14.  After the two versions of [InitCompactMode] have run on the same
    processes, the earlier [GetProcessCount] gives, for every position, the
    count and the PIDs that the method [GetProcessCount] gives. *)
Theorem GetProcessCount_versions_agree (processTree : ProcessTree) :
  ProcessGroups processTree = ∅ →
  memory_readable (TreeOptions processTree) (Nodes processTree) →
  ∃ pg skip pg',
    TreeCompact.InitCompactMode processTree = Some (pg, skip)
    ∧ SliceCompact.InitCompactMode (Some <$> Nodes processTree) = Some (pg', skip)
    ∧ ∀ i : nat,
        SliceCompactRead.GetProcessCount (Some <$> Nodes processTree) pg' i
        = (λ '(count, groupPIDs, _, _, _, _), (count, groupPIDs))
            <$> TreeCompact.GetProcessCount (Nodes processTree) pg i.
Proof.
  intros Hempty Hmem.
  destruct (tree_compact_grouped processTree Hempty Hmem) as ([pg skip] & Hrun & Hinv).
  destruct (slice_simulates processTree _ Hempty Hrun) as (pg' & Hrun' & Hsame).
  exists pg, skip, pg'. split; [done|]. split; [done|]. intros i.
  unfold SliceCompactRead.GetProcessCount, TreeCompact.GetProcessCount.
  rewrite list_lookup_fmap.
  destruct (Nodes processTree !! i) as [n|]; [|done]. cbn [fmap option_fmap option_map
    mbind option_bind].
  pose proof (Hsame (Process.PPID n) (Process.Signature n) (Process.Username n)) as Hat.
  rewrite !group_at_lookup in Hat. simpl in Hat.
  destruct (pg !! Process.PPID n) as [groups|], (pg' !! Process.PPID n) as [groups'|];
    try (by inversion Hat).
  destruct Hat as [g g' (Hc & Hf & Hi & Ho)|]; [|done].
  rewrite <- Hf, <- Hi, <- Hc, mapM_pointers_lookup.
  destruct (decide (ProcessGroup.FirstIndex g = i)); [|done].
  by destruct (mapM _ (ProcessGroup.Indices g)).
Qed.

Lemma GetProcessCount_versions_agree_witness :
  ∃ pg skip pg',
    TreeCompact.InitCompactMode (sample_tree metric_options) = Some (pg, skip)
    ∧ SliceCompact.InitCompactMode (Some <$> sample_nodes) = Some (pg', skip)
    ∧ ∀ i : nat,
        SliceCompactRead.GetProcessCount (Some <$> sample_nodes) pg' i
        = (λ '(count, groupPIDs, _, _, _, _), (count, groupPIDs))
            <$> TreeCompact.GetProcessCount sample_nodes pg i.
Proof.
  apply (GetProcessCount_versions_agree (sample_tree metric_options)).
  - reflexivity.
  - intros _. repeat constructor; by eexists.
Defined.

(** ** Calling the method a second time *)

#[local] Arguments TreeCompact.step : simpl never.

(** The state of a run that started from the group map [pg0] with an empty
    skip map and has seen the nodes [pre], every one of which had a group
    in [pg0]: each of those groups has grown by the nodes of [pre] that
    carry its key, and every position seen is marked. *)
Definition regrouped (pg0 : GroupMap) (pre : list Process) (st : GroupMap * SkipMap)
  : Prop :=
  (∀ p s o g, group_at pg0 p s o = Some g →
     ∃ g2, group_at st.1 p s o = Some g2
           ∧ ProcessGroup.Count g2
             = ProcessGroup.Count g + Z.of_nat (length (members pre (p, s, o)))
           ∧ ProcessGroup.FirstIndex g2 = ProcessGroup.FirstIndex g
           ∧ ProcessGroup.Indices g2 = ProcessGroup.Indices g ++ members pre (p, s, o))
  ∧ (∀ i : nat, st.2 !! i = if decide (i < length pre)%nat then Some true else None).

Lemma regrouped_step opts pg0 pre node st :
  regrouped pg0 pre st →
  is_Some (group_at pg0 (Process.PPID node) (Process.Signature node)
             (Process.Username node)) →
  (ShowMemoryUsage opts = true → is_Some (Process.MemoryInfo node)) →
  ∃ st', TreeCompact.step opts (length pre) node st = Some st'
         ∧ regrouped pg0 (pre ++ [node]) st'.
Proof.
  destruct st as [pg skip]. intros [Hgroups Hskip] [g0 Hg0] Hmem. simpl in *.
  rewrite tree_step_upsert.
  assert (Hfree : skipped skip (length pre) = false).
  { unfold skipped. rewrite Hskip, decide_False by lia. done. }
  rewrite Hfree.
  destruct (Hgroups _ _ _ _ Hg0) as (g2 & Hat & Hc & Hf & Hi).
  rewrite Hat, aggregate_readable by done. simpl. eexists. split; [done|].
  split; simpl.
  - intros p s o g Hg. rewrite group_at_upsert, members_snoc.
    destruct (decide ((p, s, o) = key_of node)) as [Hkey|Hkey].
    + rewrite decide_True by done. unfold key_of in Hkey.
      injection Hkey as -> -> ->.
      rewrite decide_True by done. eexists. split; [done|]. simpl.
      replace g with g0 by congruence.
      rewrite Hc, Hf, Hi, length_app, <- app_assoc. simpl. split; [lia|done].
    + rewrite decide_False by done.
      rewrite decide_False by (intros Heq; by apply Hkey).
      rewrite app_nil_r. by apply Hgroups.
  - intros i. rewrite length_app. simpl.
    destruct (decide (i = length pre)) as [->|Hne].
    + rewrite lookup_insert_eq, decide_True by lia. done.
    + rewrite lookup_insert_ne, Hskip by done.
      destruct (decide (i < length pre)%nat), (decide (i < length pre + 1)%nat);
        try done; lia.
Qed.

Lemma regrouped_loop opts pg0 rest : ∀ pre st,
  regrouped pg0 pre st →
  Forall (λ n, is_Some (group_at pg0 (Process.PPID n) (Process.Signature n)
                          (Process.Username n))) rest →
  (ShowMemoryUsage opts = true → Forall (λ n, is_Some (Process.MemoryInfo n)) rest) →
  ∃ st', TreeCompact.loop opts (length pre) rest st = Some st'
         ∧ regrouped pg0 (pre ++ rest) st'.
Proof.
  induction rest as [|node rest IH]; intros pre st Hinv Hkeys Hmem; simpl.
  - exists st. by rewrite app_nil_r.
  - apply Forall_cons in Hkeys as [Hkey Hkeys].
    destruct (regrouped_step opts pg0 pre node st Hinv Hkey) as (st1 & Hstep & Hinv1).
    { intros Hshow. specialize (Hmem Hshow). by apply Forall_cons in Hmem as [? _]. }
    rewrite Hstep. simpl.
    destruct (IH (pre ++ [node]) st1 Hinv1 Hkeys) as (st2 & Hloop & Hinv2).
    { intros Hshow. specialize (Hmem Hshow). by apply Forall_cons in Hmem as [_ ?]. }
    rewrite length_app in Hloop. simpl in Hloop.
    rewrite Nat.add_1_r in Hloop. exists st2. split; [done|].
    by rewrite <- app_assoc in Hinv2.
Qed.

(** X15.  The method does not empty [processTree.ProcessGroups] before it
    starts.  Called a second time on the tree it has filled, it finds a
    group for every node: every position ends up marked to be skipped, the
    first of each group too, and every group holds each member twice. *)
Theorem InitCompactMode_second_call (processTree : ProcessTree) :
  ProcessGroups processTree = ∅ →
  memory_readable (TreeOptions processTree) (Nodes processTree) →
  ∃ pg skip pg2 skip2,
    TreeCompact.InitCompactMode processTree = Some (pg, skip)
    ∧ TreeCompact.InitCompactMode (with_groups processTree pg) = Some (pg2, skip2)
    ∧ (∀ i : nat, (i < length (Nodes processTree))%nat →
         ShouldSkipProcess skip2 i = true)
    ∧ ∀ parent sig owner g,
        group_at pg parent sig owner = Some g →
        ∃ g2, group_at pg2 parent sig owner = Some g2
              ∧ ProcessGroup.Count g2 = 2 * ProcessGroup.Count g
              ∧ ProcessGroup.Indices g2
                = ProcessGroup.Indices g ++ ProcessGroup.Indices g.
Proof.
  intros Hempty Hmem.
  destruct (InitCompactMode_grouped processTree Hempty Hmem) as (pg & skip & Hrun & Hinv).
  destruct (regrouped_loop (TreeOptions processTree) pg (Nodes processTree) [] (pg, ∅))
    as ([pg2 skip2] & Hrun2 & Hgroups2 & Hskip2).
  { split; simpl.
    - intros p s o g Hg. exists g. rewrite app_nil_r. split; [done|].
      split; [lia|done].
    - intros i. by rewrite lookup_empty. }
  { apply Forall_forall. intros n Hn.
    apply list_elem_of_lookup in Hn as [i Hi].
    destruct (grouped_has_group _ _ _ _ _ Hinv Hi) as [g Hg]. by exists g. }
  { done. }
  exists pg, skip, pg2, skip2. split; [done|]. split; [done|]. simpl in *. split.
  - intros i Hi. unfold ShouldSkipProcess, skipped.
    rewrite Hskip2, decide_True by done. done.
  - intros p s o g Hg.
    destruct (Hgroups2 _ _ _ _ Hg) as (g2 & Hat & Hc & _ & Hi).
    destruct (grouped_group_at _ _ _ _ _ _ _ Hinv Hg) as (_ & Hcount & _ & Hix & _).
    exists g2. split; [done|]. rewrite Hc, Hi, <- Hcount, <- Hix. split; [lia|done].
Qed.

Lemma InitCompactMode_second_call_witness :
  ∃ pg skip pg2 skip2,
    TreeCompact.InitCompactMode (sample_tree metric_options) = Some (pg, skip)
    ∧ TreeCompact.InitCompactMode (with_groups (sample_tree metric_options) pg)
      = Some (pg2, skip2)
    ∧ (∀ i : nat, (i < length sample_nodes)%nat → ShouldSkipProcess skip2 i = true)
    ∧ ∀ parent sig owner g,
        group_at pg parent sig owner = Some g →
        ∃ g2, group_at pg2 parent sig owner = Some g2
              ∧ ProcessGroup.Count g2 = 2 * ProcessGroup.Count g
              ∧ ProcessGroup.Indices g2
                = ProcessGroup.Indices g ++ ProcessGroup.Indices g.
Proof.
  apply (InitCompactMode_second_call (sample_tree metric_options)).
  - reflexivity.
  - intros _. repeat constructor; by eexists.
Defined.

(** * The run command: what reaches the tree *)

(** The options [pstreeRunCmd] collects the processes with. *)
Definition run_miniOptions (f : Flags) (flagUsername : list string) : DisplayOptions :=
  let all := flagShowAll f in
  {| ColorAttr := flagColorAttr f; ColorCount := 0; ColorizeOutput := false;
     ColorScheme := EmptyString; ColorSupport := false; CompactMode := false;
     Contains := EmptyString; ExcludeRoot := false; IBM850Graphics := false;
     InstalledMemory := 0; MaxDepth := 0; OrderBy := flagOrderBy f;
     RainbowOutput := false; RootPID := 0; ScreenWidth := 0;
     ShowArguments := flagArguments f || all; ShowCpuPercent := flagCpu f || all;
     ShowMemoryUsage := flagMemory f || all; ShowNumThreads := flagThreads f || all;
     ShowOwner := flagShowOwner f || all; ShowPGIDs := flagShowPGIDs f;
     ShowPGLs := flagShowPGLs f || all; ShowPIDs := false; ShowPPIDs := false;
     ShowProcessAge := flagAge f || all;
     ShowUIDTransitions := flagShowUIDTransitions f;
     ShowUserTransitions := flagShowUserTransitions f; Usernames := flagUsername;
     UTF8Graphics := false; VT100Graphics := false; WideDisplay := false |}.

(** The display options [pstreeRunCmd] builds, from the flags as the
    order-by block leaves them. *)
Definition run_displayOptions (env : Env) (f : Flags) (flagUsername : list string)
    (total : Z) (flagAge flagCpu flagMemory flagShowPIDs flagThreads flagShowOwner : bool)
  : DisplayOptions :=
  let all := flagShowAll f in
  {| ColorAttr := flagColorAttr f; ColorCount := colorCount env;
     ColorizeOutput :=
       if negb (eqb_string (flagColorScheme f) EmptyString) then true
       else flagColor f;
     ColorScheme := flagColorScheme f;
     ColorSupport := colorSupport env;
     CompactMode :=
       negb (if negb (eqb_string (flagColorAttr f) EmptyString)
                || negb (eqb_string (flagContains f) EmptyString)
             then true else flagCompactNot f);
     Contains := flagContains f; ExcludeRoot := flagExcludeRoot f;
     IBM850Graphics := flagIBM850 f; InstalledMemory := total;
     MaxDepth := if flagLevel f =? 0 then 999 else flagLevel f;
     OrderBy := flagOrderBy f;
     RainbowOutput := flagRainbow f; RootPID := flagPid f;
     ScreenWidth := screenWidth env; ShowArguments := flagArguments f || all;
     ShowCpuPercent := flagCpu; ShowMemoryUsage := flagMemory;
     ShowNumThreads := flagThreads; ShowOwner := flagShowOwner;
     ShowPGIDs := flagShowPGIDs f; ShowPGLs := flagShowPGLs f || all;
     ShowPIDs := flagShowPIDs; ShowPPIDs := flagShowPPIDs f || all;
     ShowProcessAge := flagAge; ShowUIDTransitions := flagShowUIDTransitions f;
     ShowUserTransitions := flagShowUserTransitions f; Usernames := flagUsername;
     UTF8Graphics := flagUTF8 f; VT100Graphics := flagVT100 f;
     WideDisplay := flagWide f |}.

(** How a run that passes the flag rules goes on. *)
Lemma run_after_rules env f :
  rules_pass f = true →
  pstreeRunCmd env f
  = if flagVersion f then ExitProgram 0 else
    match existingUsers env (flagUsername f) with
    | None => Panic
    | Some flagUsername =>
        match GetProcesses (RoundFloat env) (systemProcesses env)
                (run_miniOptions f flagUsername) with
        | None => ExitProgram 1
        | Some processes =>
            let all := flagShowAll f in
            match order_block (flagOrderBy f) processes (flagAge f || all)
                    (flagCpu f || all) (flagMemory f || all) (flagShowPIDs f || all)
                    (flagThreads f || all) (flagShowOwner f || all) with
            | OrderError message => ReturnError message
            | OrderPanic => Panic
            | OrderDone processes flagAge flagCpu flagMemory flagShowPIDs flagThreads
                flagShowOwner =>
                match totalMemory env with
                | None => Panic
                | Some total =>
                    BuildTree processes
                      (run_displayOptions env f flagUsername total flagAge flagCpu
                         flagMemory flagShowPIDs flagThreads flagShowOwner)
                end
            end
        end
    end.
Proof. intros Hrules. by rewrite (rules_pass_run env f Hrules). Qed.

(** What has happened when a run reaches the construction of the tree. *)
Lemma run_inversion env f processes displayOptions :
  pstreeRunCmd env f = BuildTree processes displayOptions →
  rules_pass f = true ∧ flagVersion f = false
  ∧ ∃ users collected total age cpu memory pids threads owner,
      existingUsers env (flagUsername f) = Some users
      ∧ GetProcesses (RoundFloat env) (systemProcesses env) (run_miniOptions f users)
        = Some collected
      ∧ order_block (flagOrderBy f) collected (flagAge f || flagShowAll f)
          (flagCpu f || flagShowAll f) (flagMemory f || flagShowAll f)
          (flagShowPIDs f || flagShowAll f) (flagThreads f || flagShowAll f)
          (flagShowOwner f || flagShowAll f)
        = OrderDone processes age cpu memory pids threads owner
      ∧ totalMemory env = Some total
      ∧ displayOptions
        = run_displayOptions env f users total age cpu memory pids threads owner.
Proof.
  intros Hrun. pose proof (run_builds_tree _ _ _ _ Hrun) as Hrules.
  split; [done|]. rewrite (run_after_rules env f Hrules) in Hrun.
  destruct (flagVersion f); [done|]. split; [done|].
  destruct (existingUsers env (flagUsername f)) as [users|] eqn:Husers; [|done].
  destruct (GetProcesses _ _ _) as [collected|] eqn:Hget; [|done].
  cbv zeta in Hrun.
  destruct (order_block _ _ _ _ _ _ _ _) as [?| |ps a c m pi t o] eqn:Horder; try done.
  destruct (totalMemory env) as [total|] eqn:Htotal; [|done].
  injection Hrun as <- <-.
  by exists users, collected, total, a, c, m, pi, t, o.
Qed.

(** ** The order-by block *)

Lemma valid_order_key (key : string) :
  slices_Contains validOrderBy key = true →
  key = "age"%string ∨ key = "cpu"%string ∨ key = "mem"%string
  ∨ key = "pid"%string ∨ key = "threads"%string ∨ key = "user"%string.
Proof.
  unfold slices_Contains, validOrderBy. intros Hin.
  apply bool_decide_eq_true in Hin.
  repeat (apply elem_of_cons in Hin as [Hin|Hin]; [tauto|]).
  by apply elem_of_nil in Hin.
Qed.

Lemma eqb_string_refl (s : string) : eqb_string s s = true.
Proof. by apply eqb_string_true. Qed.

(** Deciding the tests of a chain of string comparisons between literals. *)
Ltac eqb_strings :=
  repeat first
    [ rewrite eqb_string_refl
    | rewrite (proj2 (eqb_string_false _ _)) by discriminate ];
  cbv beta iota zeta.

(** What the block has done when it is entered and runs to its end: the
    first process with PID 1, then the ordered list without the processes
    with PID 1, and the display flag of the key is set. *)
Lemma order_block_done key collected a c m pi t o processes a' c' m' pi' t' o' :
  key ≠ EmptyString →
  order_block key collected a c m pi t o = OrderDone processes a' c' m' pi' t' o' →
  ∃ root sorted,
    GetProcessByPid collected 1 = Ok root
    ∧ processes = root :: filter (λ p, Process.PID p ≠ 1) sorted
    ∧ ((key = "age"%string ∧ sorted = SortProcsByAge collected
        ∧ (a', c', m', pi', t', o') = (true, c, m, pi, t, o))
       ∨ (key = "cpu"%string ∧ sorted = SortProcsByCpu collected
          ∧ (a', c', m', pi', t', o') = (a, true, m, pi, t, o))
       ∨ (key = "mem"%string ∧ SortProcsByMemory collected = Some sorted
          ∧ (a', c', m', pi', t', o') = (a, c, true, pi, t, o))
       ∨ (key = "pid"%string ∧ sorted = SortProcsByPid collected
          ∧ (a', c', m', pi', t', o') = (a, c, m, true, t, o))
       ∨ (key = "threads"%string ∧ sorted = SortProcsByNumThreads collected
          ∧ (a', c', m', pi', t', o') = (a, c, m, pi, true, o))
       ∨ (key = "user"%string ∧ sorted = SortProcsByUsername collected
          ∧ (a', c', m', pi', t', o') = (a, c, m, pi, t, true))).
Proof.
  intros Hkey. unfold order_block.
  rewrite (proj2 (eqb_string_false key EmptyString) Hkey).
  destruct (slices_Contains validOrderBy key) eqn:Hvalid; [|done].
  cbv beta iota zeta. unfold negb.
  destruct (GetProcessByPid collected 1) as [root|]; [|done].
  apply valid_order_key in Hvalid.
  destruct Hvalid as [->|[->|[->|[->|[->| ->]]]]]; eqb_strings.
  - intros [= <- <- <- <- <- <- <-]. exists root, (SortProcsByAge collected). tauto.
  - intros [= <- <- <- <- <- <- <-]. exists root, (SortProcsByCpu collected). tauto.
  - destruct (SortProcsByMemory collected) as [sorted|] eqn:Hsort; [|done].
    intros [= <- <- <- <- <- <- <-]. exists root, sorted. tauto.
  - intros [= <- <- <- <- <- <- <-]. exists root, (SortProcsByPid collected). tauto.
  - intros [= <- <- <- <- <- <- <-]. exists root, (SortProcsByNumThreads collected).
    tauto.
  - intros [= <- <- <- <- <- <- <-]. exists root, (SortProcsByUsername collected).
    tauto.
Qed.

Lemma GetProcessByPid_Ok processes pid proc :
  GetProcessByPid processes pid = Ok proc → proc ∈ processes ∧ Process.PID proc = pid.
Proof.
  induction processes as [|p rest IH]; simpl; [done|].
  destruct (Process.PID p =? pid) eqn:Hpid.
  - intros [= <-]. apply Z.eqb_eq in Hpid. split; [left|done].
  - intros Hrest. destruct (IH Hrest) as [Hin Hproc]. split; [by right|done].
Qed.

Lemma GetProcessByPid_found processes pid :
  pid ∈ Process.PID <$> processes → ∃ proc, GetProcessByPid processes pid = Ok proc.
Proof.
  induction processes as [|p rest IH]; simpl; [by intros ?%elem_of_nil|].
  intros Hin. destruct (Process.PID p =? pid) eqn:Hpid; [by eexists|].
  apply Z.eqb_neq in Hpid. apply elem_of_cons in Hin as [Hin|Hin]; [done|].
  by apply IH.
Qed.

Lemma GetProcessByPid_missing processes pid :
  pid ∉ Process.PID <$> processes → GetProcessByPid processes pid = Err.
Proof.
  induction processes as [|p rest IH]; simpl; [done|].
  intros Hin. apply not_elem_of_cons in Hin as [Hne Hin].
  destruct (Process.PID p =? pid) eqn:Hpid; [|by apply IH].
  apply Z.eqb_eq in Hpid. done.
Qed.

Lemma GetProcesses_pids roundFloat unsorted miniOptions collected :
  GetProcesses roundFloat unsorted miniOptions = Some collected →
  ∃ os, unsorted = Ok os
        ∧ Process.PID <$> collected ≡ₚ OSProcess.Pid <$> os
        ∧ StronglySorted (λ p q, Process.PID p ≤ Process.PID q) collected.
Proof.
  destruct unsorted as [os|]; [|done]. intros [= <-]. exists os. split; [done|].
  split.
  - assert (Hpids : Process.PID <$> ((λ p, GenerateProcess roundFloat p miniOptions)
                                       <$> SortByPid os)
                    = OSProcess.Pid <$> SortByPid os).
    { rewrite <- list_fmap_compose. apply list_fmap_ext. intros i p _.
      apply GenerateProcess_PID. }
    rewrite Hpids. unfold SortByPid. by rewrite <- (sort_Slice_Permutation _ os).
  - apply (StronglySorted_fmap (λ p, GenerateProcess roundFloat p miniOptions)
             (λ p q, OSProcess.Pid p ≤ OSProcess.Pid q)).
    { intros p q Hpq. by rewrite !GenerateProcess_PID. }
    apply (sort_Slice_key_ascending OSProcess.Pid).
Qed.

Lemma StronglySorted_filter {A} (R : A → A → Prop) (P : A → Prop)
    `{∀ x, Decision (P x)} (l : list A) :
  StronglySorted R l → StronglySorted R (filter P l).
Proof.
  induction 1 as [|x l Hs IH Hall]; [constructor|].
  rewrite filter_cons. destruct (decide (P x)); [|done].
  constructor; [done|]. apply Forall_forall. intros y Hy.
  apply list_elem_of_filter in Hy as [_ Hy].
  rewrite Forall_forall in Hall. by apply Hall.
Qed.

(** ** What the run hands to the tree *)

(** X16.  When a sort key is given and the run reaches the construction of the
    tree, the process list starts with a process whose PID is 1, no other
    process of the list has PID 1, and the processes after the first are in
    ascending order of the key (for the memory key: of the RSS as a
    [float64]). *)
Theorem order_by_puts_pid_1_first env f processes displayOptions :
  pstreeRunCmd env f = BuildTree processes displayOptions →
  flagOrderBy f ≠ EmptyString →
  ∃ root rest,
    processes = root :: rest
    ∧ Process.PID root = 1
    ∧ Forall (λ p, Process.PID p ≠ 1) rest
    ∧ (flagOrderBy f = "age"%string →
       StronglySorted (λ p q, Process.Age p ≤ Process.Age q) rest)
    ∧ (flagOrderBy f = "pid"%string →
       StronglySorted (λ p q, Process.PID p ≤ Process.PID q) rest)
    ∧ (flagOrderBy f = "threads"%string →
       StronglySorted (λ p q, Process.NumThreads p ≤ Process.NumThreads q) rest)
    ∧ (flagOrderBy f = "user"%string →
       StronglySorted
         (λ p q, String.leb (Process.Username p) (Process.Username q) = true) rest)
    ∧ (flagOrderBy f = "mem"%string →
       StronglySorted
         (λ p q, float64_of_uint64 (rss_of p) ≤ float64_of_uint64 (rss_of q)) rest).
Proof.
  intros Hrun Hkey.
  destruct (run_inversion _ _ _ _ Hrun)
    as (_ & _ & users & collected & total & a & c & m & pi & t & o
        & _ & Hget & Horder & _ & _).
  destruct (order_block_done _ _ _ _ _ _ _ _ _ _ _ _ _ _ _ Hkey Horder)
    as (root & sorted & Hroot & -> & Hcases).
  exists root, (filter (λ p, Process.PID p ≠ 1) sorted).
  split; [done|]. split; [by apply (GetProcessByPid_Ok collected 1 root)|].
  split.
  { apply Forall_forall. intros p Hp. by apply list_elem_of_filter in Hp as [? _]. }
  repeat split; intros Hk; rewrite Hk in Hcases;
    destruct Hcases as [(Hk' & Hs & _)|[(Hk' & Hs & _)|[(Hk' & Hs & _)|
                        [(Hk' & Hs & _)|[(Hk' & Hs & _)|(Hk' & Hs & _)]]]]];
    try discriminate Hk'; apply StronglySorted_filter.
  - rewrite Hs. apply (sort_Slice_key_ascending Process.Age).
  - rewrite Hs. apply (sort_Slice_key_ascending Process.PID).
  - rewrite Hs. apply (sort_Slice_key_ascending Process.NumThreads).
  - rewrite Hs. eapply StronglySorted_weaken;
      [|apply sort_Slice_sorted, (string_key_order Process.Username)].
    intros p q Hpq. by apply String_ltb_leb.
  - unfold SortProcsByMemory in Hs.
    destruct (decide _) as [Hshort|Hlong].
    + injection Hs as <-.
      destruct collected as [|p [|q more]]; [constructor|repeat constructor|].
      simpl in Hshort. lia.
    + destruct (forallb _ _); [|done]. injection Hs as <-.
      apply (sort_Slice_key_ascending (λ p, float64_of_uint64 (rss_of p))).
Qed.

Lemma order_by_puts_pid_1_first_witness :
  match pstreeRunCmd sample_env (with_order_by "user" no_flags) with
  | BuildTree processes _ =>
      ∃ root rest,
        processes = root :: rest ∧ Process.PID root = 1
        ∧ Forall (λ p, Process.PID p ≠ 1) rest
        ∧ StronglySorted
            (λ p q, String.leb (Process.Username p) (Process.Username q) = true) rest
  | _ => False
  end.
Proof.
  destruct (pstreeRunCmd sample_env (with_order_by "user" no_flags))
    as [| | |processes displayOptions] eqn:Hrun;
    try (vm_compute in Hrun; discriminate Hrun).
  destruct (order_by_puts_pid_1_first _ _ _ _ Hrun)
    as (root & rest & Hlist & Hroot & Hrest & _ & _ & _ & Huser & _); [done|].
  exists root, rest. repeat split; try done. by apply Huser.
Defined.

Lemma order_block_skipped collected a c m pi t o :
  order_block EmptyString collected a c m pi t o = OrderDone collected a c m pi t o.
Proof. unfold order_block. by rewrite eqb_string_refl. Qed.

(** X17.  When a run reaches the construction of the tree, each of the six
    display flags a sort key stands for is set in the display options
    exactly when its own flag or the show-all flag was given or the run is
    ordered by its key. *)
Theorem order_by_shows_its_key env f processes displayOptions :
  pstreeRunCmd env f = BuildTree processes displayOptions →
  ShowProcessAge displayOptions
  = flagAge f || flagShowAll f || eqb_string (flagOrderBy f) "age"
  ∧ ShowCpuPercent displayOptions
    = flagCpu f || flagShowAll f || eqb_string (flagOrderBy f) "cpu"
  ∧ ShowMemoryUsage displayOptions
    = flagMemory f || flagShowAll f || eqb_string (flagOrderBy f) "mem"
  ∧ ShowPIDs displayOptions
    = flagShowPIDs f || flagShowAll f || eqb_string (flagOrderBy f) "pid"
  ∧ ShowNumThreads displayOptions
    = flagThreads f || flagShowAll f || eqb_string (flagOrderBy f) "threads"
  ∧ ShowOwner displayOptions
    = flagShowOwner f || flagShowAll f || eqb_string (flagOrderBy f) "user".
Proof.
  intros Hrun.
  destruct (run_inversion _ _ _ _ Hrun)
    as (_ & _ & users & collected & total & a & c & m & pi & t & o
        & _ & _ & Horder & _ & ->).
  unfold run_displayOptions. cbn [ShowProcessAge ShowCpuPercent ShowMemoryUsage
    ShowPIDs ShowNumThreads ShowOwner].
  destruct (decide (flagOrderBy f = EmptyString)) as [Hkey|Hkey].
  - rewrite Hkey in *. rewrite order_block_skipped in Horder.
    injection Horder as _ <- <- <- <- <- <-. eqb_strings.
    by rewrite !orb_false_r.
  - destruct (order_block_done _ _ _ _ _ _ _ _ _ _ _ _ _ _ _ Hkey Horder)
      as (root & sorted & _ & _ & Hcases).
    destruct Hcases as [(-> & _ & Hf)|[(-> & _ & Hf)|[(-> & _ & Hf)|
                        [(-> & _ & Hf)|[(-> & _ & Hf)|(-> & _ & Hf)]]]]];
      injection Hf as -> -> -> -> -> ->; eqb_strings;
      by rewrite ?orb_false_r, ?orb_true_r.
Qed.

Lemma order_by_shows_its_key_witness :
  match pstreeRunCmd sample_env (with_order_by "threads" no_flags) with
  | BuildTree _ displayOptions =>
      ShowNumThreads displayOptions = true ∧ ShowOwner displayOptions = false
  | _ => False
  end.
Proof.
  destruct (pstreeRunCmd sample_env (with_order_by "threads" no_flags))
    as [| | |processes displayOptions] eqn:Hrun;
    try (vm_compute in Hrun; discriminate Hrun).
  destruct (order_by_shows_its_key _ _ _ _ Hrun)
    as (_ & _ & _ & _ & Hthreads & Howner).
  by rewrite Hthreads, Howner.
Defined.

Lemma filter_fmap {A B} (g : A → B) (P : B → Prop) `{∀ x, Decision (P x)}
    (l : list A) :
  filter P (g <$> l) = g <$> filter (λ x, P (g x)) l.
Proof.
  induction l as [|x l IH]; [done|].
  rewrite fmap_cons, !filter_cons. destruct (decide (P (g x))); by rewrite IH.
Qed.

Lemma SortProcsByMemory_Permutation collected sorted :
  SortProcsByMemory collected = Some sorted → sorted ≡ₚ collected.
Proof.
  unfold SortProcsByMemory. destruct (decide _); [by intros [= <-]|].
  destruct (forallb _ _); [|done]. intros [= <-].
  by rewrite <- (sort_Slice_Permutation _ collected).
Qed.

(** X18.  A run that reaches the construction of the tree loses and invents no
    process.  Without a sort key the list has the PIDs the system listed,
    in ascending order.  With a sort key it has PID 1 once, whatever number
    of processes with PID 1 the system listed, and every other PID as often
    as the system listed it. *)
Theorem run_keeps_every_process env f processes displayOptions :
  pstreeRunCmd env f = BuildTree processes displayOptions →
  ∃ os,
    systemProcesses env = Ok os
    ∧ (flagOrderBy f = EmptyString →
       Process.PID <$> processes ≡ₚ OSProcess.Pid <$> os
       ∧ StronglySorted (λ p q, Process.PID p ≤ Process.PID q) processes)
    ∧ (flagOrderBy f ≠ EmptyString →
       Process.PID <$> processes
       ≡ₚ 1 :: filter (λ pid, pid ≠ 1) (OSProcess.Pid <$> os)).
Proof.
  intros Hrun.
  destruct (run_inversion _ _ _ _ Hrun)
    as (_ & _ & users & collected & total & a & c & m & pi & t & o
        & _ & Hget & Horder & _ & _).
  destruct (GetProcesses_pids _ _ _ _ Hget) as (os & Hos & Hpids & Hsorted).
  exists os. split; [done|]. split.
  - intros Hkey. rewrite Hkey, order_block_skipped in Horder.
    by injection Horder as <- _ _ _ _ _ _.
  - intros Hkey.
    destruct (order_block_done _ _ _ _ _ _ _ _ _ _ _ _ _ _ _ Hkey Horder)
      as (root & sorted & Hroot & -> & Hcases).
    apply GetProcessByPid_Ok in Hroot as [_ Hroot].
    rewrite fmap_cons, Hroot. constructor.
    rewrite <- Hpids, !filter_fmap.
    assert (Hperm : sorted ≡ₚ collected).
    { destruct Hcases as [(_ & -> & _)|[(_ & -> & _)|[(_ & Hs & _)|
                          [(_ & -> & _)|[(_ & -> & _)|(_ & -> & _)]]]]];
        try (by apply SortProcsByMemory_Permutation);
        symmetry; apply sort_Slice_Permutation. }
    by rewrite Hperm.
Qed.

Lemma run_keeps_every_process_witness :
  match pstreeRunCmd sample_env (with_order_by "age" no_flags) with
  | BuildTree processes _ => Process.PID <$> processes ≡ₚ [1; 50; 51]
  | _ => False
  end.
Proof.
  destruct (pstreeRunCmd sample_env (with_order_by "age" no_flags))
    as [| | |processes displayOptions] eqn:Hrun;
    try (vm_compute in Hrun; discriminate Hrun).
  destruct (run_keeps_every_process _ _ _ _ Hrun) as (os & Hos & _ & Hkeeps).
  injection Hos as <-. by apply Hkeeps.
Defined.

Lemma order_block_key key collected a c m pi t o processes a' c' m' pi' t' o' :
  order_block key collected a c m pi t o = OrderDone processes a' c' m' pi' t' o' →
  key = EmptyString ∨ key ∈ validOrderBy.
Proof.
  intros Horder. destruct (decide (key = EmptyString)) as [Hkey|Hkey]; [by left|].
  right. revert Horder. unfold order_block.
  rewrite (proj2 (eqb_string_false key EmptyString) Hkey).
  unfold slices_Contains. destruct (bool_decide_reflect (key ∈ validOrderBy)); done.
Qed.

(** ** Ordering without PID 1 *)

(** X19.  With a recognized sort key on a system that lists no process with PID
    1, the run never reaches the construction of the tree; once the flag
    rules, the version flag, the user list and the process list are behind
    it, it panics. *)
Theorem order_by_without_pid_1_panics env f os :
  flagOrderBy f ∈ validOrderBy →
  systemProcesses env = Ok os →
  1 ∉ OSProcess.Pid <$> os →
  (∀ processes displayOptions,
     pstreeRunCmd env f ≠ BuildTree processes displayOptions)
  ∧ (rules_pass f = true → flagVersion f = false →
     is_Some (existingUsers env (flagUsername f)) →
     pstreeRunCmd env f = Panic).
Proof.
  intros Hvalid Hos Hpid.
  assert (Hkey : flagOrderBy f ≠ EmptyString).
  { intros Hempty. rewrite Hempty in Hvalid. unfold validOrderBy in Hvalid.
    repeat (apply elem_of_cons in Hvalid as [Hvalid|Hvalid]; [done|]).
    by apply elem_of_nil in Hvalid. }
  assert (Hblock : ∀ collected miniOptions a c m pi t o,
    GetProcesses (RoundFloat env) (systemProcesses env) miniOptions = Some collected →
    order_block (flagOrderBy f) collected a c m pi t o = OrderPanic).
  { intros collected miniOptions a c m pi t o Hget.
    destruct (GetProcesses_pids _ _ _ _ Hget) as (os' & Hos' & Hpids & _).
    assert (os' = os) as -> by congruence.
    unfold order_block, slices_Contains.
    rewrite (proj2 (eqb_string_false _ EmptyString) Hkey).
    rewrite bool_decide_true by done. cbv beta iota zeta. unfold negb.
    rewrite GetProcessByPid_missing; [done|]. by rewrite Hpids. }
  split.
  - intros processes displayOptions Hrun.
    destruct (run_inversion _ _ _ _ Hrun)
      as (_ & _ & users & collected & total & a & c & m & pi & t & o
          & _ & Hget & Horder & _ & _).
    by rewrite (Hblock _ _ _ _ _ _ _ _ Hget) in Horder.
  - intros Hrules Hversion [users Husers].
    rewrite (run_after_rules env f Hrules), Hversion, Husers.
    destruct (GetProcesses _ _ _) as [collected|] eqn:Hget.
    + cbv zeta. by rewrite (Hblock _ _ _ _ _ _ _ _ Hget).
    + unfold GetProcesses in Hget. by rewrite Hos in Hget.
Qed.

Lemma order_by_without_pid_1_panics_witness :
  pstreeRunCmd orphan_env (with_order_by "pid" no_flags) = Panic.
Proof.
  apply (order_by_without_pid_1_panics orphan_env (with_order_by "pid" no_flags)
           [sample_os_process 50 7 "/usr/sbin/sshd" "root";
            sample_os_process 51 50 "/bin/bash" "alice"]).
  - unfold validOrderBy. simpl. set_solver.
  - reflexivity.
  - simpl. intros Hpid.
    repeat (apply elem_of_cons in Hpid as [Hpid|Hpid]; [done|]).
    by apply elem_of_nil in Hpid.
  - reflexivity.
  - reflexivity.
  - by eexists.
Defined.

(** ** When the run reaches the tree *)

(** X20.  A run reaches the construction of the tree whenever the flag rules
    pass, the version flag is not set, the rewriting of the user list does
    not panic, the system lists its processes and reports its memory, and
    either no sort key is given or the key is recognized and the system
    lists a process with PID 1.  In particular ordering by memory never
    meets a process without memory information. *)
Theorem run_reaches_tree env f os :
  rules_pass f = true →
  flagVersion f = false →
  is_Some (existingUsers env (flagUsername f)) →
  systemProcesses env = Ok os →
  is_Some (totalMemory env) →
  flagOrderBy f = EmptyString
  ∨ (flagOrderBy f ∈ validOrderBy ∧ 1 ∈ OSProcess.Pid <$> os) →
  ∃ processes displayOptions,
    pstreeRunCmd env f = BuildTree processes displayOptions.
Proof.
  intros Hrules Hversion [users Husers] Hos [total Htotal] Hkey.
  rewrite (run_after_rules env f Hrules), Hversion, Husers, Htotal.
  destruct (GetProcesses _ _ _) as [collected|] eqn:Hget.
  2:{ unfold GetProcesses in Hget. by rewrite Hos in Hget. }
  cbv zeta.
  destruct Hkey as [Hkey|[Hvalid Hpid]].
  { rewrite Hkey, order_block_skipped. by eexists _, _. }
  destruct (GetProcesses_pids _ _ _ _ Hget) as (os' & Hos' & Hpids & _).
  assert (os' = os) as -> by congruence.
  rewrite <- Hpids in Hpid.
  destruct (GetProcessByPid_found _ _ Hpid) as [root Hroot].
  assert (Hmem : eqb_string (flagOrderBy f) "mem" = true →
                 ∃ sorted, SortProcsByMemory collected = Some sorted).
  { intros Hm. unfold SortProcsByMemory. destruct (decide _); [by eexists|].
    replace (forallb _ collected) with true; [by eexists|].
    symmetry. apply forallb_forall. intros p Hp.
    apply bool_decide_eq_true. unfold GetProcesses in Hget. rewrite Hos in Hget.
    injection Hget as <-. apply in_map_iff in Hp as (proc & <- & _).
    unfold GenerateProcess. cbn [OrderBy run_miniOptions].
    rewrite Hm, orb_true_r. cbn [orb]. by eexists. }
  unfold order_block, slices_Contains.
  rewrite bool_decide_true by done.
  assert (Hne : flagOrderBy f ≠ EmptyString).
  { intros Hempty. rewrite Hempty in Hvalid. unfold validOrderBy in Hvalid.
    repeat (apply elem_of_cons in Hvalid as [Hvalid|Hvalid]; [done|]).
    by apply elem_of_nil in Hvalid. }
  rewrite (proj2 (eqb_string_false _ EmptyString) Hne), Hroot.
  cbv beta iota zeta. unfold negb.
  repeat match goal with
  | |- context [if eqb_string (flagOrderBy f) ?k then _ else _] =>
      destruct (eqb_string (flagOrderBy f) k) eqn:?
  end; try (by eexists _, _).
  destruct (Hmem eq_refl) as [sorted ->]. by eexists _, _.
Qed.

Lemma run_reaches_tree_witness :
  ∃ processes displayOptions,
    pstreeRunCmd sample_env (with_order_by "mem" no_flags)
    = BuildTree processes displayOptions.
Proof.
  apply (run_reaches_tree sample_env (with_order_by "mem" no_flags)
           [sample_os_process 50 1 "/usr/sbin/sshd" "root";
            sample_os_process 1 0 "/sbin/init" "root";
            sample_os_process 51 50 "/bin/bash" "alice"]).
  - reflexivity.
  - reflexivity.
  - by eexists.
  - reflexivity.
  - by eexists.
  - right. split; simpl; unfold validOrderBy; set_solver.
Defined.

(** ** The flag rules *)

(** X21.  The four flag rules beside the colour rules: a run with [--user] and
    [--exclude-root], with two of the graphics modes, with both transition
    flags, or with a [--level] below 1 returns an error, whatever else is
    on the command line and whatever the system is like. *)
Theorem conflicting_flags_rejected env f :
  (changedUser f = true ∧ flagExcludeRoot f = true)
  ∨ 1 < BtoI (flagIBM850 f) + BtoI (flagUTF8 f) + BtoI (flagVT100 f)
  ∨ (flagShowUIDTransitions f = true ∧ flagShowUserTransitions f = true)
  ∨ (changedLevel f = true ∧ flagLevel f < 1) →
  ∃ message, pstreeRunCmd env f = ReturnError message.
Proof.
  intros Hbad. apply rules_fail_error.
  destruct (rules_pass f) eqn:Hrules; [|done]. exfalso.
  unfold rules_pass in Hrules.
  repeat (apply andb_prop in Hrules as [Hrules ?]).
  repeat match goal with
  | H : negb _ = true |- _ => apply negb_true_iff in H
  end.
  destruct Hbad as [[Hu He]|[Hgraphics|[[Hu Ht]|[Hc Hl]]]].
  - rewrite Hu, He in *. done.
  - apply Z.ltb_lt in Hgraphics. congruence.
  - rewrite Hu, Ht in *. done.
  - apply Z.ltb_lt in Hl. rewrite Hc, Hl in *. done.
Qed.

Lemma conflicting_flags_rejected_witness :
  ∃ message, pstreeRunCmd sample_env (with_utf8 no_flags true) = ReturnError message.
Proof.
  apply conflicting_flags_rejected. right. left. simpl. lia.
Defined.

(** X22.  The display options a run hands to the tree are consistent: at most one
    graphics mode, at most one kind of transition, at most one of colorize,
    rainbow and colour attribute; the colour attribute, the colour scheme
    and the sort key are empty or recognized; a colour scheme turns
    colorize on; and the depth limit is never 0, and at least 1 when
    [--level] was given. *)
Theorem display_options_consistent env f processes displayOptions :
  pstreeRunCmd env f = BuildTree processes displayOptions →
  BtoI (IBM850Graphics displayOptions) + BtoI (UTF8Graphics displayOptions)
  + BtoI (VT100Graphics displayOptions) ≤ 1
  ∧ BtoI (ShowUIDTransitions displayOptions)
    + BtoI (ShowUserTransitions displayOptions) ≤ 1
  ∧ BtoI (ColorizeOutput displayOptions) + BtoI (RainbowOutput displayOptions)
    + StoI (ColorAttr displayOptions) ≤ 1
  ∧ (ColorAttr displayOptions = EmptyString
     ∨ ColorAttr displayOptions ∈ validAttributes)
  ∧ (ColorScheme displayOptions = EmptyString
     ∨ ColorScheme displayOptions ∈ validColorSchemes)
  ∧ (OrderBy displayOptions = EmptyString
     ∨ OrderBy displayOptions ∈ validOrderBy)
  ∧ (ColorScheme displayOptions ≠ EmptyString →
     ColorizeOutput displayOptions = true)
  ∧ MaxDepth displayOptions ≠ 0
  ∧ (changedLevel f = true → 1 ≤ MaxDepth displayOptions).
Proof.
  intros Hrun.
  destruct (run_inversion _ _ _ _ Hrun)
    as (Hrules & _ & users & collected & total & a & c & m & pi & t & o
        & _ & _ & Horder & _ & ->).
  apply order_block_key in Horder.
  unfold run_displayOptions.
  cbn [IBM850Graphics UTF8Graphics VT100Graphics ShowUIDTransitions
       ShowUserTransitions ColorizeOutput RainbowOutput ColorAttr ColorScheme
       OrderBy MaxDepth].
  unfold rules_pass in Hrules.
  repeat (apply andb_prop in Hrules as [Hrules ?]).
  repeat match goal with
  | H : negb _ = true |- _ => apply negb_true_iff in H
  end.
  repeat match goal with
  | H : (1 <? _) = false |- _ => apply Z.ltb_ge in H
  end.
  unfold slices_Contains in *.
  repeat split; try done.
  - destruct (eqb_string (flagColorScheme f) EmptyString) eqn:Hscheme; [done|].
    cbn [negb andb] in *.
    destruct (eqb_string (flagColorAttr f) EmptyString) eqn:Hattr; [|done].
    unfold StoI. rewrite Hattr. cbn [negb orb] in *.
    match goal with H : flagRainbow f = false |- _ => rewrite H end. done.
  - destruct (eqb_string (flagColorAttr f) EmptyString) eqn:Hattr.
    + left. by apply eqb_string_true.
    + right. cbn [negb andb] in *.
      match goal with
      | H : negb (bool_decide (_ ∈ validAttributes)) = false |- _ =>
          apply negb_false_iff, bool_decide_eq_true in H; exact H
      end.
  - destruct (eqb_string (flagColorScheme f) EmptyString) eqn:Hscheme.
    + left. by apply eqb_string_true.
    + right. cbn [negb andb] in *.
      match goal with
      | H : negb (bool_decide (_ ∈ validColorSchemes)) = false |- _ =>
          apply negb_false_iff, bool_decide_eq_true in H; exact H
      end.
  - intros Hscheme. apply eqb_string_false in Hscheme. by rewrite Hscheme.
  - destruct (flagLevel f =? 0) eqn:Hlevel; [done|]. by apply Z.eqb_neq.
  - intros Hchanged. rewrite Hchanged in *. cbn [andb] in *.
    match goal with H : (flagLevel f <? 1) = false |- _ => apply Z.ltb_ge in H end.
    destruct (flagLevel f =? 0); lia.
Qed.

Lemma display_options_consistent_witness :
  match pstreeRunCmd sample_env (with_utf8 no_flags false) with
  | BuildTree _ displayOptions =>
      UTF8Graphics displayOptions = true ∧ MaxDepth displayOptions ≠ 0
  | _ => False
  end.
Proof.
  destruct (pstreeRunCmd sample_env (with_utf8 no_flags false))
    as [| | |processes displayOptions] eqn:Hrun;
    try (vm_compute in Hrun; discriminate Hrun).
  destruct (display_options_consistent _ _ _ _ Hrun)
    as (_ & _ & _ & _ & _ & _ & _ & Hdepth & _).
  split; [|done]. vm_compute in Hrun. by injection Hrun as _ <-.
Defined.

(** ** The command name of a record *)

(** X23.  The command name of a process record is never the sentinel of a failed
    fetch, and it is empty in one case only: the executable path is
    unavailable or empty and the command line starts with an empty word. *)
Theorem GenerateProcess_Command_empty (roundFloat : float → Z → float)
    (proc : OSProcess) (miniOptions : DisplayOptions) :
  ProcessFunctions.ProcessCommandName proc
  = Ok (Process.Command (GenerateProcess roundFloat proc miniOptions))
  ∧ (Process.Command (GenerateProcess roundFloat proc miniOptions) = EmptyString
     ↔ (OSProcess.Exe proc = Err ∨ OSProcess.Exe proc = Ok EmptyString)
       ∧ ∃ rest, OSProcess.CmdlineSlice proc = Ok (EmptyString :: rest)).
Proof.
  unfold GenerateProcess. cbn [Process.Command].
  destruct (ShowMemoryUsage miniOptions || eqb_string (OrderBy miniOptions) "mem"
            || eqb_string (ColorAttr miniOptions) "mem"); cbn [Process.Command].
  all: unfold ProcessFunctions.ProcessCommandName.
  all: destruct (OSProcess.Exe proc) as [[|c exe]|];
    destruct (OSProcess.CmdlineSlice proc) as [[|first rest]|];
    destruct (OSProcess.Name proc) as [[|d name]|]; cbn [or_sentinel].
  all: (split; [reflexivity|]); split.
  all: try (intros [[He|He] [rest' Hc]]; first [discriminate He | by injection Hc]).
  all: try discriminate.
  all: try (intros ->; split; [by auto|by eexists]).
  all: try (intros [_ [rest' Hc]]; discriminate Hc).
Qed.
